(** * A shallow embedding of the JILUA LuaJIT bytecode loader, block resolver
    and lifter, with the properties of its specification.

    Conventions of the embedding.
    - Bytes and machine integers are [Z] values; a [u32] result is masked
      with [mask32] where the Rust code truncates.
    - Rust integer overflow (negation of [i16::MIN], a shift by 32 or more,
      an addition past the type's range) is a program error that panics in
      the default (debug) build profile; it is modelled as [Panic].
    - A [Res] is the outcome of a Rust call: [Ok], an [Err] of
      [DecompileError], a [Panic] ([unwrap] on [None], [panic!],
      [unimplemented!], out of range slicing), or [Diverge] when a modelled
      loop or recursion exceeds its fuel (the Rust code would not return).
    - A [Read] stream is the list of bytes still to be read; readers take it
      and return the remaining bytes. *)

From Stdlib Require Import ZArith Lia.
From stdpp Require Import base gmap list strings sets.

Open Scope Z_scope.

(** ** Errors and outcomes (src/src/error.rs) *)

Inductive DecompileError : Type :=
| IO
| InvalidULeb128
| InvalidHeaderBytes (msg : string)
| UnknownInsOpcode
| UnexpectedInsOpcode
| InvalidPriValue.

Inductive Res (A : Type) : Type :=
| Ok (a : A)
| Err (e : DecompileError)
| Panic
| Diverge.
Arguments Ok {A} a.
Arguments Err {A} e.
Arguments Panic {A}.
Arguments Diverge {A}.

#[global] Instance Res_ret : MRet Res := fun A a => Ok a.
#[global] Instance Res_bind : MBind Res := fun A B k m =>
  match m with
  | Ok a => k a
  | Err e => Err e
  | Panic => Panic
  | Diverge => Diverge
  end.

(** [Option::unwrap] *)
Definition unwrap {A} (o : option A) : Res A :=
  match o with Some a => Ok a | None => Panic end.

Definition mask32 : Z := 4294967295.

(** A byte stream: the bytes not yet read. *)
Definition stream := list Z.

(** [data.read_exact(&mut [0u8; n])]: a short read is an IO error. *)
Definition read_exact (n : nat) (s : stream) : Res (list Z * stream) :=
  if decide (n <= length s)%nat then Ok (take n s, drop n s) else Err IO.

Definition read_byte (s : stream) : Res (Z * stream) :=
  match s with
  | [] => Err IO
  | b :: s' => Ok (b, s')
  end.

(** ** ULEB128 decoders (src/src/bytecode_reader.rs) *)

(** [(x as u32 & 0x7f) << shift] for a [u32] and [shift <= 28]: the bits
    pushed past bit 31 are dropped. *)
Definition shl32 (x sh : Z) : Z := Z.land (Z.shiftl x sh) mask32.

(** The [loop] of [read_uleb128]; it runs at most six times, since [shift]
    grows by 7 from 0 and the loop fails once [shift > 28]. *)
Fixpoint read_uleb128_loop (fuel : nat) (result shift : Z) (s : stream)
  : Res (Z * stream) :=
  match fuel with
  | O => Diverge
  | S fuel' =>
      if decide (shift > 28) then Err InvalidULeb128 else
      '(b, s') ← read_byte s;
      let result := Z.lor result (shl32 (Z.land b 127) shift) in
      if decide (Z.land b 128 = 0) then Ok (result, s')
      else read_uleb128_loop fuel' result (shift + 7) s'
  end.

Definition read_uleb128 (s : stream) : Res (Z * stream) :=
  read_uleb128_loop 6 0 0 s.

(** [read_uleb128_33]: the shift [sh] is a [u32]; [x << sh] with [sh >= 32]
    is an overflow, and so is [sh += 7] past [u32::MAX].  The loop has no
    bound of its own; every turn reads a byte, so a fuel of one more than the
    stream length reaches the end of any run. *)
Definition shl32_checked (x sh : Z) : Res Z :=
  if decide (sh >= 32) then Panic else Ok (shl32 x sh).

Fixpoint read_uleb128_33_loop (fuel : nat) (v sh : Z) (s : stream)
  : Res (Z * stream) :=
  match fuel with
  | O => Diverge
  | S fuel' =>
      '(b, s') ← read_byte s;
      x ← shl32_checked (Z.land b 127) sh;
      let v := Z.lor v x in
      if decide (b < 128) then Ok (v, s')
      else if decide (sh + 7 > mask32) then Panic
      else read_uleb128_33_loop fuel' v (sh + 7) s'
  end.

(** Returns [((v, first byte), rest)]. *)
Definition read_uleb128_33 (s : stream) : Res ((Z * Z) * stream) :=
  '(tmp, s1) ← read_byte s;
  let v := Z.shiftr tmp 1 in
  if decide (v >= 64) then
    '(v', s2) ← read_uleb128_33_loop (S (length s1)) (Z.land v 63) 6 s1;
    Ok ((v', tmp), s2)
  else Ok ((v, tmp), s1).

(** The ULEB128 encoding of a [u32], as the dump format writes it: seven
    bits per byte, low group first, bit 7 set on every byte but the last.
    Five groups cover 32 bits. *)
Fixpoint encode_uleb128_aux (fuel : nat) (n : Z) : list Z :=
  match fuel with
  | O => []
  | S f => if decide (n < 128) then [n]
           else (n mod 128 + 128) :: encode_uleb128_aux f (n / 128)
  end.

Definition encode_uleb128 (n : Z) : list Z := encode_uleb128_aux 5 n.


(** ** Operand types (src/src/types.rs) *)

Module Pri.
Inductive t : Type := Nil | False | True.
End Pri.

(** [Pri::from(u16)]: [val as u8], and a panic on any value but 0, 1, 2. *)
Definition pri_of_u16 (v : Z) : Res Pri.t :=
  let b := Z.land v 255 in
  if decide (b = 0) then Ok Pri.Nil
  else if decide (b = 1) then Ok Pri.False
  else if decide (b = 2) then Ok Pri.True
  else Panic.

(** [Lit::from(u16)] keeps the low byte; [LitS::from(u16)] reads it as [i8]. *)
Definition lit_of_u16 (v : Z) : Z := Z.land v 255.
Definition lits_of_u16 (v : Z) : Z :=
  let b := Z.land v 255 in if decide (b >= 128) then b - 256 else b.

(** [x as i16] *)
Definition wrap_i16 (x : Z) : Z := (x + 32768) mod 65536 - 32768.

(** [Jump::from(u16)]:
    [if val >= 0x8000 { Jump((val - 0x8000) as i16) }
     else { Jump(-((0x8000 - val) as i16)) }].
    The unary minus on an [i16] overflows on [i16::MIN]. *)
Definition jump_of_u16 (v : Z) : Res Z :=
  if decide (v >= 32768) then Ok (wrap_i16 (v - 32768))
  else
    let x := wrap_i16 (32768 - v) in
    if decide (x = -32768) then Panic else Ok (- x).

(** ** Instructions (src/src/op.rs, src/src/disasm.rs) *)

(** Operands are kept as the numbers the [types.rs] wrappers hold; a
    [Jump] holds its signed offset. *)
Inductive Op : Type :=
| ISLT (_ : Z) (_ : Z)
| ISGE (_ : Z) (_ : Z)
| ISLE (_ : Z) (_ : Z)
| ISGT (_ : Z) (_ : Z)
| ISEQV (_ : Z) (_ : Z)
| ISNEV (_ : Z) (_ : Z)
| ISEQS (_ : Z) (_ : Z)
| ISNES (_ : Z) (_ : Z)
| ISEQN (_ : Z) (_ : Z)
| ISNEN (_ : Z) (_ : Z)
| ISEQP (_ : Z) (_ : Pri.t)
| ISNEP (_ : Z) (_ : Pri.t)
| ISTC (_ : Z) (_ : Z)
| ISFC (_ : Z) (_ : Z)
| IST (_ : Z)
| ISF (_ : Z)
| ISTYPE (_ : Z) (_ : Z)
| ISNUM (_ : Z) (_ : Z)
| MOV (_ : Z) (_ : Z)
| NOT (_ : Z) (_ : Z)
| UNM (_ : Z) (_ : Z)
| LEN (_ : Z) (_ : Z)
| ADDVN (_ : Z) (_ : Z) (_ : Z)
| SUBVN (_ : Z) (_ : Z) (_ : Z)
| MULVN (_ : Z) (_ : Z) (_ : Z)
| DIVVN (_ : Z) (_ : Z) (_ : Z)
| MODVN (_ : Z) (_ : Z) (_ : Z)
| ADDNV (_ : Z) (_ : Z) (_ : Z)
| SUBNV (_ : Z) (_ : Z) (_ : Z)
| MULNV (_ : Z) (_ : Z) (_ : Z)
| DIVNV (_ : Z) (_ : Z) (_ : Z)
| MODNV (_ : Z) (_ : Z) (_ : Z)
| ADDVV (_ : Z) (_ : Z) (_ : Z)
| SUBVV (_ : Z) (_ : Z) (_ : Z)
| MULVV (_ : Z) (_ : Z) (_ : Z)
| DIVVV (_ : Z) (_ : Z) (_ : Z)
| MODVV (_ : Z) (_ : Z) (_ : Z)
| POW (_ : Z) (_ : Z) (_ : Z)
| CAT (_ : Z) (_ : Z) (_ : Z)
| KSTR (_ : Z) (_ : Z)
| KCDATA (_ : Z) (_ : Z)
| KSHORT (_ : Z) (_ : Z)
| KNUM (_ : Z) (_ : Z)
| KPRI (_ : Z) (_ : Pri.t)
| KNIL (_ : Z) (_ : Z)
| UGET (_ : Z) (_ : Z)
| USETV (_ : Z) (_ : Z)
| USETS (_ : Z) (_ : Z)
| USETN (_ : Z) (_ : Z)
| USETP (_ : Z) (_ : Pri.t)
| UCLO (_ : Z) (_ : Z)
| FNEW (_ : Z) (_ : Z)
| TNEW (_ : Z) (_ : Z)
| TDUP (_ : Z) (_ : Z)
| GGET (_ : Z) (_ : Z)
| GSET (_ : Z) (_ : Z)
| TGETV (_ : Z) (_ : Z) (_ : Z)
| TGETS (_ : Z) (_ : Z) (_ : Z)
| TGETB (_ : Z) (_ : Z) (_ : Z)
| TGETR (_ : Z) (_ : Z) (_ : Z)
| TSETV (_ : Z) (_ : Z) (_ : Z)
| TSETS (_ : Z) (_ : Z) (_ : Z)
| TSETB (_ : Z) (_ : Z) (_ : Z)
| TSETM (_ : Z) (_ : Z)
| TSETR (_ : Z) (_ : Z) (_ : Z)
| CALLM (_ : Z) (_ : Z) (_ : Z)
| CALL (_ : Z) (_ : Z) (_ : Z)
| CALLMT (_ : Z) (_ : Z)
| CALLT (_ : Z) (_ : Z)
| ITERC (_ : Z) (_ : Z) (_ : Z)
| ITERN (_ : Z) (_ : Z) (_ : Z)
| VARG (_ : Z) (_ : Z) (_ : Z)
| ISNEXT (_ : Z) (_ : Z)
| RETM (_ : Z) (_ : Z)
| RET (_ : Z) (_ : Z)
| RET0 (_ : Z) (_ : Z)
| RET1 (_ : Z) (_ : Z)
| FORI (_ : Z) (_ : Z)
| JFORI (_ : Z) (_ : Z)
| FORL (_ : Z) (_ : Z)
| IFORL (_ : Z) (_ : Z)
| JFORL (_ : Z) (_ : Z)
| ITERL (_ : Z) (_ : Z)
| IITERL (_ : Z) (_ : Z)
| JITERL (_ : Z) (_ : Z)
| LOOP (_ : Z) (_ : Z)
| ILOOP (_ : Z) (_ : Z)
| JLOOP (_ : Z) (_ : Z)
| JMP (_ : Z) (_ : Z)
| FUNCF (_ : Z)
| IFUNCF (_ : Z)
| JFUNCF (_ : Z) (_ : Z)
| FUNCV (_ : Z)
| IFUNCV (_ : Z)
| JFUNCV (_ : Z) (_ : Z)
| FUNCC (_ : Z)
| FUNCCW (_ : Z).

Definition get_op (ins : Z) : Z := Z.land ins 255.
Definition get_a (ins : Z) : Z := Z.land (Z.shiftr ins 8) 255.
Definition get_b (ins : Z) : Z := Z.land (Z.shiftr ins 16) 255.
Definition get_c (ins : Z) : Z := Z.land (Z.shiftr ins 24) 255.
Definition get_d (ins : Z) : Z := Z.land (Z.shiftr ins 16) 65535.

(** [disasm]: an unknown opcode is a [panic!]. *)
Definition disasm (ins_raw : Z) : Res Op :=
  match Z.to_nat (get_op ins_raw) with
  | 0%nat => Ok (ISLT (get_a ins_raw) (get_d ins_raw))
  | 1%nat => Ok (ISGE (get_a ins_raw) (get_d ins_raw))
  | 2%nat => Ok (ISLE (get_a ins_raw) (get_d ins_raw))
  | 3%nat => Ok (ISGT (get_a ins_raw) (get_d ins_raw))
  | 4%nat => Ok (ISEQV (get_a ins_raw) (get_d ins_raw))
  | 5%nat => Ok (ISNEV (get_a ins_raw) (get_d ins_raw))
  | 6%nat => Ok (ISEQS (get_a ins_raw) (get_d ins_raw))
  | 7%nat => Ok (ISNES (get_a ins_raw) (get_d ins_raw))
  | 8%nat => Ok (ISEQN (get_a ins_raw) (get_d ins_raw))
  | 9%nat => Ok (ISNEN (get_a ins_raw) (get_d ins_raw))
  | 10%nat => p ← pri_of_u16 (get_d ins_raw); Ok (ISEQP (get_a ins_raw) p)
  | 11%nat => p ← pri_of_u16 (get_d ins_raw); Ok (ISNEP (get_a ins_raw) p)
  | 12%nat => Ok (ISTC (get_a ins_raw) (get_d ins_raw))
  | 13%nat => Ok (ISFC (get_a ins_raw) (get_d ins_raw))
  | 14%nat => Ok (IST (get_d ins_raw))
  | 15%nat => Ok (ISF (get_d ins_raw))
  | 16%nat => Ok (ISTYPE (get_a ins_raw) (lit_of_u16 (get_d ins_raw)))
  | 17%nat => Ok (ISNUM (get_a ins_raw) (lit_of_u16 (get_d ins_raw)))
  | 18%nat => Ok (MOV (get_a ins_raw) (get_d ins_raw))
  | 19%nat => Ok (NOT (get_a ins_raw) (get_d ins_raw))
  | 20%nat => Ok (UNM (get_a ins_raw) (get_d ins_raw))
  | 21%nat => Ok (LEN (get_a ins_raw) (get_d ins_raw))
  | 22%nat => Ok (ADDVN (get_a ins_raw) (get_b ins_raw) (get_c ins_raw))
  | 23%nat => Ok (SUBVN (get_a ins_raw) (get_b ins_raw) (get_c ins_raw))
  | 24%nat => Ok (MULVN (get_a ins_raw) (get_b ins_raw) (get_c ins_raw))
  | 25%nat => Ok (DIVVN (get_a ins_raw) (get_b ins_raw) (get_c ins_raw))
  | 26%nat => Ok (MODVN (get_a ins_raw) (get_b ins_raw) (get_c ins_raw))
  | 27%nat => Ok (ADDNV (get_a ins_raw) (get_b ins_raw) (get_c ins_raw))
  | 28%nat => Ok (SUBNV (get_a ins_raw) (get_b ins_raw) (get_c ins_raw))
  | 29%nat => Ok (MULNV (get_a ins_raw) (get_b ins_raw) (get_c ins_raw))
  | 30%nat => Ok (DIVNV (get_a ins_raw) (get_b ins_raw) (get_c ins_raw))
  | 31%nat => Ok (MODNV (get_a ins_raw) (get_b ins_raw) (get_c ins_raw))
  | 32%nat => Ok (ADDVV (get_a ins_raw) (get_b ins_raw) (get_c ins_raw))
  | 33%nat => Ok (SUBVV (get_a ins_raw) (get_b ins_raw) (get_c ins_raw))
  | 34%nat => Ok (MULVV (get_a ins_raw) (get_b ins_raw) (get_c ins_raw))
  | 35%nat => Ok (DIVVV (get_a ins_raw) (get_b ins_raw) (get_c ins_raw))
  | 36%nat => Ok (MODVV (get_a ins_raw) (get_b ins_raw) (get_c ins_raw))
  | 37%nat => Ok (POW (get_a ins_raw) (get_b ins_raw) (get_c ins_raw))
  | 38%nat => Ok (CAT (get_a ins_raw) (get_b ins_raw) (get_c ins_raw))
  | 39%nat => Ok (KSTR (get_a ins_raw) (get_d ins_raw))
  | 40%nat => Ok (KCDATA (get_a ins_raw) (get_d ins_raw))
  | 41%nat => Ok (KSHORT (get_a ins_raw) (lits_of_u16 (get_d ins_raw)))
  | 42%nat => Ok (KNUM (get_a ins_raw) (get_d ins_raw))
  | 43%nat => p ← pri_of_u16 (get_d ins_raw); Ok (KPRI (get_a ins_raw) p)
  | 44%nat => Ok (KNIL (get_a ins_raw) (get_d ins_raw))
  | 45%nat => Ok (UGET (get_a ins_raw) (get_d ins_raw))
  | 46%nat => Ok (USETV (get_a ins_raw) (get_d ins_raw))
  | 47%nat => Ok (USETS (get_a ins_raw) (get_d ins_raw))
  | 48%nat => Ok (USETN (get_a ins_raw) (get_d ins_raw))
  | 49%nat => p ← pri_of_u16 (get_d ins_raw); Ok (USETP (get_a ins_raw) p)
  | 50%nat => j ← jump_of_u16 (get_d ins_raw); Ok (UCLO (get_a ins_raw) j)
  | 51%nat => Ok (FNEW (get_a ins_raw) (get_d ins_raw))
  | 52%nat => Ok (TNEW (get_a ins_raw) (lit_of_u16 (get_d ins_raw)))
  | 53%nat => Ok (TDUP (get_a ins_raw) (get_d ins_raw))
  | 54%nat => Ok (GGET (get_a ins_raw) (get_d ins_raw))
  | 55%nat => Ok (GSET (get_a ins_raw) (get_d ins_raw))
  | 56%nat => Ok (TGETV (get_a ins_raw) (get_b ins_raw) (get_c ins_raw))
  | 57%nat => Ok (TGETS (get_a ins_raw) (get_b ins_raw) (get_c ins_raw))
  | 58%nat => Ok (TGETB (get_a ins_raw) (get_b ins_raw) (get_c ins_raw))
  | 59%nat => Ok (TGETR (get_a ins_raw) (get_b ins_raw) (get_c ins_raw))
  | 60%nat => Ok (TSETV (get_a ins_raw) (get_b ins_raw) (get_c ins_raw))
  | 61%nat => Ok (TSETS (get_a ins_raw) (get_b ins_raw) (get_c ins_raw))
  | 62%nat => Ok (TSETB (get_a ins_raw) (get_b ins_raw) (get_c ins_raw))
  | 63%nat => Ok (TSETM (get_a ins_raw) (get_d ins_raw))
  | 64%nat => Ok (TSETR (get_a ins_raw) (get_b ins_raw) (get_c ins_raw))
  | 65%nat => Ok (CALLM (get_a ins_raw) (get_b ins_raw) (get_c ins_raw))
  | 66%nat => Ok (CALL (get_a ins_raw) (get_b ins_raw) (get_c ins_raw))
  | 67%nat => Ok (CALLMT (get_a ins_raw) (lit_of_u16 (get_d ins_raw)))
  | 68%nat => Ok (CALLT (get_a ins_raw) (lit_of_u16 (get_d ins_raw)))
  | 69%nat => Ok (ITERC (get_a ins_raw) (get_b ins_raw) (get_c ins_raw))
  | 70%nat => Ok (ITERN (get_a ins_raw) (get_b ins_raw) (get_c ins_raw))
  | 71%nat => Ok (VARG (get_a ins_raw) (get_b ins_raw) (get_c ins_raw))
  | 72%nat => j ← jump_of_u16 (get_d ins_raw); Ok (ISNEXT (get_a ins_raw) j)
  | 73%nat => Ok (RETM (get_a ins_raw) (lit_of_u16 (get_d ins_raw)))
  | 74%nat => Ok (RET (get_a ins_raw) (lit_of_u16 (get_d ins_raw)))
  | 75%nat => Ok (RET0 (get_a ins_raw) (lit_of_u16 (get_d ins_raw)))
  | 76%nat => Ok (RET1 (get_a ins_raw) (lit_of_u16 (get_d ins_raw)))
  | 77%nat => j ← jump_of_u16 (get_d ins_raw); Ok (FORI (get_a ins_raw) j)
  | 78%nat => j ← jump_of_u16 (get_d ins_raw); Ok (JFORI (get_a ins_raw) j)
  | 79%nat => j ← jump_of_u16 (get_d ins_raw); Ok (FORL (get_a ins_raw) j)
  | 80%nat => j ← jump_of_u16 (get_d ins_raw); Ok (IFORL (get_a ins_raw) j)
  | 81%nat => Ok (JFORL (get_a ins_raw) (lit_of_u16 (get_d ins_raw)))
  | 82%nat => j ← jump_of_u16 (get_d ins_raw); Ok (ITERL (get_a ins_raw) j)
  | 83%nat => j ← jump_of_u16 (get_d ins_raw); Ok (IITERL (get_a ins_raw) j)
  | 84%nat => Ok (JITERL (get_a ins_raw) (lit_of_u16 (get_d ins_raw)))
  | 85%nat => j ← jump_of_u16 (get_d ins_raw); Ok (LOOP (get_a ins_raw) j)
  | 86%nat => j ← jump_of_u16 (get_d ins_raw); Ok (ILOOP (get_a ins_raw) j)
  | 87%nat => Ok (JLOOP (get_a ins_raw) (lit_of_u16 (get_d ins_raw)))
  | 88%nat => j ← jump_of_u16 (get_d ins_raw); Ok (JMP (get_a ins_raw) j)
  | 89%nat => Ok (FUNCF (get_a ins_raw))
  | 90%nat => Ok (IFUNCF (get_a ins_raw))
  | 91%nat => Ok (JFUNCF (get_a ins_raw) (lit_of_u16 (get_d ins_raw)))
  | 92%nat => Ok (FUNCV (get_a ins_raw))
  | 93%nat => Ok (IFUNCV (get_a ins_raw))
  | 94%nat => Ok (JFUNCV (get_a ins_raw) (lit_of_u16 (get_d ins_raw)))
  | 95%nat => Ok (FUNCC (get_a ins_raw))
  | 96%nat => Ok (FUNCCW (get_a ins_raw))
  | _ => Panic
  end.

(** ** The graph substrate (src/src/graph/graph_impl.rs)

    [nodes] is the [BTreeMap<u32, Node<N>>], [edges] the [Vec<Edge<E>>];
    edge indices are positions in [edges]. *)

Record Node (N : Type) := mkNode {
  weight : N;
  next_outgoing_edge : option nat;
  next_incoming_edge : option nat
}.
Arguments mkNode {N} _ _ _.
Arguments weight {N} _.
Arguments next_outgoing_edge {N} _.
Arguments next_incoming_edge {N} _.

Record Edge (E : Type) := mkEdge {
  edge_weight : E;
  from : Z;
  to : Z;
  edge_next_outgoing : option nat;
  edge_next_incoming : option nat
}.
Arguments mkEdge {E} _ _ _ _ _.
Arguments edge_weight {E} _.
Arguments from {E} _.
Arguments to {E} _.
Arguments edge_next_outgoing {E} _.
Arguments edge_next_incoming {E} _.

Record Graph (N E : Type) := mkGraph {
  nodes : gmap Z (Node N);
  edges : list (Edge E)
}.
Arguments mkGraph {N E} _ _.
Arguments nodes {N E} _.
Arguments edges {N E} _.

(** The greatest, and the least, element of a list of keys. *)
Definition max_opt (l : list Z) : option Z :=
  foldr (fun k acc => match acc with
                      | None => Some k
                      | Some m => Some (Z.max k m)
                      end) None l.
Definition min_opt (l : list Z) : option Z :=
  foldr (fun k acc => match acc with
                      | None => Some k
                      | Some m => Some (Z.min k m)
                      end) None l.

Section GraphOps.
Context {N E : Type}.
Implicit Types g : Graph N E.

Definition graph_new : Graph N E := mkGraph ∅ [].

Definition node_keys g : list Z := (map_to_list (nodes g)).*1.

Definition node_weight g (index : Z) : option N := weight <$> nodes g !! index.

Definition exists_node g (index : Z) : bool := bool_decide (is_Some (nodes g !! index)).

(** [nodes.range(..=index).next_back()] *)
Definition try_prev_node g (index : Z) : option Z :=
  max_opt (filter (fun k => k <= index) (node_keys g)).

(** [nodes.range(index..).next()] *)
Definition try_next_node g (index : Z) : option Z :=
  min_opt (filter (fun k => index <= k) (node_keys g)).

(** [add_node] inserts (replacing any node at [index]) and returns
    [Some index] when the key was new, [None] when it replaced a node. *)
Definition add_node g (index : Z) (w : N) : option Z * Graph N E :=
  (match nodes g !! index with Some _ => None | None => Some index end,
   mkGraph (<[index := mkNode w None None]> (nodes g)) (edges g)).

Definition add_edge g (w : E) (fr t : Z) : Res (nat * Graph N E) :=
  let index := length (edges g) in
  from_node ← unwrap (nodes g !! fr);
  let next_out := next_outgoing_edge from_node in
  let ns1 := <[fr := mkNode (weight from_node) (Some index)
                            (next_incoming_edge from_node)]> (nodes g) in
  to_node ← unwrap (ns1 !! t);
  let next_in := next_incoming_edge to_node in
  let ns2 := <[t := mkNode (weight to_node) (next_outgoing_edge to_node)
                           (Some index)]> ns1 in
  Ok (index, mkGraph ns2 (edges g ++ [mkEdge w fr t next_out next_in])).

Definition set_from (ed : Edge E) (fr : Z) : Edge E :=
  mkEdge (edge_weight ed) fr (to ed) (edge_next_outgoing ed) (edge_next_incoming ed).

(** The [while let Some(edge_index) = next_outgoing_edge] loop of
    [split_node]; it does not end on a cyclic list, which the fuel (one more
    than the number of edges) turns into [Diverge]. *)
Fixpoint relink_outgoing (fuel : nat) (es : list (Edge E)) (cur : option nat)
    (new_index : Z) : Res (list (Edge E)) :=
  match cur with
  | None => Ok es
  | Some edge_index =>
      match fuel with
      | O => Diverge
      | S fuel' =>
          ed ← unwrap (es !! edge_index);
          relink_outgoing fuel' (<[edge_index := set_from ed new_index]> es)
            (edge_next_outgoing ed) new_index
      end
  end.

(** [split_node]; the [splitter] closure gets the old weight and returns
    the weight it leaves in place together with the new node's weight. *)
Definition split_node g (index new_index : Z) (splitter : N -> Res (N * N))
    : Res (Z * Graph N E) :=
  node ← unwrap (nodes g !! index);
  let next_out := next_outgoing_edge node in
  '(old_w, new_weight) ← splitter (weight node);
  let g1 := mkGraph (<[index := mkNode old_w None (next_incoming_edge node)]>
                       (nodes g)) (edges g) in
  let '(r, g2) := add_node g1 new_index new_weight in
  _ ← unwrap r;
  new_node ← unwrap (nodes g2 !! new_index);
  let ns3 := <[new_index := mkNode (weight new_node) next_out
                                   (next_incoming_edge new_node)]> (nodes g2) in
  es ← relink_outgoing (S (length (edges g2))) (edges g2) next_out new_index;
  Ok (new_index, mkGraph ns3 es).

End GraphOps.

(** ** The block resolver (src/src/resolver.rs) *)

Module BranchKind.
Inductive t : Type :=
  | True | False | Unconditional | Loop | LoopOut | LoopBody | LoopIter.
End BranchKind.

(** A [Block] is its vector of instruction words. *)
Definition Block := list Z.

(** [Block::split(idx)] is [data.split_off(idx)], which panics when
    [idx > len]. *)
Definition block_split (at_ : nat) (b : Block) : Res (Block * Block) :=
  if decide (at_ <= length b)%nat then Ok (take at_ b, drop at_ b) else Panic.

Abbreviation CFG := (Graph Block BranchKind.t).

(** [bc_raw[lo..hi]]: out of range or reversed bounds panic. *)
Definition slice (bc : list Z) (lo hi : Z) : Res (list Z) :=
  if decide (0 <= lo /\ lo <= hi /\ hi <= Z.of_nat (length bc))
  then Ok (take (Z.to_nat (hi - lo)) (drop (Z.to_nat lo) bc))
  else Panic.

(** [x as i32] *)
Definition wrap_i32 (x : Z) : Z := (x + 2147483648) mod 4294967296 - 2147483648.

(** [((idx + 1) as i32 + jump.0 as i32) as u32]; the [i32] addition is
    checked. *)
Definition jump_dest (idx jump : Z) : Res Z :=
  let s := wrap_i32 (idx + 1) + jump in
  if decide (s < -2147483648 \/ 2147483647 < s) then Panic
  else Ok (s mod 4294967296).

Section Scan.
(** [recurse_block(graph, bc_raw, _)] one level down. *)
Variable recurse : CFG -> Z -> Res CFG.
Variable bc_raw : list Z.
Variable block_start_idx : Z.
Variable next_block : option Z.

(** [graph.add_node(block_start_idx, bc_raw[block_start_idx..=idx])] *)
Definition close_block (g : CFG) (idx : Z) : Res CFG :=
  blk ← slice bc_raw block_start_idx (idx + 1);
  Ok (add_node g block_start_idx blk).2.

(** [recurse_block(.., dest)?], then an edge of kind [k] from the block that
    now holds [idx] ([try_prev_node(idx).unwrap()]) to [dest]. *)
Definition branch_to (g : CFG) (idx dest : Z) (k : BranchKind.t) : Res CFG :=
  g1 ← recurse g dest;
  cur ← unwrap (try_prev_node g1 idx);
  '(_, g2) ← add_edge g1 k cur dest;
  Ok g2.

(** The [for (idx, &ins_raw) in bc_raw.iter().enumerate().skip(..)] loop of
    a new block; [rest] is the part of [bc_raw] from [idx] on. *)
Fixpoint scan (prev_cond_idx : option Z) (idx : Z) (rest : list Z) (g : CFG)
    : Res CFG :=
  match rest with
  | [] =>
      blk ← slice bc_raw block_start_idx (Z.of_nat (length bc_raw));
      Ok (add_node g block_start_idx blk).2
  | ins_raw :: rest' =>
      if decide (next_block = Some idx) then
        blk ← slice bc_raw block_start_idx idx;
        let g1 := (add_node g block_start_idx blk).2 in
        '(_, g2) ← add_edge g1 BranchKind.Unconditional block_start_idx idx;
        Ok g2
      else
      op ← disasm ins_raw;
      match op with
      | ISLT _ _ | ISGE _ _ | ISLE _ _ | ISGT _ _ | ISEQV _ _ | ISTC _ _
      | ISNEV _ _ | ISEQS _ _ | ISNES _ _ | ISEQN _ _ | ISNEN _ _
      | ISEQP _ _ | ISNEP _ _ | IST _ | ISF _ | ISFC _ _ =>
          scan (Some idx) (idx + 1) rest' g
      | ISNEXT _ jump =>
          g1 ← close_block g idx;
          dest ← jump_dest idx jump;
          branch_to g1 idx dest BranchKind.LoopIter
      | ITERL _ jump | IITERL _ jump =>
          g1 ← close_block g idx;
          dest ← jump_dest idx jump;
          g2 ← branch_to g1 idx dest BranchKind.LoopBody;
          branch_to g2 idx (idx + 1) BranchKind.LoopOut
      | JITERL _ _ => Panic
      | JFORL _ _ => Panic
      | FORI _ jump | JFORI _ jump =>
          g1 ← close_block g idx;
          dest ← jump_dest idx jump;
          g2 ← branch_to g1 idx dest BranchKind.LoopOut;
          branch_to g2 idx (idx + 1) BranchKind.LoopBody
      | FORL _ jump | IFORL _ jump =>
          g1 ← close_block g idx;
          dest ← jump_dest idx jump;
          g2 ← branch_to g1 idx dest BranchKind.LoopBody;
          branch_to g2 idx (idx + 1) BranchKind.LoopOut
      | UCLO _ jump =>
          g1 ← close_block g idx;
          dest ← jump_dest idx jump;
          branch_to g1 idx dest BranchKind.Unconditional
      | JMP _ jump =>
          g1 ← close_block g idx;
          dest ← jump_dest idx jump;
          g2 ← recurse g1 dest;
          if decide ((fun v => v + 1) <$> prev_cond_idx = Some idx) then
            cur ← unwrap (try_prev_node g2 idx);
            '(_, g3) ← add_edge g2 BranchKind.True cur dest;
            branch_to g3 idx (idx + 1) BranchKind.False
          else
            cur ← unwrap (try_prev_node g2 idx);
            '(_, g3) ← add_edge g2 BranchKind.Unconditional cur dest;
            Ok g3
      | RET _ _ | RET0 _ _ | RET1 _ _ | RETM _ _ =>
          if decide (idx + 2 <= Z.of_nat (length bc_raw)) then
            nxt ← unwrap (bc_raw !! Z.to_nat (idx + 1));
            op' ← disasm nxt;
            match op' with
            | JMP _ _ => scan prev_cond_idx (idx + 1) rest' g
            | _ => close_block g idx
            end
          else close_block g idx
      | _ => scan prev_cond_idx (idx + 1) rest' g
      end
  end.

End Scan.

(** [recurse_block]; [fuel] bounds the depth of the recursion. *)
Fixpoint recurse_block (fuel : nat) (graph : CFG) (bc_raw : list Z) (idx : Z)
    : Res CFG :=
  match fuel with
  | O => Diverge
  | S fuel' =>
      let new_block (g : CFG) :=
        scan (fun g' i => recurse_block fuel' g' bc_raw i) bc_raw idx
          (try_next_node g idx) None idx (drop (Z.to_nat idx) bc_raw) g in
      match try_prev_node graph idx with
      | Some prev_idx =>
          if decide (idx = prev_idx) then Ok graph else
          let dist := idx - prev_idx in
          block ← unwrap (node_weight graph prev_idx);
          if decide (dist < Z.of_nat (length block)) then
            '(_, g1) ← split_node graph prev_idx idx (block_split (Z.to_nat dist));
            '(_, g2) ← add_edge g1 BranchKind.Unconditional prev_idx idx;
            Ok g2
          else new_block graph
      | None => new_block graph
      end
  end.

(** Every nested call opens a block at a new offset below [length bc_raw]
    before it recurses, so [length bc_raw + 1] levels suffice. *)
Definition resolve_basic_blocks (bc_raw : list Z) : Res CFG :=
  recurse_block (S (length bc_raw)) graph_new bc_raw 0.

(** ** Strings: [String::from_utf8_lossy] (Rust core, [Utf8Chunks])

    A Rust [String] is kept as its UTF-8 bytes.  [from_utf8_lossy] copies
    every well-formed sequence and replaces each maximal ill-formed prefix
    of a sequence (a bad lead byte, or a lead byte with the continuation
    bytes accepted before the first one that does not fit) with U+FFFD,
    then goes on at the byte that did not fit. *)

Definition REPLACEMENT : list Z := [239; 191; 189].

Definition in_range (lo hi b : Z) : bool := bool_decide (lo <= b <= hi).

(** [safe_get(i) as i8 >= -64] fails exactly on the bytes [0x80..=0xBF]. *)
Definition is_cont (b : Z) : bool := in_range 128 191 b.

(** The [(byte, safe_get(i))] patterns of the three and four byte cases. *)
Definition second_ok3 (b c : Z) : bool :=
  (bool_decide (b = 224) && in_range 160 191 c)
  || (in_range 225 236 b && in_range 128 191 c)
  || (bool_decide (b = 237) && in_range 128 159 c)
  || (in_range 238 239 b && in_range 128 191 c).

Definition second_ok4 (b c : Z) : bool :=
  (bool_decide (b = 240) && in_range 144 191 c)
  || (in_range 241 243 b && in_range 128 191 c)
  || (bool_decide (b = 244) && in_range 128 143 c).

Fixpoint from_utf8_lossy (s : list Z) : list Z :=
  match s with
  | [] => []
  | b :: t =>
      if decide (b < 128) then b :: from_utf8_lossy t
      else if in_range 194 223 b then
        match t with
        | c :: t' =>
            if is_cont c then b :: c :: from_utf8_lossy t'
            else REPLACEMENT ++ from_utf8_lossy t
        | [] => REPLACEMENT
        end
      else if in_range 224 239 b then
        match t with
        | c1 :: t1 =>
            if second_ok3 b c1 then
              match t1 with
              | c2 :: t2 =>
                  if is_cont c2 then b :: c1 :: c2 :: from_utf8_lossy t2
                  else REPLACEMENT ++ from_utf8_lossy t1
              | [] => REPLACEMENT
              end
            else REPLACEMENT ++ from_utf8_lossy t
        | [] => REPLACEMENT
        end
      else if in_range 240 244 b then
        match t with
        | c1 :: t1 =>
            if second_ok4 b c1 then
              match t1 with
              | c2 :: t2 =>
                  if is_cont c2 then
                    match t2 with
                    | c3 :: t3 =>
                        if is_cont c3 then b :: c1 :: c2 :: c3 :: from_utf8_lossy t3
                        else REPLACEMENT ++ from_utf8_lossy t2
                    | [] => REPLACEMENT
                    end
                  else REPLACEMENT ++ from_utf8_lossy t1
              | [] => REPLACEMENT
              end
            else REPLACEMENT ++ from_utf8_lossy t
        | [] => REPLACEMENT
        end
      else REPLACEMENT ++ from_utf8_lossy t
  end.

(** Well-formed UTF-8 (the Unicode standard's table of well-formed byte
    sequences), stated independently of the decoder. *)
Inductive utf8_char : list Z -> Prop :=
| utf8_1 b : 0 <= b <= 127 -> utf8_char [b]
| utf8_2 b c : 194 <= b <= 223 -> 128 <= c <= 191 -> utf8_char [b; c]
| utf8_3_e0 c1 c2 : 160 <= c1 <= 191 -> 128 <= c2 <= 191 -> utf8_char [224; c1; c2]
| utf8_3 b c1 c2 : (225 <= b <= 236 \/ 238 <= b <= 239) ->
    128 <= c1 <= 191 -> 128 <= c2 <= 191 -> utf8_char [b; c1; c2]
| utf8_3_ed c1 c2 : 128 <= c1 <= 159 -> 128 <= c2 <= 191 -> utf8_char [237; c1; c2]
| utf8_4_f0 c1 c2 c3 : 144 <= c1 <= 191 -> 128 <= c2 <= 191 -> 128 <= c3 <= 191 ->
    utf8_char [240; c1; c2; c3]
| utf8_4 b c1 c2 c3 : 241 <= b <= 243 -> 128 <= c1 <= 191 -> 128 <= c2 <= 191 ->
    128 <= c3 <= 191 -> utf8_char [b; c1; c2; c3]
| utf8_4_f4 c1 c2 c3 : 128 <= c1 <= 143 -> 128 <= c2 <= 191 -> 128 <= c3 <= 191 ->
    utf8_char [244; c1; c2; c3].

Inductive valid_utf8 : list Z -> Prop :=
| valid_nil : valid_utf8 []
| valid_app c s : utf8_char c -> valid_utf8 s -> valid_utf8 (c ++ s).

(** ** The dump loader (src/src/bytecode_reader.rs) *)

Definition BC_HEAD1 : Z := 27.
Definition BC_HEAD2 : Z := 76.
Definition BC_HEAD3 : Z := 74.
Definition BC_VERSION : Z := 2.
Definition BC_F_BE : Z := 1.
Definition BC_F_STRIP : Z := 2.
Definition BC_F_FFI : Z := 4.
Definition BC_F_FR2 : Z := 8.
Definition BC_F_KNOWN : Z := BC_F_FR2 * 2 - 1.

Definition GC_TYPE_PROTO_CHILD : Z := 0.
Definition GC_TYPE_TABLE : Z := 1.
Definition GC_TYPE_I64 : Z := 2.
Definition GC_TYPE_U64 : Z := 3.
Definition GC_TYPE_COMPLEX : Z := 4.
Definition GC_TYPE_STR : Z := 5.

Definition TABLE_ENTRY_TYPE_NIL : Z := 0.
Definition TABLE_ENTRY_TYPE_FALSE : Z := 1.
Definition TABLE_ENTRY_TYPE_TRUE : Z := 2.
Definition TABLE_ENTRY_TYPE_INT : Z := 3.
Definition TABLE_ENTRY_TYPE_NUM : Z := 4.
Definition TABLE_ENTRY_TYPE_STR : Z := 5.

Module ConstTableVal.
Inductive t : Type :=
  | Nil | True | False | Int (_ : Z) | Num (_ _ : Z) | String (_ : list Z).
End ConstTableVal.

Record ConstTable := mkConstTable {
  array : list ConstTableVal.t;
  hash : list (ConstTableVal.t * ConstTableVal.t)
}.

Module GlobalConst.
Inductive t : Type :=
  | ProtoChild
  | Table (_ : ConstTable)
  | Num (_ _ : Z)
  | Complex (_ _ _ _ : Z)
  | Str (_ : list Z).
End GlobalConst.

Module NumConst.
Inductive t : Type := Int (_ : Z) | Num (_ _ : Z).
End NumConst.

Record ByteCodeProto := mkByteCodeProto {
  proto_flags : Z;
  num_params : Z;
  frame_size : Z;
  size_up_values : Z;
  size_global_consts : Z;
  size_num_consts : Z;
  size_bc : Z;
  flow_graph : CFG;
  bc_raw : list Z;
  up_values : list Z;
  global_consts : list GlobalConst.t;
  num_consts : list NumConst.t
}.

Record ByteCodeDump := mkByteCodeDump {
  magic : list Z;
  version : Z;
  flags : Z;
  name : string;
  prototypes : list ByteCodeProto
}.

Definition ByteCodeDump_new : ByteCodeDump := mkByteCodeDump [0; 0; 0] 0 0 "" [].

(** [for _ in 0..n { v.push(read(data)?) }] *)
Fixpoint read_repeat {A} (n : nat) (rd : stream -> Res (A * stream)) (s : stream)
    : Res (list A * stream) :=
  match n with
  | O => Ok ([], s)
  | S n' =>
      '(x, s1) ← rd s;
      '(xs, s2) ← read_repeat n' rd s1;
      Ok (x :: xs, s2)
  end.

(** [read_prototype_const_table_val] *)
Definition read_prototype_const_table_val (s : stream)
    : Res (ConstTableVal.t * stream) :=
  '(tp, s) ← read_uleb128 s;
  if decide (tp = TABLE_ENTRY_TYPE_NIL) then Ok (ConstTableVal.Nil, s)
  else if decide (tp = TABLE_ENTRY_TYPE_FALSE) then Ok (ConstTableVal.False, s)
  else if decide (tp = TABLE_ENTRY_TYPE_TRUE) then Ok (ConstTableVal.True, s)
  else if decide (tp = TABLE_ENTRY_TYPE_INT) then
    '(v, s) ← read_uleb128 s; Ok (ConstTableVal.Int v, s)
  else if decide (tp = TABLE_ENTRY_TYPE_NUM) then
    '(lo, s) ← read_uleb128 s; '(hi, s) ← read_uleb128 s;
    Ok (ConstTableVal.Num lo hi, s)
  else
    let len := tp - TABLE_ENTRY_TYPE_STR in
    '(str, s) ← read_exact (Z.to_nat len) s;
    Ok (ConstTableVal.String (from_utf8_lossy str), s).

Definition read_table_pair (s : stream)
    : Res ((ConstTableVal.t * ConstTableVal.t) * stream) :=
  '(k, s) ← read_prototype_const_table_val s;
  '(v, s) ← read_prototype_const_table_val s;
  Ok ((k, v), s).

(** [read_prototype_const_table]: the table it reads is pushed on the
    global constants. *)
Definition read_prototype_const_table (s : stream) (gcs : list GlobalConst.t)
    : Res (list GlobalConst.t * stream) :=
  '(n_array, s) ← read_uleb128 s;
  '(n_hash, s) ← read_uleb128 s;
  '(arr, s) ← read_repeat (Z.to_nat n_array) read_prototype_const_table_val s;
  '(hsh, s) ← read_repeat (Z.to_nat n_hash) read_table_pair s;
  Ok (gcs ++ [GlobalConst.Table (mkConstTable arr hsh)], s).

(** One turn of the loop of [read_prototype_global_constants]. *)
Definition read_global_constant (s : stream) (gcs : list GlobalConst.t)
    : Res (list GlobalConst.t * stream) :=
  '(tp, s) ← read_uleb128 s;
  if decide (tp = GC_TYPE_PROTO_CHILD) then Ok (gcs ++ [GlobalConst.ProtoChild], s)
  else if decide (tp = GC_TYPE_TABLE) then read_prototype_const_table s gcs
  else if decide (tp = GC_TYPE_I64 \/ tp = GC_TYPE_U64) then
    '(x, s) ← read_uleb128 s; '(y, s) ← read_uleb128 s;
    Ok (gcs ++ [GlobalConst.Num x y], s)
  else if decide (tp = GC_TYPE_COMPLEX) then
    '(x1, s) ← read_uleb128 s; '(x2, s) ← read_uleb128 s;
    '(x3, s) ← read_uleb128 s; '(x4, s) ← read_uleb128 s;
    Ok (gcs ++ [GlobalConst.Complex x1 x2 x3 x4], s)
  else
    let len := tp - GC_TYPE_STR in
    '(str, s) ← read_exact (Z.to_nat len) s;
    Ok (gcs ++ [GlobalConst.Str (from_utf8_lossy str)], s).

Fixpoint read_prototype_global_constants (n : nat) (s : stream)
    (gcs : list GlobalConst.t) : Res (list GlobalConst.t * stream) :=
  match n with
  | O => Ok (gcs, s)
  | S n' =>
      '(gcs, s) ← read_global_constant s gcs;
      read_prototype_global_constants n' s gcs
  end.

Definition read_num_constant (s : stream) : Res (NumConst.t * stream) :=
  '(lof, s) ← read_uleb128_33 s;
  let '(lo, first) := lof in
  if decide (Z.land first 1 = 1) then
    '(hi, s) ← read_uleb128 s; Ok (NumConst.Num lo hi, s)
  else Ok (NumConst.Int lo, s).

(** Little-endian words of [k] bytes ([read_u16_into], [read_u32_into]). *)
Fixpoint le_word (bs : list Z) : Z :=
  match bs with [] => 0 | b :: bs' => b + 256 * le_word bs' end.

Fixpoint le_words (k : nat) (fuel : nat) (bs : list Z) : list Z :=
  match fuel with
  | O => []
  | S f => match bs with
           | [] => []
           | _ => le_word (take k bs) :: le_words k f (drop k bs)
           end
  end.

Definition read_words_le (k : nat) (n : nat) (s : stream) : Res (list Z * stream) :=
  '(bs, s) ← read_exact (k * n) s;
  Ok (le_words k n bs, s).

(** [read_prototype]: the header bytes, the three sizes, then the
    instructions (and their CFG), the upvalues and the two constant pools. *)
Definition read_prototype (s : stream) : Res (ByteCodeProto * stream) :=
  '(arr, s) ← read_exact 4 s;
  let pflags := nth 0 arr 0 in
  let nparams := nth 1 arr 0 in
  let fsize := nth 2 arr 0 in
  let suv := nth 3 arr 0 in
  '(sgc, s) ← read_uleb128 s;
  '(snc, s) ← read_uleb128 s;
  '(sbc, s) ← read_uleb128 s;
  '(bc, s) ← (if decide (sbc > 0) then read_words_le 4 (Z.to_nat sbc) s
             else Ok ([], s));
  fg ← resolve_basic_blocks bc;
  '(uvs, s) ← (if decide (suv > 0) then read_words_le 2 (Z.to_nat suv) s
              else Ok ([], s));
  '(gcs, s) ← read_prototype_global_constants (Z.to_nat sgc) s [];
  '(ncs, s) ← read_repeat (Z.to_nat snc) read_num_constant s;
  Ok (mkByteCodeProto pflags nparams fsize suv sgc snc sbc fg bc uvs gcs ncs, s).

(** [read_header] *)
Definition read_header (s : stream) (d : ByteCodeDump)
    : Res (ByteCodeDump * stream) :=
  '(arr, s) ← read_exact 4 s;
  let a0 := nth 0 arr 0 in
  let a1 := nth 1 arr 0 in
  let a2 := nth 2 arr 0 in
  let a3 := nth 3 arr 0 in
  if decide (a0 <> BC_HEAD1 \/ a1 <> BC_HEAD2 \/ a2 <> BC_HEAD3) then
    Err (InvalidHeaderBytes "Invalid byte code file magic.")
  else if decide (a3 <> BC_VERSION) then
    Err (InvalidHeaderBytes "Invalid byte code version.")
  else
    '(fl, s) ← read_uleb128 s;
    (* [flags & !BC_F_KNOWN != 0 || flags & BC_F_FFI == 1]: in Rust [&]
       binds tighter than [==] *)
    if decide (Z.land fl (Z.lxor BC_F_KNOWN mask32) <> 0
               \/ Z.land fl BC_F_FFI = 1) then
      Err (InvalidHeaderBytes "Invalid header flags.")
    else Ok (mkByteCodeDump [a0; a1; a2] a3 fl (name d) (prototypes d), s).

(** The [loop] of [read_bytecode_dump]: a prototype length that reads [Ok]
    is handled, any error of [read_uleb128] ends the loop. Every turn reads
    at least one byte. *)
Fixpoint read_prototypes (fuel : nat) (d : ByteCodeDump) (s : stream)
    : Res ByteCodeDump :=
  match fuel with
  | O => Diverge
  | S fuel' =>
      match read_uleb128 s with
      | Ok (proto_len, s1) =>
          if decide (proto_len = 0) then read_prototypes fuel' d s1
          else
            '(proto_data, s2) ← read_exact (Z.to_nat proto_len) s1;
            '(proto, _) ← read_prototype proto_data;
            read_prototypes fuel'
              (mkByteCodeDump (magic d) (version d) (flags d) (name d)
                              (prototypes d ++ [proto])) s2
      | Err _ => Ok d
      | Panic => Panic
      | Diverge => Diverge
      end
  end.

Definition read_bytecode_dump (s : stream) : Res ByteCodeDump :=
  '(d, s) ← read_header s ByteCodeDump_new;
  read_prototypes (S (length s)) d s.

(** ** The lifter (src/src/ir.rs, src/src/lifting.rs) *)

Module Expr.
Inductive t : Type :=
  | Var (_ : Z)
  | Cdata (_ : Z) | Str (_ : list Z) | Num (_ : Z) | Lit (_ : Z)
  | Short (_ : Z) | Uv (_ : Z) | Bool (_ : bool) | Nil
  | Lt (_ _ : t) | Ge (_ _ : t) | Le (_ _ : t) | Gt (_ _ : t)
  | Eq (_ _ : t) | Ne (_ _ : t)
  | Not (_ : t) | Len (_ : t) | Minus (_ : t)
  | Add (_ _ : t) | Sub (_ _ : t) | Mul (_ _ : t) | Div (_ _ : t)
  | Mod (_ _ : t) | Pow (_ _ : t)
  | Closure (_ : Z)
  | GlobalTable
  | Table (_ _ : t).
End Expr.

(** An [ir::Var] is its slot number. *)
Module Insn.
Inductive t : Type :=
  | SetVars (_ : list Z) (_ : Expr.t)
  | SetGlobalTableVar (_ _ : Expr.t)
  | SetTableVar (_ : Z) (_ _ : Expr.t)
  | Call (_ : list Z) (_ : list Expr.t)
  | TailCall (_ : list Expr.t)
  | Cat (_ : Z) (_ : list Expr.t)
  | If (_ : Expr.t)
  | For (_ : list Expr.t)
  | While (_ : Expr.t)
  | Repeat (_ : Expr.t)
  | Return (_ : list Expr.t).
End Insn.

(** [VarInfo]; its [name] is [format!("slot_{}", index)], kept as the
    index. *)
Record VarInfo := mkVarInfo {
  var_name_index : Z;
  var_table : bool;
  var_up_value : bool;
  usage_cnt : Z
}.

Record Lifter := mkLifter {
  slots : gmap Z VarInfo;
  multres : Z
}.

Definition Lifter_new : Lifter := mkLifter ∅ 0.

(** [var_for_slot]; [usage_cnt] is a [u16], [+= 1] overflows at 65535. *)
Definition var_for_slot (l : Lifter) (index : Z) (table up_value : bool)
    : Res (Z * Lifter) :=
  match slots l !! index with
  | Some vi =>
      if decide (usage_cnt vi + 1 > 65535) then Panic
      else Ok (index, mkLifter (<[index := mkVarInfo (var_name_index vi)
                   (var_table vi) (var_up_value vi) (usage_cnt vi + 1)]> (slots l))
                   (multres l))
  | None =>
      Ok (index, mkLifter (<[index := mkVarInfo index table up_value 0]> (slots l))
                   (multres l))
  end.

(** [for idx in lo..lo+n { returns.push(self.var_for_slot(idx, false, false)) }] *)
Fixpoint push_slots (n : nat) (idx : Z) (l : Lifter) (returns : list Z)
    : Res (list Z * Lifter) :=
  match n with
  | O => Ok (returns, l)
  | S n' =>
      '(v, l) ← var_for_slot l idx false false;
      push_slots n' (idx + 1) l (returns ++ [v])
  end.

(** [for idx in (a+1)..=(a+c-1) { args.push(..); if b == 0 { returns.push(..) } }] *)
Fixpoint call_args (n : nat) (idx b : Z) (l : Lifter) (returns : list Z)
    (args : list Expr.t) : Res ((list Z * list Expr.t) * Lifter) :=
  match n with
  | O => Ok ((returns, args), l)
  | S n' =>
      let args := args ++ [Expr.Var idx] in
      if decide (b = 0) then
        '(v, l) ← var_for_slot l idx false false;
        call_args n' (idx + 1) b l (returns ++ [v]) args
      else call_args n' (idx + 1) b l returns args
  end.

(** The [Op::CALL(a, b, c)] arm of [Lifter::analyze_bc_proto]: the
    statement it pushes and the lifter state after it.  [a] is a [u16]
    below 256 and [b], [c] are [u8], so the [u16] sums do not overflow. *)
Definition analyze_call (l : Lifter) (a b c : Z) : Res (Insn.t * Lifter) :=
  '(returns, l) ← (if decide (b <> 0)
                   then push_slots (Z.to_nat (a + b - 1 - a)) a l []
                   else Ok ([], l));
  let args := [Expr.Var a] in
  '(ra, l) ← (if decide (c > 1) then
                let l := if decide (b = 0) then mkLifter (slots l) (c - 1) else l in
                call_args (Z.to_nat (a + c - 1 - a)) (a + 1) b l returns args
              else Ok ((returns, args), l));
  let '(returns, args) := ra in
  Ok (Insn.Call returns args, l).

(** ** Properties used to state the specification *)

(** The node ranges [[k, k + length block)] of a CFG do not overlap. *)
Definition blocks_disjoint (g : CFG) : Prop :=
  forall k b k' b', node_weight g k = Some b -> node_weight g k' = Some b' -> k <> k' ->
    k + Z.of_nat (length b) <= k' \/ k' + Z.of_nat (length b') <= k.

(** The outgoing list that starts at [cur], following [next_outgoing_edge];
    [None] when it leaves the edge vector or is longer than [fuel]. *)
Fixpoint out_chain {E} (fuel : nat) (es : list (Edge E)) (cur : option nat)
    : option (list nat) :=
  match cur with
  | None => Some []
  | Some i =>
      match fuel with
      | O => None
      | S f => e ← es !! i; l ← out_chain f es (edge_next_outgoing e); Some (i :: l)
      end
  end.

(** Every edge leaves an existing node, and the outgoing list of every node
    is finite and holds exactly the edges whose source is that node. *)
Definition out_lists_wf {N E} (g : Graph N E) : Prop :=
  (forall i e, edges g !! i = Some e -> is_Some (nodes g !! from e)) /\
  forall k nd, nodes g !! k = Some nd ->
  exists l, out_chain (length (edges g)) (edges g) (next_outgoing_edge nd) = Some l /\
            forall i, i ∈ l <-> exists e, edges g !! i = Some e /\ from e = k.

(** The edge vector with the source of the edges listed in [l] replaced. *)
Definition relabel {E} (es : list (Edge E)) (l : list nat) (new_index : Z) : list (Edge E) :=
  imap (fun i e => if bool_decide (i ∈ l) then set_from e new_index else e) es.

(** A one-block CFG at offset 0 with a [Loop] edge from the block to itself. *)
Definition self_loop_graph : CFG :=
  match add_edge (add_node graph_new 0 [1; 2]).2 BranchKind.Loop 0 0 with
  | Ok (_, g) => g
  | _ => graph_new
  end.

(** ** Edge lists, depth-first post order, dominators
    (src/src/graph/graph_impl.rs, src/src/graph/visit.rs, src/src/graph/algo.rs) *)

Section GraphIter.
Context {N E : Type}.
Implicit Types g : Graph N E.

(** The [Outputs] / [Inputs] iterators run to their end: each turn yields
    [idx] and moves to [edges[idx as usize]]'s next link ([sel]), which
    panics out of range.  A cyclic list never ends; the fuel turns that
    into [Diverge]. *)
Fixpoint collect_edges (sel : Edge E -> option nat) (fuel : nat)
    (es : list (Edge E)) (cur : option nat) : Res (list nat) :=
  match cur with
  | None => Ok []
  | Some idx =>
      match fuel with
      | O => Diverge
      | S fuel' =>
          ed ← unwrap (es !! idx);
          l ← collect_edges sel fuel' es (sel ed);
          Ok (idx :: l)
      end
  end.

(** [outputs(node_idx)] iterated: [self.node(node_idx).unwrap()]. *)
Definition outputs g (node_idx : Z) : Res (list nat) :=
  nd ← unwrap (nodes g !! node_idx);
  collect_edges edge_next_outgoing (S (length (edges g))) (edges g)
    (next_outgoing_edge nd).

Definition inputs g (node_idx : Z) : Res (list nat) :=
  nd ← unwrap (nodes g !! node_idx);
  collect_edges edge_next_incoming (S (length (edges g))) (edges g)
    (next_incoming_edge nd).

(** [edge_to]: [self.edges.get(index as usize).unwrap().to] *)
Definition edge_to g (index : nat) : Res Z :=
  ed ← unwrap (edges g !! index);
  Ok (to ed).

End GraphIter.

(** [DfsPostOrder]: the stack is a [Vec] whose top is its last element. *)
Record DfsPostOrder := mkDfsPostOrder {
  stack : list Z;
  discovered : gset Z;
  finished : gset Z
}.

(** [DfsPostOrder::new(graph, start)] = [move_to(start)] on empty sets. *)
Definition DfsPostOrder_new (start : Z) : DfsPostOrder :=
  mkDfsPostOrder [start] ∅ ∅.

Section Dfs.
Context {N E : Type}.
Implicit Types g : Graph N E.

(** [for edge in graph.outputs(nx) { let node_id = graph.edge_to(edge);
      if !self.discovered.contains(&node_id) { self.stack.push(node_id) } }]
    over the collected edge list. *)
Fixpoint push_successors g (disc : gset Z) (es : list nat) (stk : list Z)
    : Res (list Z) :=
  match es with
  | [] => Ok stk
  | edge :: es' =>
      node_id ← edge_to g edge;
      push_successors g disc es'
        (if bool_decide (node_id ∈ disc) then stk else stk ++ [node_id])
  end.

(** [DfsPostOrder::next]; [fuel] bounds the turns of its [while let] loop. *)
Fixpoint dfs_next (fuel : nat) g (st : DfsPostOrder)
    : Res (option Z * DfsPostOrder) :=
  match fuel with
  | O => Diverge
  | S fuel' =>
      match last (stack st) with
      | None => Ok (None, st)
      | Some nx =>
          if bool_decide (nx ∈ discovered st) then
            (* [self.stack.pop(); if self.finished.insert(nx) { return Some(nx) }] *)
            let stk := removelast (stack st) in
            if bool_decide (nx ∈ finished st) then
              dfs_next fuel' g (mkDfsPostOrder stk (discovered st) (finished st))
            else
              Ok (Some nx, mkDfsPostOrder stk (discovered st) ({[nx]} ∪ finished st))
          else
            let disc := {[nx]} ∪ discovered st in
            es ← outputs g nx;
            stk ← push_successors g disc es (stack st);
            dfs_next fuel' g (mkDfsPostOrder stk disc (finished st))
      end
  end.

(** The first loop of [dominator_tree]:
    [while let Some(node_idx) = dfs.next(&graph) { post_order.push(node_idx);
       for edge in graph.outputs(node_idx) { predecessor_sets.entry(
         graph.edge_to(edge)).or_insert_with(HashSet::new).insert(node_idx); } }];
    [fuel] bounds both its turns and those of each [next]. *)
Fixpoint add_predecessors g (node_idx : Z) (es : list nat)
    (preds : gmap Z (gset Z)) : Res (gmap Z (gset Z)) :=
  match es with
  | [] => Ok preds
  | edge :: es' =>
      successor ← edge_to g edge;
      add_predecessors g node_idx es'
        (<[successor := {[node_idx]} ∪ default ∅ (preds !! successor)]> preds)
  end.

Fixpoint post_order_loop (fuel : nat) g (dfs : DfsPostOrder) (post_order : list Z)
    (preds : gmap Z (gset Z)) : Res (list Z * gmap Z (gset Z)) :=
  match fuel with
  | O => Diverge
  | S fuel' =>
      '(o, dfs) ← dfs_next fuel g dfs;
      match o with
      | None => Ok (post_order, preds)
      | Some node_idx =>
          es ← outputs g node_idx;
          preds ← add_predecessors g node_idx es preds;
          post_order_loop fuel' g dfs (post_order ++ [node_idx]) preds
      end
  end.

Definition dominator_post_order (fuel : nat) g (root : Z)
    : Res (list Z * gmap Z (gset Z)) :=
  post_order_loop fuel g (DfsPostOrder_new root) [] ∅.

(** Invariants of a [DfsPostOrder] walk: discovered nodes exist and
    finished nodes were discovered; the start node stays at the bottom of
    the stack until it is finished. *)
Definition dfs_sets_ok g (st : DfsPostOrder) : Prop :=
  (forall y, y ∈ discovered st -> is_Some (nodes g !! y)) /\ (finished st ⊆ discovered st).

Definition dfs_root_below (start : Z) (st : DfsPostOrder) : Prop :=
  (start ∉ finished st) /\
  exists r, stack st = start :: r /\ (start ∉ r) /\ (r = [] \/ start ∈ discovered st).

End Dfs.

(** [intersect(dominators, finger1, finger2)]; [dominators[i]] panics out of
    range, and [fuel] bounds the turns of the [loop]. *)
Fixpoint intersect (fuel : nat) (dominators : list nat) (finger1 finger2 : nat)
    : Res nat :=
  match fuel with
  | O => Diverge
  | S fuel' =>
      match Nat.compare finger1 finger2 with
      | Lt => d ← unwrap (dominators !! finger1); intersect fuel' dominators d finger2
      | Gt => d ← unwrap (dominators !! finger2); intersect fuel' dominators finger1 d
      | Eq => Ok finger1
      end
  end.

(** [y] is reached from [x] by following [dominators]. *)
Inductive on_dom_chain (dominators : list nat) : nat -> nat -> Prop :=
  | chain_refl x : on_dom_chain dominators x x
  | chain_step x d y : dominators !! x = Some d -> on_dom_chain dominators d y ->
      on_dom_chain dominators x y.

(** ** The other arms of [Lifter::analyze_bc_proto] (src/src/lifting.rs) *)

(** [a + b] on [u16] panics on overflow, [a - b] on underflow. *)
Definition add_u16 (a b : Z) : Res Z := if decide (a + b > 65535) then Panic else Ok (a + b).
Definition sub_u16 (a b : Z) : Res Z := if decide (a - b < 0) then Panic else Ok (a - b).

(** [Expr::primitive] *)
Definition expr_primitive (p : Pri.t) : Expr.t :=
  match p with Pri.Nil => Expr.Nil | Pri.True => Expr.Bool true | Pri.False => Expr.Bool false end.

(** [for idx in lo..lo+n { exprs.push(Expr::Var(Var(idx))) }] *)
Definition var_exprs (lo n : Z) : list Expr.t := Expr.Var <$> seqZ lo n.

Section Analyze.
(** [ByteCodeProto::str_from_global_table] is not part of the sources; the
    arms are modelled for any such lookup. *)
Variable str_from_global_table : Z -> option (list Z).

Definition set_var (l : Lifter) (a : Z) (table up_value : bool) (e : Expr.t)
    : Res (list Insn.t * Lifter) :=
  '(var, l) ← var_for_slot l a table up_value;
  Ok ([Insn.SetVars [var] e], l).

(** One turn of the [while let Some(&raw_ins) = iter.next()] loop, after
    [disasm]: the statements pushed on the block and the lifter after it. *)
Definition analyze_op (l : Lifter) (op : Op) : Res (list Insn.t * Lifter) :=
  match op with
  | ISLT a b => Ok ([Insn.If (Expr.Lt (Expr.Var a) (Expr.Var b))], l)
  | ISGE a b => Ok ([Insn.If (Expr.Ge (Expr.Var a) (Expr.Var b))], l)
  | ISLE a b => Ok ([Insn.If (Expr.Le (Expr.Var a) (Expr.Var b))], l)
  | ISGT a b => Ok ([Insn.If (Expr.Gt (Expr.Var a) (Expr.Var b))], l)
  | ISEQV a b => Ok ([Insn.If (Expr.Eq (Expr.Var a) (Expr.Var b))], l)
  | ISNEV a b => Ok ([Insn.If (Expr.Ne (Expr.Var a) (Expr.Var b))], l)
  | ISEQS a b =>
      str ← unwrap (str_from_global_table b);
      Ok ([Insn.If (Expr.Eq (Expr.Var a) (Expr.Str str))], l)
  | ISNES a b =>
      str ← unwrap (str_from_global_table b);
      Ok ([Insn.If (Expr.Ne (Expr.Var a) (Expr.Str str))], l)
  | ISEQN a b => Ok ([Insn.If (Expr.Eq (Expr.Var a) (Expr.Num b))], l)
  | ISNEN a b => Ok ([Insn.If (Expr.Ne (Expr.Var a) (Expr.Num b))], l)
  | ISEQP a b => Ok ([Insn.If (Expr.Eq (Expr.Var a) (expr_primitive b))], l)
  | ISNEP a b => Ok ([Insn.If (Expr.Ne (Expr.Var a) (expr_primitive b))], l)
  | ISTC a b =>
      '(var, l) ← var_for_slot l a false false;
      Ok ([Insn.SetVars [var] (Expr.Var b); Insn.If (Expr.Var b)], l)
  | ISFC a b =>
      '(var, l) ← var_for_slot l a false false;
      Ok ([Insn.SetVars [var] (Expr.Var b); Insn.If (Expr.Not (Expr.Var b))], l)
  | IST a => Ok ([Insn.If (Expr.Var a)], l)
  | ISF a => Ok ([Insn.If (Expr.Not (Expr.Var a))], l)
  | ISTYPE _ _ => Panic
  | ISNUM _ _ => Panic
  | MOV a b => set_var l a false false (Expr.Var b)
  | NOT a b => set_var l a false false (Expr.Not (Expr.Var b))
  | UNM a b => set_var l a false false (Expr.Minus (Expr.Var b))
  | LEN a b => set_var l a false false (Expr.Len (Expr.Var b))
  | ADDVN a b c => set_var l a false false (Expr.Add (Expr.Var b) (Expr.Num c))
  | SUBVN a b c => set_var l a false false (Expr.Sub (Expr.Var b) (Expr.Num c))
  | MULVN a b c => set_var l a false false (Expr.Mul (Expr.Var b) (Expr.Num c))
  | DIVVN a b c => set_var l a false false (Expr.Div (Expr.Var b) (Expr.Num c))
  | MODVN a b c => set_var l a false false (Expr.Mod (Expr.Var b) (Expr.Num c))
  | ADDNV a b c => set_var l a false false (Expr.Add (Expr.Num c) (Expr.Var b))
  | SUBNV a b c => set_var l a false false (Expr.Sub (Expr.Num c) (Expr.Var b))
  | MULNV a b c => set_var l a false false (Expr.Mul (Expr.Num c) (Expr.Var b))
  | DIVNV a b c => set_var l a false false (Expr.Div (Expr.Num c) (Expr.Var b))
  | MODNV a b c => set_var l a false false (Expr.Mod (Expr.Num c) (Expr.Var b))
  | ADDVV a b c => set_var l a false false (Expr.Add (Expr.Var b) (Expr.Var c))
  | SUBVV a b c => set_var l a false false (Expr.Sub (Expr.Var b) (Expr.Var c))
  | MULVV a b c => set_var l a false false (Expr.Mul (Expr.Var b) (Expr.Var c))
  | DIVVV a b c => set_var l a false false (Expr.Div (Expr.Var b) (Expr.Var c))
  | MODVV a b c => set_var l a false false (Expr.Mod (Expr.Var b) (Expr.Var c))
  | POW a b c => set_var l a false false (Expr.Pow (Expr.Var b) (Expr.Var c))
  | CAT a b c =>
      if decide (c > b) then
        '(var, l) ← var_for_slot l a false false;
        Ok ([Insn.Cat var (var_exprs b (c - b + 1))], l)
      else Panic
  | KSTR a b =>
      str ← unwrap (str_from_global_table b);
      set_var l a false false (Expr.Str str)
  | KCDATA a b => set_var l a false false (Expr.Cdata b)
  | KSHORT a b => set_var l a false false (Expr.Short b)
  | KNUM a b => set_var l a false false (Expr.Num b)
  | KPRI a b => set_var l a false false (expr_primitive b)
  | KNIL a b =>
      if decide (b > a) then
        '(vars, l) ← push_slots (Z.to_nat (b - a + 1)) a l [];
        Ok ([Insn.SetVars vars Expr.Nil], l)
      else Panic
  | UGET a b => set_var l a false false (Expr.Uv b)
  | USETV a b => set_var l a false true (Expr.Var b)
  | USETS a b =>
      '(var, l) ← var_for_slot l a false true;
      str ← unwrap (str_from_global_table b);
      Ok ([Insn.SetVars [var] (Expr.Str str)], l)
  | USETN a b => set_var l a false true (Expr.Num b)
  | USETP a b => set_var l a false true (expr_primitive b)
  | UCLO _ _ => Ok ([], l)
  | FNEW a b => set_var l a false false (Expr.Closure b)
  | TNEW _ _ => Ok ([], l)
  | TDUP a b => set_var l a false false (Expr.Var b)
  | GGET a b =>
      str ← unwrap (str_from_global_table b);
      set_var l a false false (Expr.Table Expr.GlobalTable (Expr.Str str))
  | GSET a b =>
      str ← unwrap (str_from_global_table b);
      Ok ([Insn.SetGlobalTableVar (Expr.Str str) (Expr.Var a)], l)
  | TGETV a b c => set_var l a false false (Expr.Table (Expr.Var b) (Expr.Var c))
  | TGETS a b c =>
      str ← unwrap (str_from_global_table c);
      set_var l a false false (Expr.Table (Expr.Var b) (Expr.Str str))
  | TGETB a b c => set_var l a false false (Expr.Table (Expr.Var b) (Expr.Lit c))
  | TGETR _ _ _ => Panic
  | TSETV a b c =>
      '(var, l) ← var_for_slot l b true false;
      Ok ([Insn.SetTableVar var (Expr.Var c) (Expr.Var a)], l)
  | TSETS a b c =>
      '(var, l) ← var_for_slot l b true false;
      str ← unwrap (str_from_global_table c);
      Ok ([Insn.SetTableVar var (Expr.Str str) (Expr.Var a)], l)
  | TSETB a b c =>
      '(var, l) ← var_for_slot l b true false;
      Ok ([Insn.SetTableVar var (Expr.Lit c) (Expr.Var a)], l)
  | TSETM _ _ => Ok ([], l)
  | TSETR _ _ _ => Panic
  | CALLM a b c =>
      '(returns, l) ← (if decide (b <> 0)
                       then push_slots (Z.to_nat (a + b - 1 - a)) a l []
                       else Ok ([], l));
      n ← add_u16 c (multres l);
      args ← (if decide (n > 0) then
                hi ← add_u16 (a + b) (multres l);
                Ok (var_exprs a (hi - a))
              else Ok []);
      Ok ([Insn.Call returns args], l)
  | CALL a b c =>
      '(insn, l) ← analyze_call l a b c;
      Ok ([insn], l)
  | CALLMT _ _ => Ok ([], l)
  | CALLT a b => Ok ([Insn.TailCall (var_exprs a b)], l)
  | ITERC _ _ _ | ITERN _ _ _ | VARG _ _ _ | ISNEXT _ _ => Ok ([], l)
  | RETM a b =>
      _ ← sub_u16 (a + b) 2;
      hi ← sub_u16 b 1;
      Ok ([Insn.Return (var_exprs a (hi - a + 1))], l)
  | RET a b =>
      _ ← sub_u16 (a + b) 2;
      hi ← sub_u16 b 2;
      Ok ([Insn.Return (var_exprs a (hi - a + 1))], l)
  | RET0 _ _ => Ok ([Insn.Return []], l)
  | RET1 a _ => Ok ([Insn.Return [Expr.Var a]], l)
  | FORI a _ => Ok ([Insn.For (var_exprs a 3)], l)
  | JFORI _ _ | FORL _ _ | IFORL _ _ | JFORL _ _ | ITERL _ _ | IITERL _ _
  | JITERL _ _ => Ok ([], l)
  | LOOP a _ => Ok ([Insn.While (Expr.Var a)], l)
  | ILOOP _ _ | JLOOP _ _ | JMP _ _ => Ok ([], l)
  | FUNCF _ | IFUNCF _ | JFUNCF _ _ | FUNCV _ | IFUNCV _ | JFUNCV _ _
  | FUNCC _ | FUNCCW _ => Ok ([], l)
  end.

(** The [while let Some(&raw_ins) = iter.next()] loop over one block:
    [disasm(raw_ins)?], then the arm; the statements are pushed in order. *)
Fixpoint analyze_block (l : Lifter) (data : list Z) (insns : list Insn.t)
    : Res (list Insn.t * Lifter) :=
  match data with
  | [] => Ok (insns, l)
  | raw_ins :: data' =>
      op ← disasm raw_ins;
      '(new, l) ← analyze_op l op;
      analyze_block l data' (insns ++ new)
  end.

End Analyze.

(** ** Invariants of the resolved CFG *)

(** Every block is the slice [bc_raw[k..k + length b]] at its key [k]. *)
Definition blocks_in_bc (bc : list Z) (g : CFG) : Prop :=
  forall k b, node_weight g k = Some b ->
    0 <= k /\ k + Z.of_nat (length b) <= Z.of_nat (length bc) /\
    b = take (length b) (drop (Z.to_nat k) bc).

(** Both ends of every edge are nodes. *)
Definition edges_join_nodes {N E} (g : Graph N E) : Prop :=
  forall e, e ∈ edges g -> exists_node g (from e) = true /\ exists_node g (to e) = true.

(** ** Facts used by the lifter and reader invariants *)

(** Slots recorded in [l] are still in [l'], with the same name and flags
    and a usage count that did not go down. *)
Definition slots_kept (l l' : Lifter) : Prop :=
  forall i vi, slots l !! i = Some vi -> exists vi', slots l' !! i = Some vi' /\
    var_name_index vi' = var_name_index vi /\ var_table vi' = var_table vi /\
    var_up_value vi' = var_up_value vi /\ usage_cnt vi <= usage_cnt vi'.

(** The slot at [i] is named after [i] ([format!("slot_{}", index)]). *)
Definition slot_names_ok (l : Lifter) : Prop :=
  forall i vi, slots l !! i = Some vi -> var_name_index vi = i.

Definition lifter_step (l l' : Lifter) : Prop :=
  slots_kept l l' /\ (slot_names_ok l -> slot_names_ok l').

(** The encoding [read_uleb128_33] reads: the low bit of the first byte
    is the [isnum] flag, then six bits, then seven bits per byte. *)
Definition encode_uleb128_33 (n : Z) (isnum : bool) : list Z :=
  let b := (n mod 64) * 2 + (if isnum then 1 else 0) in
  if decide (n < 64) then [b] else (b + 128) :: encode_uleb128_aux 4 (n / 64).

(** A two-node graph: blocks [[1]] at 0 and [[2]] at 1, no edges. *)
Definition two_nodes : CFG := (add_node (add_node graph_new 0 [1]).2 1 [2]).2.


(** * Proofs *)

(** ** Monad and graph lemmas *)

Lemma bind_Ok_inv {A B} (m : Res A) (f : A -> Res B) (r : B) :
  (m ≫= f) = Ok r -> exists x, m = Ok x /\ f x = Ok r.
Proof. destruct m; simpl; try discriminate. eauto. Qed.

Lemma unwrap_Ok {A} (o : option A) (x : A) : unwrap o = Ok x -> o = Some x.
Proof. destruct o; simpl; congruence. Qed.

Lemma max_opt_spec (l : list Z) (m : Z) :
  max_opt l = Some m -> m ∈ l /\ forall x, x ∈ l -> x <= m.
Proof.
  revert m. induction l as [|a l IH]; intros m; simpl; [discriminate|].
  destruct (max_opt l) as [m'|] eqn:E.
  - intros [= <-]. destruct (IH m' eq_refl) as [Hin Hle].
    split.
    + destruct (Z.max_spec a m') as [[_ ->]|[_ ->]]; [right; exact Hin|left].
    + intros x Hx. apply elem_of_cons in Hx as [->|Hx]; [lia|]. specialize (Hle x Hx); lia.
  - intros [= <-]. split; [left|].
    intros x Hx. apply elem_of_cons in Hx as [->|Hx]; [lia|].
    destruct l; [inversion Hx|]. simpl in E. destruct (max_opt l); discriminate.
Qed.

Lemma max_opt_None (l : list Z) : max_opt l = None -> l = [].
Proof. destruct l; simpl; [auto|]. destruct (max_opt l); discriminate. Qed.

Lemma min_opt_spec (l : list Z) (m : Z) :
  min_opt l = Some m -> m ∈ l /\ forall x, x ∈ l -> m <= x.
Proof.
  revert m. induction l as [|a l IH]; intros m; simpl; [discriminate|].
  destruct (min_opt l) as [m'|] eqn:E.
  - intros [= <-]. destruct (IH m' eq_refl) as [Hin Hle].
    split.
    + destruct (Z.min_spec a m') as [[_ ->]|[_ ->]]; [left|right; exact Hin].
    + intros x Hx. apply elem_of_cons in Hx as [->|Hx]; [lia|]. specialize (Hle x Hx); lia.
  - intros [= <-]. split; [left|].
    intros x Hx. apply elem_of_cons in Hx as [->|Hx]; [lia|].
    destruct l; [inversion Hx|]. simpl in E. destruct (min_opt l); discriminate.
Qed.

Lemma min_opt_None (l : list Z) : min_opt l = None -> l = [].
Proof. destruct l; simpl; [auto|]. destruct (min_opt l); discriminate. Qed.

Section GraphFacts.
Context {N E : Type}.
Implicit Types g : Graph N E.

Lemma elem_of_node_keys g k : k ∈ node_keys g <-> is_Some (nodes g !! k).
Proof.
  unfold node_keys. rewrite list_elem_of_fmap. split.
  - intros [[k' nd] [-> Hin]]. apply elem_of_map_to_list in Hin. simpl. eauto.
  - intros [nd Hnd]. exists (k, nd). split; [reflexivity|].
    apply elem_of_map_to_list. exact Hnd.
Qed.

Lemma try_prev_node_Some g idx p :
  try_prev_node g idx = Some p ->
  is_Some (nodes g !! p) /\ p <= idx /\
  forall k, is_Some (nodes g !! k) -> k <= idx -> k <= p.
Proof.
  unfold try_prev_node. intros H. apply max_opt_spec in H as [Hin Hmax].
  apply list_elem_of_filter in Hin as [Hle Hin]. apply elem_of_node_keys in Hin.
  repeat split; auto. intros k Hk Hki. apply Hmax.
  apply list_elem_of_filter. split; [exact Hki|]. apply elem_of_node_keys. exact Hk.
Qed.

Lemma try_prev_node_None g idx :
  try_prev_node g idx = None -> forall k, is_Some (nodes g !! k) -> idx < k.
Proof.
  unfold try_prev_node. intros H k Hk. apply max_opt_None in H.
  destruct (Z.lt_ge_cases idx k) as [|Hle]; [assumption|]. exfalso.
  assert (Hin : k ∈ filter (fun k => k <= idx) (node_keys g)).
  { apply list_elem_of_filter. split; [lia|]. apply elem_of_node_keys. exact Hk. }
  rewrite H in Hin. inversion Hin.
Qed.

Lemma try_next_node_spec g idx k :
  is_Some (nodes g !! k) -> idx <= k ->
  exists n, try_next_node g idx = Some n /\ n <= k.
Proof.
  intros Hk Hle. unfold try_next_node.
  assert (Hin : k ∈ filter (fun k => idx <= k) (node_keys g)).
  { apply list_elem_of_filter. split; [lia|]. apply elem_of_node_keys. exact Hk. }
  destruct (min_opt (filter (fun k => idx <= k) (node_keys g))) as [n|] eqn:Hm.
  - exists n. split; [reflexivity|]. apply min_opt_spec in Hm as [_ Hmin]. auto.
  - apply min_opt_None in Hm. rewrite Hm in Hin. inversion Hin.
Qed.

Lemma node_weight_Some g k w :
  node_weight g k = Some w -> exists nd, nodes g !! k = Some nd /\ weight nd = w.
Proof.
  unfold node_weight. destruct (nodes g !! k) as [nd|]; simpl; [|discriminate].
  intros [= <-]. eauto.
Qed.

Lemma node_weight_add_node g index w k :
  node_weight (add_node g index w).2 k =
  if decide (index = k) then Some w else node_weight g k.
Proof.
  unfold node_weight, add_node. simpl. rewrite lookup_insert.
  destruct (decide (index = k)); reflexivity.
Qed.

Lemma add_edge_nodes g w fr t i g' :
  add_edge g w fr t = Ok (i, g') ->
  (forall k, node_weight g' k = node_weight g k) /\
  (forall k, is_Some (nodes g' !! k) <-> is_Some (nodes g !! k)).
Proof.
  unfold add_edge. intros H.
  apply bind_Ok_inv in H as [fn [Hf H]]. apply unwrap_Ok in Hf.
  apply bind_Ok_inv in H as [tn [Ht H]]. apply unwrap_Ok in Ht.
  injection H as <- <-. unfold node_weight. simpl.
  split; intros k.
  - rewrite !lookup_insert. rewrite lookup_insert in Ht.
    destruct (decide (t = k)) as [<-|]; destruct (decide (fr = t)) as [<-|];
      simpl in *.
    + injection Ht as <-. simpl. rewrite Hf. reflexivity.
    + rewrite Ht. reflexivity.
    + destruct (decide (fr = k)) as [<-|]; [rewrite Hf|]; reflexivity.
    + destruct (decide (fr = k)) as [<-|]; [rewrite Hf|]; reflexivity.
  - rewrite !lookup_insert. rewrite lookup_insert in Ht.
    destruct (decide (t = k)) as [<-|].
    + split; intros _; [|eauto]. destruct (decide (fr = t)) as [<-|]; eauto.
    + destruct (decide (fr = k)) as [<-|]; split; eauto.
Qed.

End GraphFacts.

(** ** ULEB128 *)

Lemma lor_low_high (r x s : Z) :
  0 <= s -> 0 <= r < 2 ^ s -> 0 <= x -> Z.lor r (x * 2 ^ s) = r + x * 2 ^ s.
Proof.
  intros Hs Hr Hx.
  assert (Hl : Z.land r (x * 2 ^ s) = 0).
  { apply Z.bits_inj'; intros i Hi. rewrite Z.land_spec, Z.bits_0.
    rewrite <- Z.shiftl_mul_pow2 by lia.
    destruct (Z.lt_ge_cases i s).
    - rewrite Z.shiftl_spec_low by lia. apply andb_false_r.
    - rewrite <- (Z.mod_small r (2 ^ s)) by lia.
      rewrite Z.mod_pow2_bits_high by lia. reflexivity. }
  rewrite <- Z.lxor_lor by exact Hl. rewrite Z.add_nocarry_lxor by exact Hl.
  reflexivity.
Qed.

Lemma mask32_mod (y : Z) : Z.land y mask32 = y mod 2 ^ 32.
Proof. change mask32 with (Z.ones 32). apply Z.land_ones. lia. Qed.

Lemma shl32_mul (x s : Z) :
  0 <= s -> 0 <= x -> x * 2 ^ s < 2 ^ 32 -> shl32 x s = x * 2 ^ s.
Proof.
  intros. unfold shl32. rewrite mask32_mod, Z.shiftl_mul_pow2 by lia.
  apply Z.mod_small. nia.
Qed.

Lemma land127 (y : Z) : Z.land y 127 = y mod 128.
Proof. change 127 with (Z.ones 7). rewrite Z.land_ones by lia. reflexivity. Qed.

Lemma land128_zero (y : Z) : 0 <= y < 256 -> (Z.land y 128 = 0 <-> y < 128).
Proof.
  intros Hy. split.
  - intros H. destruct (Z.lt_ge_cases y 128) as [|Hge]; [assumption|].
    exfalso. assert (Ht : Z.testbit (Z.land y 128) 7 = false) by (rewrite H; reflexivity).
    rewrite Z.land_spec in Ht. change (Z.testbit 128 7) with true in Ht.
    rewrite andb_true_r, Z.testbit_false in Ht by lia.
    assert (y / 2 ^ 7 = 1) by (change (2 ^ 7) with 128; symmetry; apply Z.div_unique with (y - 128); lia).
    rewrite H0 in Ht. discriminate.
  - intros Hlt. apply Z.bits_inj'; intros i Hi. rewrite Z.land_spec, Z.bits_0.
    destruct (Z.eq_dec i 7) as [->|Hne].
    + rewrite <- (Z.mod_small y (2 ^ 7)) by lia.
      rewrite Z.mod_pow2_bits_high by lia. reflexivity.
    + change 128 with (2 ^ 7). rewrite Z.pow2_bits_false by lia. apply andb_false_r.
Qed.

Lemma encode_byte_bounds (y : Z) : 0 <= y mod 128 + 128 < 256.
Proof. pose proof (Z.mod_pos_bound y 128). lia. Qed.

Lemma encode_byte_low (y : Z) : (y mod 128 + 128) mod 128 = y mod 128.
Proof.
  replace (y mod 128 + 128) with (y mod 128 + 1 * 128) by lia.
  rewrite Z_mod_plus_full. apply Z.mod_mod. lia.
Qed.

Lemma uleb_loop_encode (n : Z) (rest : stream) :
  0 <= n < 2 ^ 32 ->
  forall f : nat, (1 <= f <= 5)%nat ->
  let s := 7 * Z.of_nat (5 - f) in
  read_uleb128_loop (S f) (n mod 2 ^ s) s (encode_uleb128_aux f (n / 2 ^ s) ++ rest)
  = Ok (n, rest).
Proof.
  intros Hn f. induction f as [|f IH]; intros Hf; [lia|]. cbv zeta.
  remember (7 * Z.of_nat (5 - S f)) as s eqn:Es.
  assert (Hs0 : 0 <= s) by lia.
  assert (Hp : 0 < 2 ^ s) by (apply Z.pow_pos_nonneg; lia).
  pose proof (Z.mod_pos_bound n (2 ^ s) Hp) as Hr.
  pose proof (Z.mul_div_le n (2 ^ s) Hp) as Hq.
  assert (Hm0 : 0 <= n / 2 ^ s) by (apply Z.div_pos; lia).
  pose proof (Z.div_mod n (2 ^ s)) as Hdm.
  cbn [read_uleb128_loop encode_uleb128_aux].
  destruct (decide (s > 28)) as [|_]; [lia|].
  destruct (decide (n / 2 ^ s < 128)) as [Hlt|Hge].
  - cbn. rewrite land127, (Z.mod_small (n / 2 ^ s) 128) by lia.
    rewrite shl32_mul by nia. rewrite lor_low_high by lia.
    destruct (decide (Z.land (n / 2 ^ s) 128 = 0)) as [_|Hne].
    + f_equal. f_equal. lia.
    + exfalso. apply Hne. apply land128_zero; lia.
  - cbn. pose proof (encode_byte_bounds (n / 2 ^ s)).
    rewrite land127, encode_byte_low.
    pose proof (Z.mod_pos_bound (n / 2 ^ s) 128 ltac:(lia)).
    assert (Hsb : (n / 2 ^ s) mod 128 * 2 ^ s <= n).
    { pose proof (Z.mod_le (n / 2 ^ s) 128 Hm0 ltac:(lia)). nia. }
    rewrite shl32_mul by nia. rewrite lor_low_high by lia.
    destruct (decide (Z.land ((n / 2 ^ s) mod 128 + 128) 128 = 0)) as [Hz|_].
    + exfalso. apply land128_zero in Hz; lia.
    + destruct f as [|f].
      * exfalso. simpl in Es. subst s.
        assert (n / 2 ^ 28 < 16); [|lia].
        apply Z.div_lt_upper_bound; lia.
      * specialize (IH ltac:(lia)). cbv zeta in IH.
        replace (7 * Z.of_nat (5 - S f)) with (s + 7) in IH by lia.
        replace (n mod 2 ^ s + (n / 2 ^ s) mod 128 * 2 ^ s) with (n mod 2 ^ (s + 7)).
        -- replace (n / 2 ^ s / 128) with (n / 2 ^ (s + 7)). exact IH.
           rewrite Z.div_div, Z.pow_add_r by lia. reflexivity.
        -- rewrite Z.pow_add_r by lia. change (2 ^ 7) with 128. rewrite Z.rem_mul_r by lia. lia.
Qed.

Lemma read_uleb128_encode (n : Z) (rest : stream) :
  0 <= n < 2 ^ 32 -> read_uleb128 (encode_uleb128 n ++ rest) = Ok (n, rest).
Proof.
  intros Hn. pose proof (uleb_loop_encode n rest Hn 5 ltac:(lia)) as H.
  cbv zeta in H. simpl (7 * Z.of_nat (5 - 5)) in H.
  rewrite Z.pow_0_r, Z.mod_1_r, Z.div_1_r in H.
  unfold read_uleb128, encode_uleb128. exact H.
Qed.

Lemma read_uleb128_too_long (b1 b2 b3 b4 b5 : Z) (rest : stream) :
  Z.land b1 128 <> 0 -> Z.land b2 128 <> 0 -> Z.land b3 128 <> 0 ->
  Z.land b4 128 <> 0 -> Z.land b5 128 <> 0 ->
  read_uleb128 (b1 :: b2 :: b3 :: b4 :: b5 :: rest) = Err InvalidULeb128.
Proof.
  intros H1 H2 H3 H4 H5. unfold read_uleb128. cbn.
  repeat (match goal with
          | |- context [decide (Z.land ?b 128 = 0)] =>
              destruct (decide (Z.land b 128 = 0)); [contradiction|]
          end; cbn).
  reflexivity.
Qed.

(** C6: for every [u32] value [n], [read_uleb128] decodes the ULEB128
    encoding of [n] (followed by any bytes) back to [n] and leaves the
    following bytes unread; and when the first five bytes all have the
    continuation bit 0x80 set, [read_uleb128] fails with [InvalidULeb128]
    whatever follows them, a sixth byte included or not. *)
Theorem read_uleb128_spec :
  (forall n rest, 0 <= n < 2 ^ 32 -> read_uleb128 (encode_uleb128 n ++ rest) = Ok (n, rest)) /\
  (forall b1 b2 b3 b4 b5 rest,
     Z.land b1 128 <> 0 -> Z.land b2 128 <> 0 -> Z.land b3 128 <> 0 ->
     Z.land b4 128 <> 0 -> Z.land b5 128 <> 0 ->
     read_uleb128 (b1 :: b2 :: b3 :: b4 :: b5 :: rest) = Err InvalidULeb128).
Proof. split; [exact read_uleb128_encode | exact read_uleb128_too_long]. Qed.

Lemma read_uleb128_spec_witness :
  read_uleb128 (encode_uleb128 4294967295 ++ [7]) = Ok (4294967295, [7]) /\
  read_uleb128 [128; 255; 129; 200; 128] = Err InvalidULeb128.
Proof.
  split.
  - apply (proj1 read_uleb128_spec). lia.
  - apply (proj2 read_uleb128_spec); vm_compute; discriminate.
Defined.

Lemma read_byte_ok (s s' : stream) (b : Z) : read_byte s = Ok (b, s') -> s = b :: s'.
Proof. destruct s; simpl; [discriminate|congruence]. Qed.

Lemma read_uleb128_33_loop_err (fuel : nat) : forall v sh s e,
  read_uleb128_33_loop fuel v sh s = Err e -> e = IO.
Proof.
  induction fuel as [|f IH]; intros v sh s e; simpl; [discriminate|].
  destruct s as [|b s']; simpl; [congruence|].
  unfold shl32_checked. destruct (decide (sh >= 32)); simpl; [discriminate|].
  destruct (decide (b < 128)); [discriminate|].
  destruct (decide (sh + 7 > mask32)); [discriminate|]. apply IH.
Qed.

Lemma read_uleb128_33_loop_total (fuel : nat) : forall v sh s,
  (length s < fuel)%nat -> read_uleb128_33_loop fuel v sh s <> Diverge.
Proof.
  induction fuel as [|f IH]; intros v sh s Hl; simpl; [lia|].
  destruct s as [|b s']; simpl; [congruence|].
  unfold shl32_checked. destruct (decide (sh >= 32)); simpl; [discriminate|].
  destruct (decide (b < 128)); [discriminate|].
  destruct (decide (sh + 7 > mask32)); [discriminate|]. apply IH. simpl in Hl. lia.
Qed.

(** C10: [read_uleb128_33] never fails with [InvalidULeb128]: every error
    it returns is [IO], and it always ends (it is never [Diverge]).  But it
    does not take any number of continuation bytes: when the first byte and
    the next four all have the continuation bit set, reading the fifth byte
    after the first shifts a [u32] by 34 bits, an arithmetic overflow, and
    the decoder panics. *)
Theorem read_uleb128_33_outcomes :
  (forall s e, read_uleb128_33 s = Err e -> e = IO) /\
  (forall s, read_uleb128_33 s <> Diverge) /\
  (forall t b1 b2 b3 b4 b5 rest,
     128 <= t -> 128 <= b1 -> 128 <= b2 -> 128 <= b3 -> 128 <= b4 ->
     read_uleb128_33 (t :: b1 :: b2 :: b3 :: b4 :: b5 :: rest) = Panic).
Proof.
  split; [|split].
  - intros s e. unfold read_uleb128_33.
    destruct s as [|t s1]; cbn -[read_uleb128_33_loop]; [congruence|].
    destruct (decide (Z.shiftr t 1 >= 64)); [|discriminate].
    destruct (read_uleb128_33_loop (S (length s1)) (Z.land (Z.shiftr t 1) 63) 6 s1) as [[v' s2]| e'| |] eqn:H;
      cbn -[read_uleb128_33_loop]; try discriminate.
    intros Heq; injection Heq as <-. eapply read_uleb128_33_loop_err; exact H.
  - intros s. unfold read_uleb128_33.
    destruct s as [|t s1]; cbn -[read_uleb128_33_loop]; [congruence|].
    destruct (decide (Z.shiftr t 1 >= 64)); [|discriminate].
    pose proof (read_uleb128_33_loop_total (S (length s1)) (Z.land (Z.shiftr t 1) 63) 6 s1
                  ltac:(lia)) as H.
    destruct (read_uleb128_33_loop (S (length s1)) (Z.land (Z.shiftr t 1) 63) 6 s1) as [[v' s2]| e'| |]; cbn -[read_uleb128_33_loop]; congruence.
  - intros t b1 b2 b3 b4 b5 rest Ht H1 H2 H3 H4. unfold read_uleb128_33. simpl.
    destruct (decide (Z.shiftr t 1 >= 64)) as [_|Hn].
    + unfold shl32_checked. simpl.
      repeat match goal with
             | |- context [decide (?x < 128)] =>
                 destruct (decide (x < 128)); [lia|]; simpl
             end.
      reflexivity.
    + exfalso. apply Hn. rewrite Z.shiftr_div_pow2 by lia. change (2 ^ 1) with 2.
      apply Z.le_ge, Z.div_le_lower_bound; lia.
Qed.

Lemma read_uleb128_33_outcomes_witness :
  128 <= 128 /\ read_uleb128_33 [128; 128; 128; 128; 128; 0] = Panic.
Proof.
  split; [lia|].
  apply (proj2 (proj2 read_uleb128_33_outcomes)); lia.
Defined.

(** [read_uleb128_33] on a head byte and four continuation bytes followed by
    a final byte panics: the fifth byte after the head is shifted left by 34
    bits in a [u32], an overflow, not an IO error. *)
Lemma read_uleb128_33_panics_on_long :
  read_uleb128_33 [129; 128; 128; 128; 128; 1] = Panic.
Proof. reflexivity. Qed.

(** ** Header and prototype loop *)

Lemma read_exact_app (l s : list Z) (n : nat) :
  length l = n -> read_exact n (l ++ s) = Ok (l, s).
Proof.
  intros <-. unfold read_exact. rewrite decide_True by (rewrite length_app; lia).
  rewrite take_app_length, drop_app_length. reflexivity.
Qed.

(** [flags & BC_F_FFI] is [0] or [4], never [1]. *)
Lemma ffi_test_never_one (fl : Z) : Z.land fl BC_F_FFI <> 1.
Proof.
  intros H. assert (Hb : Z.testbit (Z.land fl BC_F_FFI) 0 = Z.testbit 1 0) by (rewrite H; reflexivity).
  rewrite Z.land_spec in Hb. change (Z.testbit BC_F_FFI 0) with false in Hb.
  rewrite andb_false_r in Hb. discriminate.
Qed.

(** A flag bit outside [BC_F_KNOWN] is rejected. *)
Lemma read_header_rejects_unknown (d : ByteCodeDump) (s rest : stream) (fl : Z) :
  read_uleb128 s = Ok (fl, rest) -> Z.land fl (Z.lxor BC_F_KNOWN mask32) <> 0 ->
  read_header ([27; 76; 74; 2] ++ s) d = Err (InvalidHeaderBytes "Invalid header flags.").
Proof.
  intros Hs Hfl. unfold read_header. rewrite (read_exact_app [27; 76; 74; 2] s 4 eq_refl).
  cbn -[read_uleb128].
  destruct (decide _) as [Hm|_]; [exfalso; unfold BC_HEAD1, BC_HEAD2, BC_HEAD3 in Hm; simpl in Hm; lia|].
  destruct (decide _) as [Hm|_]; [exfalso; unfold BC_VERSION in Hm; simpl in Hm; lia|].
  rewrite Hs. cbn -[read_uleb128].
  destruct (decide _) as [_|Hn]; [reflexivity|]. exfalso. apply Hn. left. exact Hfl.
Qed.

(** Any flags inside [BC_F_KNOWN] are accepted, the FFI bit included. *)
Lemma read_header_accepts_known (d : ByteCodeDump) (s rest : stream) (fl : Z) :
  read_uleb128 s = Ok (fl, rest) -> Z.land fl (Z.lxor BC_F_KNOWN mask32) = 0 ->
  read_header ([27; 76; 74; 2] ++ s) d =
  Ok (mkByteCodeDump [27; 76; 74] 2 fl (name d) (prototypes d), rest).
Proof.
  intros Hs Hfl. unfold read_header. rewrite (read_exact_app [27; 76; 74; 2] s 4 eq_refl).
  cbn -[read_uleb128].
  destruct (decide _) as [Hm|_]; [exfalso; unfold BC_HEAD1, BC_HEAD2, BC_HEAD3 in Hm; simpl in Hm; lia|].
  destruct (decide _) as [Hm|_]; [exfalso; unfold BC_VERSION in Hm; simpl in Hm; lia|].
  rewrite Hs. cbn -[read_uleb128].
  destruct (decide _) as [[H|H]|_]; [contradiction|exfalso; exact (ffi_test_never_one fl H)|].
  reflexivity.
Qed.

(** C3: the header check does not reject the FFI flag: the stream
    [1b 4c 4a 02 04] (magic, version 2, flags [0x04]) is accepted with
    flags [4], since [flags & BC_F_FFI == 1] never holds. *)
Theorem read_header_accepts_ffi (d : ByteCodeDump) (rest : stream) :
  read_header ([27; 76; 74; 2; 4] ++ rest) d =
  Ok (mkByteCodeDump [27; 76; 74] 2 4 (name d) (prototypes d), rest).
Proof. reflexivity. Qed.

(** A prototype length of [0] is skipped: the loop reads on. *)
Lemma read_prototypes_zero (f : nat) (d : ByteCodeDump) (s : stream) :
  read_prototypes (S f) d (0 :: s) = read_prototypes f d s.
Proof. reflexivity. Qed.

(** C4: a zero prototype length does not end the loop of
    [read_bytecode_dump]: in the dump [1b 4c 4a 02 00 | 00 | 07 00 00 00 00
    00 00 00] the prototype record of length 7 that follows the zero length
    is read and loaded, so the dump holds one prototype. *)
Theorem read_bytecode_dump_skips_zero_len :
  (fun r => match r with Ok d => Ok (length (prototypes d)) | Err e => Err e
                         | Panic => Panic | Diverge => Diverge end)
    (read_bytecode_dump [27; 76; 74; 2; 0; 0; 7; 0; 0; 0; 0; 0; 0; 0]) = Ok 1%nat.
Proof. vm_compute. reflexivity. Qed.

(** ** Jump operands *)

(** For every other 16-bit field the decoded offset is [v - 0x8000]. *)
Lemma jump_of_u16_nonzero (v : Z) : 1 <= v <= 65535 -> jump_of_u16 v = Ok (v - 32768).
Proof.
  intros Hv. unfold jump_of_u16, wrap_i16.
  destruct (decide (v >= 32768)).
  - f_equal. rewrite Z.mod_small by lia. lia.
  - rewrite Z.mod_small by lia. destruct (decide _); [lia|]. f_equal. lia.
Qed.

(** C8: the field [v = 0] does not decode to [-0x8000]:
    [-((0x8000 - 0) as i16)] negates [i16::MIN], an arithmetic overflow,
    and [Jump::from] panics. *)
Theorem jump_of_u16_zero : jump_of_u16 0 = Panic.
Proof. reflexivity. Qed.

(** ** The CALL arm of the lifter *)

Lemma var_for_slot_ok (l l' : Lifter) (i v : Z) (t u : bool) :
  var_for_slot l i t u = Ok (v, l') -> v = i /\ multres l' = multres l.
Proof.
  unfold var_for_slot. destruct (slots l !! i) as [vi|].
  - destruct (decide _); [discriminate|]. intros [= <- <-]. auto.
  - intros [= <- <-]. auto.
Qed.

Lemma push_slots_ok (n : nat) : forall idx l ret ret' l',
  push_slots n idx l ret = Ok (ret', l') ->
  ret' = ret ++ seqZ idx (Z.of_nat n) /\ multres l' = multres l.
Proof.
  induction n as [|n IH]; intros idx l ret ret' l' H; simpl in H.
  - injection H as <- <-. rewrite seqZ_nil by lia. rewrite app_nil_r. auto.
  - destruct (var_for_slot l idx false false) as [[v l1]| | |] eqn:Hv;
      try discriminate.
    apply var_for_slot_ok in Hv as [-> Hm].
    apply IH in H as [-> Hm']. split; [|congruence].
    rewrite (seqZ_cons idx (Z.of_nat (S n))) by lia.
    rewrite <- app_assoc. simpl. do 3 f_equal; lia.
Qed.

Lemma call_args_ok (n : nat) : forall idx b l ret args ret' args' l',
  call_args n idx b l ret args = Ok ((ret', args'), l') ->
  ret' = ret ++ (if decide (b = 0) then seqZ idx (Z.of_nat n) else []) /\
  args' = args ++ map Expr.Var (seqZ idx (Z.of_nat n)) /\
  multres l' = multres l.
Proof.
  induction n as [|n IH]; intros idx b l ret args ret' args' l' H; simpl in H.
  - injection H as <- <- <-. rewrite seqZ_nil by lia.
    destruct (decide (b = 0)); rewrite !app_nil_r; auto.
  - assert (Hs : seqZ idx (Z.of_nat (S n)) = idx :: seqZ (idx + 1) (Z.of_nat n)).
    { rewrite seqZ_cons by lia. f_equal; f_equal; lia. }
    rewrite Hs. destruct (decide (b = 0)) as [Hb|Hb].
    + destruct (var_for_slot l idx false false) as [[v l1]| | |] eqn:Hv;
        try discriminate.
      apply var_for_slot_ok in Hv as [-> Hm].
      apply IH in H as (-> & -> & Hm').
      destruct (decide (b = 0)); [|contradiction].
      rewrite <- !app_assoc. simpl. auto with congruence.
    + apply IH in H as (-> & -> & Hm').
      destruct (decide (b = 0)); [contradiction|].
      rewrite <- !app_assoc. simpl. auto.
Qed.

Ltac case_call_args H :=
  match goal with
  | |- context [call_args ?n ?i ?bb ?ll ?r ?ar] =>
      destruct (call_args n i bb ll r ar) as [[[?ret' ?args'] ?l2]| | |] eqn:H;
      try discriminate
  end.

(** C2: for [CALL(a, b, c)] whose [analyze_call] succeeds, the emitted
    statement is [Call returns args] with [args = Var a, Var (a+1), ...,
    Var (a+c-1)] (only [Var a] when [c <= 1]); [returns] is the [b - 1]
    slots [a .. a+b-2] when [b <> 0], and the [c - 1] slots
    [a+1 .. a+c-1] when [b = 0] (empty when [c <= 1]); [multres] becomes
    [c - 1] when [b = 0] and [c > 1], and is unchanged otherwise. *)
Theorem analyze_call_spec (l l' : Lifter) (a b c : Z) (insn : Insn.t) :
  0 <= b -> analyze_call l a b c = Ok (insn, l') ->
  insn = Insn.Call (if decide (b = 0) then seqZ (a + 1) (c - 1) else seqZ a (b - 1))
                   (Expr.Var a :: map Expr.Var (seqZ (a + 1) (c - 1))) /\
  multres l' = (if decide (b = 0 /\ c > 1) then c - 1 else multres l).
Proof.
  intros Hb0. unfold analyze_call.
  destruct (decide (b <> 0)) as [Hb|Hb].
  - destruct (push_slots _ a l []) as [[ret l1]| | |] eqn:Hp; try discriminate.
    apply push_slots_ok in Hp as [-> Hm]. simpl.
    rewrite Z2Nat.id by lia.
    destruct (decide (c > 1)) as [Hc|Hc].
    + case_call_args Hq.
      apply call_args_ok in Hq as (-> & -> & Hm'). intros [= <- <-].
      rewrite Z2Nat.id by lia.
      destruct (decide (b = 0)); [contradiction|].
      destruct (decide (b = 0 /\ c > 1)) as [[? ?]|]; [contradiction|].
      rewrite !app_nil_r. replace (a + c - 1 - a) with (c - 1) by lia.
      replace (a + b - 1 - a) with (b - 1) by lia.
      split; [reflexivity|congruence].
    + intros [= <- <-]. rewrite (seqZ_nil (a + 1) (c - 1)) by lia.
      destruct (decide (b = 0)); [contradiction|].
      destruct (decide (b = 0 /\ c > 1)) as [[? ?]|]; [contradiction|].
      replace (a + b - 1 - a) with (b - 1) by lia. auto.
  - assert (b = 0) as -> by lia. simpl.
    destruct (decide (c > 1)) as [Hc|Hc].
    + destruct (decide (0 = 0)) as [_|]; [|contradiction].
      case_call_args Hq.
      apply call_args_ok in Hq as (-> & -> & Hm'). intros [= <- <-].
      rewrite Z2Nat.id by lia. simpl in Hm'.
      destruct (decide (0 = 0)) as [_|]; [|contradiction].
      destruct (decide (0 = 0 /\ c > 1)) as [_|Hn]; [|tauto].
      replace (a + c - 1 - a) with (c - 1) by lia. auto.
    + intros [= <- <-]. rewrite (seqZ_nil (a + 1) (c - 1)) by lia.
      destruct (decide (0 = 0 /\ c > 1)) as [[? ?]|]; [lia|]. auto.
Qed.

Lemma analyze_call_spec_witness :
  exists l', 0 <= 3 /\
    analyze_call Lifter_new 2 3 2 = Ok (Insn.Call [2; 3] [Expr.Var 2; Expr.Var 3], l') /\
    Insn.Call [2; 3] [Expr.Var 2; Expr.Var 3] =
      Insn.Call (if decide (3 = 0) then seqZ (2 + 1) (2 - 1) else seqZ 2 (3 - 1))
                (Expr.Var 2 :: map Expr.Var (seqZ (2 + 1) (2 - 1))) /\
    multres l' = (if decide (3 = 0 /\ 2 > 1) then 2 - 1 else multres Lifter_new).
Proof.
  eexists. split; [lia|]. split; [reflexivity|].
  apply (analyze_call_spec Lifter_new _ 2 3 2); [lia | reflexivity].
Defined.

(** For [b = 0] the returns are not empty: [CALL(0, 0, 2)] emits
    [Call([Var 1], [Var 0, Var 1])] and sets [multres] to 1. *)
Lemma analyze_call_b0_returns :
  exists l', analyze_call Lifter_new 0 0 2 =
             Ok (Insn.Call [1] [Expr.Var 0; Expr.Var 1], l') /\ multres l' = 1.
Proof. eexists. split; reflexivity. Qed.

(** ** String constants *)

Ltac eval_utf8_tests :=
  unfold is_cont, second_ok3, second_ok4, in_range;
  repeat match goal with
    | |- context [bool_decide ?P] =>
        first [ rewrite (bool_decide_eq_true_2 P) by lia
              | rewrite (bool_decide_eq_false_2 P) by lia ]
    | |- context [decide ?P] => destruct (decide P); [try lia | try lia]
    end; cbn [orb andb].

Lemma from_utf8_lossy_valid (s : list Z) : valid_utf8 s -> from_utf8_lossy s = s.
Proof.
  induction 1 as [|c s Hc Hs IH]; [reflexivity|].
  inversion Hc; subst; cbn [app from_utf8_lossy];
    repeat match goal with H : _ \/ _ |- _ => destruct H end; eval_utf8_tests;
    rewrite IH; reflexivity.
Qed.

(** C9: a string constant of type tag [tp >= 5] whose [tp - 5] bytes [str]
    follow the tag is stored as [String::from_utf8_lossy(str)], both in a
    constant-table entry and in the global-constant pool, with the bytes
    after it left unread; this equals [str] when [str] is well-formed
    UTF-8. *)
Theorem string_constants_lossy (s str rest : list Z) (tp : Z) (gcs : list GlobalConst.t) :
  read_uleb128 s = Ok (tp, str ++ rest) -> 5 <= tp -> length str = Z.to_nat (tp - 5) ->
  read_prototype_const_table_val s = Ok (ConstTableVal.String (from_utf8_lossy str), rest) /\
  read_global_constant s gcs = Ok (gcs ++ [GlobalConst.Str (from_utf8_lossy str)], rest) /\
  (valid_utf8 str -> from_utf8_lossy str = str).
Proof.
  intros Hs Htp Hl.
  assert (Hx : read_exact (Z.to_nat (tp - 5)) (str ++ rest) = Ok (str, rest))
    by (apply read_exact_app; exact Hl).
  split; [|split].
  - unfold read_prototype_const_table_val. rewrite Hs. cbn [mbind Res_bind].
    unfold TABLE_ENTRY_TYPE_NIL, TABLE_ENTRY_TYPE_FALSE, TABLE_ENTRY_TYPE_TRUE,
      TABLE_ENTRY_TYPE_INT, TABLE_ENTRY_TYPE_NUM, TABLE_ENTRY_TYPE_STR.
    rewrite !decide_False by lia. rewrite Hx. reflexivity.
  - unfold read_global_constant. rewrite Hs. cbn [mbind Res_bind].
    unfold GC_TYPE_PROTO_CHILD, GC_TYPE_TABLE, GC_TYPE_I64, GC_TYPE_U64,
      GC_TYPE_COMPLEX, GC_TYPE_STR.
    rewrite !decide_False by lia. rewrite Hx. reflexivity.
  - apply from_utf8_lossy_valid.
Qed.

Lemma string_constants_lossy_witness :
  read_prototype_const_table_val [7; 195; 169] = Ok (ConstTableVal.String [195; 169], []) /\
  read_global_constant [7; 195; 169] [] = Ok ([GlobalConst.Str [195; 169]], []).
Proof.
  destruct (string_constants_lossy [7; 195; 169] [195; 169] [] 7 []
              eq_refl ltac:(lia) eq_refl) as (H1 & H2 & H3).
  assert (Hv : from_utf8_lossy [195; 169] = [195; 169]).
  { apply H3. apply (valid_app [195; 169] []); [constructor; lia | constructor]. }
  rewrite Hv in H1, H2. split; [exact H1 | exact H2].
Defined.

(** The stored bytes are not always the input: the one-byte string [ff]
    is stored as the three bytes [ef bf bd] of U+FFFD, in a table entry
    and in the global constants. *)
Lemma string_constant_replaced :
  read_prototype_const_table_val [6; 255] = Ok (ConstTableVal.String [239; 191; 189], []) /\
  read_global_constant [6; 255] [] = Ok ([GlobalConst.Str [239; 191; 189]], []).
Proof. split; reflexivity. Qed.

(** ** Jump targets past the end *)

(** C5: the error type has no [InvalidJumpTarget]; a jump target outside
    the instruction array is not reported as an error.  On a graph whose
    blocks lie inside the array, [recurse_block] called at an offset past
    [length bc] panics, because the new block's slice [bc_raw[idx..len]] is
    out of range.  A negative target [(idx + 1) as i32 + jump] of a jump at
    [idx] is cast to a [u32] offset of at least 2^31, which is past the end
    of any array shorter than 2^31, so it panics as well.  A target equal
    to [length bc] gives an empty block at that offset. *)
Theorem recurse_block_past_end (f : nat) (g : CFG) (bc : list Z) :
  (forall k b, node_weight g k = Some b -> k + Z.of_nat (length b) <= Z.of_nat (length bc)) ->
  (forall idx, Z.of_nat (length bc) < idx -> recurse_block (S f) g bc idx = Panic) /\
  (forall idx jump, Z.of_nat (length bc) < 2 ^ 31 -> 0 <= idx -> idx + 1 < 2 ^ 31 ->
     -2 ^ 31 <= idx + 1 + jump < 0 ->
     exists d, jump_dest idx jump = Ok d /\ 2 ^ 31 <= d /\ recurse_block (S f) g bc d = Panic) /\
  (exists g', recurse_block (S f) g bc (Z.of_nat (length bc)) = Ok g' /\
     node_weight g' (Z.of_nat (length bc)) = Some []).
Proof.
  intros Hin.
  assert (Hpast : forall idx, Z.of_nat (length bc) < idx -> recurse_block (S f) g bc idx = Panic).
  { intros idx Hidx. simpl.
    assert (Hdrop : drop (Z.to_nat idx) bc = []) by (apply drop_ge; lia).
    assert (Hscan : forall nb,
              scan (fun g' i => recurse_block f g' bc i) bc idx nb None idx
                (drop (Z.to_nat idx) bc) g = Panic).
    { intros nb. rewrite Hdrop. simpl. unfold slice.
      destruct (decide _); [lia|reflexivity]. }
    destruct (try_prev_node g idx) as [p|] eqn:Hp; [|apply Hscan].
    apply try_prev_node_Some in Hp as ([nd Hpn] & Hple & _).
    assert (Hw : node_weight g p = Some (weight nd)) by (unfold node_weight; rewrite Hpn; reflexivity).
    pose proof (Hin p _ Hw).
    destruct (decide (idx = p)); [lia|]. rewrite Hw. simpl.
    destruct (decide _); [lia|]. apply Hscan. }
  split; [exact Hpast|split].
  - intros idx jump Hlen Hidx Hidx1 Hs.
    exists (idx + 1 + jump + 2 ^ 32). split; [|split; [lia|apply Hpast; lia]].
    unfold jump_dest, wrap_i32.
    rewrite (Z.mod_small (idx + 1 + 2147483648) 4294967296) by lia.
    replace (idx + 1 + 2147483648 - 2147483648 + jump) with (idx + 1 + jump) by lia.
    rewrite decide_False by lia. f_equal.
    rewrite <- (Z.mod_unique (idx + 1 + jump) 4294967296 (-1) (idx + 1 + jump + 2 ^ 32)); [reflexivity|lia|lia].
  - set (n := Z.of_nat (length bc)).
    assert (Hdrop : drop (Z.to_nat n) bc = []) by (apply drop_ge; lia).
    assert (Hscan : forall nb,
              scan (fun g' i => recurse_block f g' bc i) bc n nb None n
                (drop (Z.to_nat n) bc) g = Ok (add_node g n []).2).
    { intros nb. rewrite Hdrop. simpl. unfold slice.
      rewrite decide_True by lia. rewrite Z.sub_diag. reflexivity. }
    assert (Hnew : node_weight (add_node g n []).2 n = Some []).
    { rewrite node_weight_add_node. rewrite decide_True by reflexivity. reflexivity. }
    simpl. destruct (try_prev_node g n) as [p|] eqn:Hp; [|eexists; split; [apply Hscan|exact Hnew]].
    apply try_prev_node_Some in Hp as ([nd Hpn] & Hple & _).
    assert (Hw : node_weight g p = Some (weight nd)) by (unfold node_weight; rewrite Hpn; reflexivity).
    pose proof (Hin p _ Hw) as Hb.
    destruct (decide (n = p)) as [<-|Hne].
    + exists g. split; [reflexivity|]. rewrite Hw. f_equal.
      destruct (weight nd); [reflexivity|simpl in Hb; lia].
    + rewrite Hw. simpl. destruct (decide _); [lia|].
      eexists; split; [apply Hscan|exact Hnew].
Qed.

Lemma recurse_block_past_end_witness :
  let g := (add_node (@graph_new Block BranchKind.t) 0 [75]).2 in
  (forall k b, node_weight g k = Some b -> k + Z.of_nat (length b) <= Z.of_nat (length [75])) /\
  recurse_block 3 g [75] 6 = Panic /\
  jump_dest 0 (-5) = Ok 4294967292 /\ recurse_block 3 g [75] 4294967292 = Panic /\
  recurse_block 3 g [75] 1 = Ok (add_node g 1 []).2.
Proof.
  cbv zeta.
  assert (H : forall k b, node_weight (add_node (@graph_new Block BranchKind.t) 0 [75]).2 k = Some b ->
     k + Z.of_nat (length b) <= Z.of_nat (length [75])).
  { intros k b. rewrite node_weight_add_node. unfold node_weight. simpl.
    rewrite lookup_empty. destruct (decide (0 = k)) as [<-|]; [intros [= <-]; simpl; lia|discriminate]. }
  destruct (recurse_block_past_end 2 _ [75] H) as (H1 & H2 & _).
  split; [exact H|]. split; [apply H1; simpl; lia|].
  destruct (H2 0 (-5)) as (d & Hd & _ & Hr); [simpl; lia|lia|lia|lia|].
  assert (Hd' : d = 4294967292) by (vm_compute in Hd; congruence). subst d.
  split; [exact Hd|]. split; [exact Hr|vm_compute; reflexivity].
Defined.

(** [resolve_basic_blocks] on one [JMP] of offset +5 (target 6, past the
    end 1) panics instead of returning an error; one [JMP] of offset 0
    (target 1, the end) gives the empty block at 1. *)
Lemma resolve_jump_past_end :
  resolve_basic_blocks [88 + (32768 + 5) * 65536] = Panic /\
  exists g, resolve_basic_blocks [88 + 32768 * 65536] = Ok g /\
    node_weight g 0 = Some [88 + 32768 * 65536] /\ node_weight g 1 = Some [].
Proof. split; [vm_compute; reflexivity|].
  eexists. split; [vm_compute; reflexivity|split; vm_compute; reflexivity]. Qed.

(** ** Disjoint blocks *)

Lemma disjoint_ext (g g' : CFG) :
  (forall k, node_weight g' k = node_weight g k) -> blocks_disjoint g -> blocks_disjoint g'.
Proof. intros Hw D k b k' b'. rewrite !Hw. apply D. Qed.

Lemma add_edge_disjoint (g g' : CFG) w fr t i :
  blocks_disjoint g -> add_edge g w fr t = Ok (i, g') -> blocks_disjoint g'.
Proof. intros D H. apply add_edge_nodes in H as [Hw _]. exact (disjoint_ext g g' Hw D). Qed.

Lemma slice_Ok (bc : list Z) lo hi blk :
  slice bc lo hi = Ok blk ->
  0 <= lo /\ lo <= hi /\ hi <= Z.of_nat (length bc) /\ Z.of_nat (length blk) = hi - lo.
Proof.
  unfold slice. destruct (decide _) as [Hc|]; [|discriminate]. intros [= <-].
  repeat split; try lia. rewrite length_take, length_drop. lia.
Qed.

Lemma add_node_disjoint (g : CFG) start blk :
  blocks_disjoint g -> node_weight g start = None ->
  (forall k b, node_weight g k = Some b -> k < start -> k + Z.of_nat (length b) <= start) ->
  (forall k b, node_weight g k = Some b -> start < k -> start + Z.of_nat (length blk) <= k) ->
  blocks_disjoint (add_node g start blk).2.
Proof.
  intros D Hf Hb Ha k b k' b'. rewrite !node_weight_add_node.
  destruct (decide (start = k)) as [<-|Hk]; destruct (decide (start = k')) as [<-|Hk'].
  - intros _ _ []; reflexivity.
  - intros [= <-] Hb' _. destruct (Z.lt_ge_cases k' start).
    + right. eauto.
    + left. apply (Ha k' b'); [exact Hb'|lia].
  - intros Hb0 [= <-] _. destruct (Z.lt_ge_cases k start).
    + left. eauto.
    + right. apply (Ha k b); [exact Hb0|lia].
  - apply D.
Qed.

Lemma try_next_node_ge {N E} (g : Graph N E) idx n : try_next_node g idx = Some n -> idx <= n.
Proof.
  unfold try_next_node. intros H. apply min_opt_spec in H as [Hin _].
  apply list_elem_of_filter in Hin. tauto.
Qed.

Lemma split_node_weights (g g1 : CFG) p idx b d r :
  node_weight g p = Some b -> p <> idx ->
  split_node g p idx (block_split d) = Ok (r, g1) ->
  forall k, node_weight g1 k =
    if decide (k = idx) then Some (drop d b)
    else if decide (k = p) then Some (take d b) else node_weight g k.
Proof.
  intros Hw Hne H. apply node_weight_Some in Hw as [nd [Hnd <-]].
  unfold split_node in H.
  apply bind_Ok_inv in H as [nd' [Hu H]]. apply unwrap_Ok in Hu.
  rewrite Hnd in Hu. injection Hu as <-.
  apply bind_Ok_inv in H as [[ow nw'] [Hs H]].
  unfold block_split in Hs. destruct (decide _); [|discriminate].
  injection Hs as <- <-. unfold add_node in H. cbv beta iota in H. simpl in H.
  apply bind_Ok_inv in H as [u [_ H]].
  apply bind_Ok_inv in H as [nn [Hn H]]. apply unwrap_Ok in Hn.
  apply bind_Ok_inv in H as [es [_ H]]. injection H as <- <-.
  simpl in Hn. rewrite lookup_insert_eq in Hn. injection Hn as <-.
  intros k. unfold node_weight. simpl.
  rewrite lookup_insert. destruct (decide (idx = k)) as [<-|Hk].
  - rewrite decide_True by reflexivity. reflexivity.
  - rewrite decide_False by congruence. rewrite !lookup_insert.
    destruct (decide (idx = k)); [contradiction|].
    destruct (decide (p = k)) as [<-|]; simpl.
    + rewrite decide_True by reflexivity. reflexivity.
    + rewrite decide_False by congruence. reflexivity.
Qed.

Lemma split_disjoint (g g1 : CFG) p idx b :
  blocks_disjoint g -> node_weight g p = Some b -> 0 < idx - p < Z.of_nat (length b) ->
  (forall k, node_weight g1 k =
    if decide (k = idx) then Some (drop (Z.to_nat (idx - p)) b)
    else if decide (k = p) then Some (take (Z.to_nat (idx - p)) b) else node_weight g k) ->
  blocks_disjoint g1.
Proof.
  intros D Hb Hd Hw.
  assert (Hlt : forall k bk, node_weight g k = Some bk -> k <> p ->
            p + Z.of_nat (length b) <= k \/ k + Z.of_nat (length bk) <= p).
  { intros k bk Hk Hkp. destruct (D p b k bk Hb Hk) as [|]; [congruence|left|right]; lia. }
  intros k bk k' bk'. rewrite !Hw.
  rewrite ?length_take, ?length_drop.
  destruct (decide (k = idx)) as [->|Hki]; destruct (decide (k' = idx)) as [->|Hki'].
  - intros _ _ []; reflexivity.
  - destruct (decide (k' = p)) as [->|Hkp'].
    + intros [= <-] [= <-] _. rewrite length_take, length_drop. right. lia.
    + intros [= <-] Hk' _. rewrite length_drop.
      destruct (Hlt k' bk' Hk' Hkp'); [left|right]; lia.
  - destruct (decide (k = p)) as [->|Hkp].
    + intros [= <-] [= <-] _. rewrite length_take. left. lia.
    + intros Hk [= <-] _. rewrite length_drop.
      destruct (Hlt k bk Hk Hkp); [right|left]; lia.
  - destruct (decide (k = p)) as [->|Hkp]; destruct (decide (k' = p)) as [->|Hkp'].
    + intros _ _ []; reflexivity.
    + intros [= <-] Hk' _. rewrite length_take.
      destruct (Hlt k' bk' Hk' Hkp'); [left|right]; lia.
    + intros Hk [= <-] _. rewrite length_take.
      destruct (Hlt k bk Hk Hkp); [right|left]; lia.
    + apply D.
Qed.

Section ScanDisjoint.
Variable recurse : CFG -> Z -> Res CFG.
Hypothesis rec_pres : forall g g' i, blocks_disjoint g -> recurse g i = Ok g' -> blocks_disjoint g'.
Variables (bc : list Z) (start : Z) (nb : option Z) (g : CFG).
Hypothesis Hdis : blocks_disjoint g.
Hypothesis Hfresh : node_weight g start = None.
Hypothesis Hbelow : forall k b, node_weight g k = Some b -> k < start ->
  k + Z.of_nat (length b) <= start.
Hypothesis Habove : forall k b, node_weight g k = Some b -> start < k ->
  exists n, nb = Some n /\ n <= k.

Lemma add_block_disjoint hi blk :
  slice bc start hi = Ok blk -> (forall n, nb = Some n -> hi <= n) ->
  blocks_disjoint (add_node g start blk).2.
Proof.
  intros Hs Hn. apply slice_Ok in Hs as (H0 & H1 & H2 & Hl).
  apply add_node_disjoint; auto.
  intros k b Hk Hlt. destruct (Habove k b Hk Hlt) as [n [Hnb Hle]].
  specialize (Hn n Hnb). lia.
Qed.

Lemma close_block_disjoint idx g1 :
  close_block bc start g idx = Ok g1 -> (forall n, nb = Some n -> idx + 1 <= n) ->
  blocks_disjoint g1.
Proof.
  unfold close_block. intros H Hn.
  apply bind_Ok_inv in H as [blk [Hs H]]. injection H as <-.
  exact (add_block_disjoint _ _ Hs Hn).
Qed.

Lemma branch_to_disjoint g1 g2 idx dest k :
  blocks_disjoint g1 -> branch_to recurse g1 idx dest k = Ok g2 -> blocks_disjoint g2.
Proof.
  unfold branch_to. intros D H.
  apply bind_Ok_inv in H as [g3 [Hr H]].
  apply bind_Ok_inv in H as [cur [_ H]].
  apply bind_Ok_inv in H as [[i g4] [He H]]. injection H as <-.
  eapply add_edge_disjoint; [|exact He]. eapply rec_pres; eauto.
Qed.

Ltac inv_res :=
  repeat match goal with
  | H : Ok _ = Ok _ |- _ => injection H as H; subst
  | H : (_ ≫= _) = Ok _ |- _ =>
      let x := fresh "x" in let Hm := fresh "Hm" in
      apply bind_Ok_inv in H as [x [Hm H]]; cbv beta in H
  | H : context [match ?p with pair _ _ => _ end] |- _ =>
      is_var p; destruct p; cbv beta iota in H
  | H : (if decide ?P then _ else _) = Ok _ |- _ => destruct (decide P)
  end.

Ltac propagate :=
  repeat match goal with
  | H : close_block _ _ _ _ = Ok ?g1 |- _ =>
      apply close_block_disjoint in H; [|assumption]
  | H : recurse ?g1 _ = Ok ?g2, D : blocks_disjoint ?g1 |- _ =>
      apply (rec_pres _ _ _ D) in H
  | H : add_edge ?g1 _ _ _ = Ok (_, ?g2), D : blocks_disjoint ?g1 |- _ =>
      apply (add_edge_disjoint _ _ _ _ _ _ D) in H
  | H : branch_to recurse ?g1 _ _ _ = Ok ?g2, D : blocks_disjoint ?g1 |- _ =>
      apply (branch_to_disjoint _ _ _ _ _ D) in H
  end.

Lemma scan_disjoint (rest : list Z) : forall pc idx g',
  start <= idx -> (0 <= start -> rest = drop (Z.to_nat idx) bc) ->
  (forall n, nb = Some n -> idx <= n) ->
  scan recurse bc start nb pc idx rest g = Ok g' -> blocks_disjoint g'.
Proof.
  induction rest as [|ins rest' IH]; intros pc idx g' Hs Hr Hn H; simpl in H.
  - apply bind_Ok_inv in H as [blk [Hsl H]]. injection H as <-.
    eapply add_block_disjoint; [exact Hsl|].
    pose proof (slice_Ok _ _ _ _ Hsl) as (H0 & _).
    specialize (Hr H0). intros n Hnb. specialize (Hn n Hnb).
    assert (length (drop (Z.to_nat idx) bc) = 0%nat) by (rewrite <- Hr; reflexivity).
    rewrite length_drop in H. lia.
  - destruct (decide (nb = Some idx)) as [Heq|Hneq].
    + apply bind_Ok_inv in H as [blk [Hsl H]].
      apply bind_Ok_inv in H as [[i g2] [He H]]. injection H as <-.
      eapply add_edge_disjoint; [|exact He].
      eapply add_block_disjoint; [exact Hsl|]. intros n Hnb. assert (n = idx) by congruence. lia.
    + assert (Hn' : forall n, nb = Some n -> idx + 1 <= n).
      { intros n Hnb. specialize (Hn n Hnb). assert (n <> idx) by congruence. lia. }
      assert (Hr' : 0 <= start -> rest' = drop (Z.to_nat (idx + 1)) bc).
      { intros H0. rewrite Z2Nat.inj_add by lia. rewrite <- drop_drop, <- Hr by exact H0.
        reflexivity. }
      assert (Hs' : start <= idx + 1) by lia.
      apply bind_Ok_inv in H as [op [_ H]]. cbv beta in H.
      destruct op; cbv iota in H; inv_res; propagate;
        try assumption;
        try (eapply IH; [exact Hs' | exact Hr' | exact Hn' | eassumption]).
      all: try discriminate.
      all: match goal with
           | o : Op, H : _ = Ok _ |- _ =>
               destruct o; cbv iota in H; propagate;
               try assumption;
               eapply IH; [exact Hs' | exact Hr' | exact Hn' | eassumption]
           end.
Qed.

End ScanDisjoint.

Lemma recurse_block_disjoint (fuel : nat) : forall (g g' : CFG) bc idx,
  blocks_disjoint g -> recurse_block fuel g bc idx = Ok g' -> blocks_disjoint g'.
Proof.
  induction fuel as [|fuel IH]; intros g g' bc idx D H; simpl in H; [discriminate|].
  assert (Hnb : forall n, try_next_node g idx = Some n -> idx <= n)
    by (intros n; apply try_next_node_ge).
  assert (Habove : forall k b, node_weight g k = Some b -> idx < k ->
            exists n, try_next_node g idx = Some n /\ n <= k).
  { intros k b Hk Hlt. apply node_weight_Some in Hk as [nd [Hk _]].
    apply try_next_node_spec; [eauto|lia]. }
  assert (Hscan : node_weight g idx = None ->
            (forall k b, node_weight g k = Some b -> k < idx ->
               k + Z.of_nat (length b) <= idx) ->
            scan (fun g' i => recurse_block fuel g' bc i) bc idx (try_next_node g idx)
              None idx (drop (Z.to_nat idx) bc) g = Ok g' -> blocks_disjoint g').
  { intros Hf Hb Hs. eapply scan_disjoint; eauto; [|lia].
    intros g1 g2 i D1 H1. cbv beta in H1. eapply IH; eauto. }
  destruct (try_prev_node g idx) as [p|] eqn:Hp.
  - apply try_prev_node_Some in Hp as ([nd Hpn] & Hple & Hmax).
    destruct (decide (idx = p)) as [<-|Hne]; [injection H as <-; exact D|].
    apply bind_Ok_inv in H as [b [Hw H]]. apply unwrap_Ok in Hw.
    destruct (decide (idx - p < Z.of_nat (length b))) as [Hlt|Hge].
    + apply bind_Ok_inv in H as [[r g1] [Hsp H]].
      apply bind_Ok_inv in H as [[i g2] [He H]]. injection H as <-.
      eapply add_edge_disjoint; [|exact He].
      eapply split_disjoint;
        [exact D | exact Hw | | eapply split_node_weights; [exact Hw | | exact Hsp]].
      all: lia.
    + apply Hscan; [| |exact H].
      * unfold node_weight. destruct (nodes g !! idx) eqn:Hi; [|reflexivity].
        exfalso. assert (idx <= p) by (apply Hmax; [eexists; exact Hi | lia]). lia.
      * intros k bk Hk Hlt.
        assert (Hkp : k <= p).
        { apply Hmax; [|lia]. apply node_weight_Some in Hk as [? [? _]]. eauto. }
        destruct (decide (k = p)) as [->|Hkp'].
        -- rewrite Hw in Hk. injection Hk as <-. lia.
        -- destruct (D k bk p b Hk Hw Hkp'); lia.
  - apply Hscan; [| |exact H].
    + unfold node_weight. destruct (nodes g !! idx) eqn:Hi; [|reflexivity].
      exfalso. pose proof (try_prev_node_None g idx Hp idx ltac:(eauto)). lia.
    + intros k bk Hk Hlt. exfalso. apply node_weight_Some in Hk as [? [Hk _]].
      pose proof (try_prev_node_None g idx Hp k ltac:(eauto)). lia.
Qed.

Lemma graph_new_disjoint : blocks_disjoint graph_new.
Proof. intros k b k' b'. unfold node_weight. simpl. rewrite lookup_empty. discriminate. Qed.

(** C1: whenever [resolve_basic_blocks] returns a CFG, its node ranges are
    pairwise disjoint: for two nodes at keys [k <> k'] with blocks [b] and
    [b'], [k' >= k + length b] or [k' + length b' <= k]. *)
Theorem resolve_basic_blocks_disjoint (bc : list Z) (g : CFG) :
  resolve_basic_blocks bc = Ok g -> blocks_disjoint g.
Proof.
  unfold resolve_basic_blocks. apply recurse_block_disjoint. apply graph_new_disjoint.
Qed.

Lemma resolve_basic_blocks_disjoint_witness :
  exists g, resolve_basic_blocks [75 + 65536; 88 + 32767 * 65536] = Ok g /\ blocks_disjoint g.
Proof.
  eexists. split; [vm_compute; reflexivity|].
  apply (resolve_basic_blocks_disjoint [75 + 65536; 88 + 32767 * 65536]).
  vm_compute. reflexivity.
Defined.

(** ** Splitting a node *)

Section SplitEdges.
Context {N E : Type}.

Lemma out_chain_ext (f : nat) : forall (es es' : list (Edge E)) c,
  (forall j, edge_next_outgoing <$> es !! j = edge_next_outgoing <$> es' !! j) ->
  out_chain f es c = out_chain f es' c.
Proof.
  induction f as [|f IH]; intros es es' c Hj; destruct c as [i|]; simpl; auto.
  specialize (Hj i) as Hi.
  destruct (es !! i) as [e|], (es' !! i) as [e'|]; simpl in *; try discriminate; auto.
  injection Hi as Hi. rewrite Hi. rewrite (IH es es' _ Hj). reflexivity.
Qed.

Lemma relabel_nil (es : list (Edge E)) n : relabel es [] n = es.
Proof.
  apply list_eq. intros j. unfold relabel. rewrite list_lookup_imap.
  destruct (es !! j); simpl; [|reflexivity].
  first [reflexivity | case_bool_decide as Hin; [inversion Hin | reflexivity]].
Qed.

Lemma relink_chain (f : nat) : forall (es : list (Edge E)) c l fuel n,
  out_chain f es c = Some l -> (f <= fuel)%nat ->
  relink_outgoing fuel es c n = Ok (relabel es l n).
Proof.
  induction f as [|f IH]; intros es c l fuel n Hc Hf; destruct c as [i|]; simpl in Hc.
  - discriminate.
  - injection Hc as <-. rewrite relabel_nil. destruct fuel; reflexivity.
  - destruct (es !! i) as [e|] eqn:Hi; simpl in Hc; [|discriminate].
    destruct (out_chain f es (edge_next_outgoing e)) as [l'|] eqn:Hl; simpl in Hc;
      [|discriminate].
    injection Hc as <-. destruct fuel as [|fuel]; [lia|]. simpl. rewrite Hi. simpl.
    rewrite (IH _ _ l' fuel n); [| |lia].
    + f_equal. apply list_eq. intros j. unfold relabel. rewrite !list_lookup_imap.
      destruct (decide (i = j)) as [<-|Hij].
      * rewrite list_lookup_insert, decide_True by (split; [reflexivity|];
          apply lookup_lt_is_Some_1; eauto).
        rewrite Hi. simpl. rewrite (bool_decide_eq_true_2 (i ∈ i :: l')) by left.
        destruct (bool_decide (i ∈ l')); reflexivity.
      * rewrite list_lookup_insert_ne by exact Hij.
        destruct (es !! j); simpl; [|reflexivity].
        f_equal. rewrite (bool_decide_ext (j ∈ l') (j ∈ i :: l')); [reflexivity|]. rewrite elem_of_cons. intuition congruence.
    + rewrite <- Hl. apply out_chain_ext. intros j.
      destruct (decide (i = j)) as [<-|Hij].
      * rewrite list_lookup_insert, decide_True by (split; [reflexivity|];
          apply lookup_lt_is_Some_1; eauto).
        rewrite Hi. reflexivity.
      * rewrite list_lookup_insert_ne by exact Hij. reflexivity.
  - injection Hc as <-. rewrite relabel_nil. destruct fuel; reflexivity.
Qed.

Lemma relabel_lookup (es : list (Edge E)) l n j :
  relabel es l n !! j =
  (fun e => if bool_decide (j ∈ l) then set_from e n else e) <$> es !! j.
Proof. unfold relabel. apply list_lookup_imap. Qed.

Lemma length_relabel (es : list (Edge E)) l n : length (relabel es l n) = length es.
Proof. unfold relabel. apply length_imap. Qed.

(** C7: let the outgoing lists of [g] be well formed, a node [nd] sit at
    [old] and no node at [new_key], and the splitter succeed.  Then
    [split_node] succeeds, and: an edge whose source is not [old] is
    unchanged; an edge whose source is [old] gets the source [new_key] and
    keeps its weight, target and links; the new node holds the old
    node's outgoing list, which lists exactly those edges; the old node
    keeps its incoming list and gets an empty outgoing list; the other
    nodes do not change.  An incoming edge of [old] whose source is
    [old] too (a self loop) is rewritten, so not every incoming edge of
    the old node is unchanged. *)
Theorem split_node_edges (g : Graph N E) (old new_key : Z)
    (splitter : N -> Res (N * N)) (nd : Node N) (old_w new_w : N) :
  out_lists_wf g -> nodes g !! old = Some nd -> nodes g !! new_key = None ->
  splitter (weight nd) = Ok (old_w, new_w) ->
  exists g', split_node g old new_key splitter = Ok (new_key, g') /\
    (forall i, edges g' !! i =
       (fun e => if decide (from e = old) then set_from e new_key else e) <$> edges g !! i) /\
    nodes g' !! old = Some (mkNode old_w None (next_incoming_edge nd)) /\
    nodes g' !! new_key = Some (mkNode new_w (next_outgoing_edge nd) None) /\
    (forall k, k <> old -> k <> new_key -> nodes g' !! k = nodes g !! k) /\
    (exists l, out_chain (length (edges g')) (edges g') (next_outgoing_edge nd) = Some l /\
       forall i, i ∈ l <-> exists e, edges g !! i = Some e /\ from e = old).
Proof.
  intros Hwf Hold Hnew Hs.
  assert (Hne : old <> new_key) by congruence.
  destruct (proj2 Hwf old nd Hold) as [l [Hl Hmem]].
  pose proof (relink_chain _ (edges g) _ l (S (length (edges g))) new_key Hl ltac:(lia)) as Hr.
  assert (Hedges : forall i, relabel (edges g) l new_key !! i =
     (fun e => if decide (from e = old) then set_from e new_key else e) <$> edges g !! i).
  { intros i. rewrite relabel_lookup. destruct (edges g !! i) as [e|] eqn:Hi; simpl; [|reflexivity].
    f_equal. destruct (decide (from e = old)) as [Hf|Hf].
    - rewrite bool_decide_eq_true_2; [reflexivity|]. apply Hmem. eauto.
    - rewrite bool_decide_eq_false_2; [reflexivity|]. rewrite Hmem.
      intros [e' [He' Hf']]. congruence. }
  eexists. split.
  { unfold split_node. rewrite Hold. cbn -[relink_outgoing]. rewrite Hs.
    cbn -[relink_outgoing]. unfold add_node. cbn -[relink_outgoing].
    rewrite (lookup_insert_ne (nodes g) old new_key) by exact Hne. rewrite Hnew.
    cbn -[relink_outgoing]. rewrite lookup_insert_eq. cbn -[relink_outgoing].
    rewrite Hr. reflexivity. }
  simpl. split; [|split; [|split; [|split]]].
  - exact Hedges.
  - rewrite lookup_insert_ne by congruence. rewrite lookup_insert_ne by congruence.
    rewrite lookup_insert_eq. reflexivity.
  - rewrite lookup_insert_eq. reflexivity.
  - intros k Hk1 Hk2. rewrite !lookup_insert_ne by congruence. reflexivity.
  - exists l. split; [|exact Hmem].
    rewrite length_relabel. rewrite <- Hl. symmetry. apply out_chain_ext.
    intros j. rewrite Hedges. destruct (edges g !! j) as [e|]; simpl; [|reflexivity].
    destruct (decide (from e = old)); reflexivity.
Qed.

(** Lists built by the public constructors are well formed. *)
Lemma out_lists_wf_new : out_lists_wf (@graph_new N E).
Proof.
  split.
  - intros i e. simpl. rewrite lookup_nil. discriminate.
  - intros k nd. simpl. rewrite lookup_empty. discriminate.
Qed.

Lemma out_chain_app (f : nat) : forall (es es2 : list (Edge E)) c l,
  out_chain f es c = Some l -> out_chain f (es ++ es2) c = Some l.
Proof.
  induction f as [|f IH]; intros es es2 c l H; destruct c as [i|]; simpl in *; auto.
  destruct (es !! i) as [e|] eqn:Hi; simpl in H; [|discriminate].
  rewrite (lookup_app_l_Some _ _ _ _ Hi). simpl.
  destruct (out_chain f es (edge_next_outgoing e)) as [l'|] eqn:Hl; simpl in H;
    [|discriminate].
  rewrite (IH _ _ _ _ Hl). exact H.
Qed.

Lemma out_chain_mono (f : nat) : forall f' (es : list (Edge E)) c l,
  out_chain f es c = Some l -> (f <= f')%nat -> out_chain f' es c = Some l.
Proof.
  induction f as [|f IH]; intros f' es c l H Hf.
  - destruct c; simpl in *; [discriminate|]. destruct f'; exact H.
  - destruct c as [i|]; [|destruct f'; exact H].
    destruct f' as [|f']; [lia|]. simpl in *.
    destruct (es !! i) as [e|]; simpl in *; [|discriminate].
    destruct (out_chain f es (edge_next_outgoing e)) as [l'|] eqn:Hl; simpl in H;
      [|discriminate].
    rewrite (IH f' _ _ _ Hl ltac:(lia)). exact H.
Qed.

Lemma out_lists_wf_add_node (g : Graph N E) index w :
  out_lists_wf g -> nodes g !! index = None -> out_lists_wf (add_node g index w).2.
Proof.
  intros [Hsrc Hwf] Hn. split.
  - intros i e He. simpl. rewrite lookup_insert.
    destruct (decide (index = from e)); [eauto|]. exact (Hsrc i e He).
  - intros k nd. simpl. rewrite lookup_insert.
    destruct (decide (index = k)) as [<-|Hk].
    + intros [= <-]. exists []. split; [simpl; destruct (length (edges g)); reflexivity|]. intros i. split.
      * intros Hin. inversion Hin.
      * intros [e [He Hf]]. destruct (Hsrc i e He) as [? Hs]. congruence.
    + apply Hwf.
Qed.

Lemma lookup_snoc_Some (es : list (Edge E)) x i e :
  (es ++ [x]) !! i = Some e <-> es !! i = Some e \/ (i = length es /\ e = x).
Proof.
  rewrite lookup_app_Some. rewrite list_lookup_singleton_Some.
  split.
  - intros [H|[Hge [Hi He]]]; [left; exact H|right; split; [lia|congruence]].
  - intros [H|[-> ->]]; [left; exact H|right; split; [lia|split; [lia|reflexivity]]].
Qed.

Lemma out_lists_wf_add_edge (g g' : Graph N E) w fr t i :
  out_lists_wf g -> add_edge g w fr t = Ok (i, g') -> out_lists_wf g'.
Proof.
  intros [Hsrc Hwf] H. pose proof H as Hkeys. apply add_edge_nodes in Hkeys as [_ Hkeys].
  unfold add_edge in H.
  apply bind_Ok_inv in H as [fn [Hf H]]. apply unwrap_Ok in Hf.
  apply bind_Ok_inv in H as [tn [Ht H]]. apply unwrap_Ok in Ht.
  injection H as <- Hg'.
  assert (Hes : edges g' = edges g ++
            [mkEdge w fr t (next_outgoing_edge fn) (next_incoming_edge tn)])
    by (rewrite <- Hg'; reflexivity).
  assert (Hns : nodes g' = <[t := mkNode (weight tn) (next_outgoing_edge tn)
                   (Some (length (edges g)))]>
                (<[fr := mkNode (weight fn) (Some (length (edges g)))
                   (next_incoming_edge fn)]> (nodes g))) by (rewrite <- Hg'; reflexivity).
  clear Hg'. split.
  - intros j e. rewrite Hes, lookup_snoc_Some. intros [He|[_ ->]].
    + apply Hkeys. exact (Hsrc j e He).
    + apply Hkeys. simpl. eauto.
  - intros k nd Hk. rewrite Hes, length_app. simpl.
    assert (Hhead : next_outgoing_edge nd =
              (if decide (k = fr) then Some (length (edges g))
               else match nodes g !! k with Some n0 => next_outgoing_edge n0 | None => None end)
            /\ is_Some (nodes g !! k)).
    { rewrite Hns in Hk. rewrite lookup_insert in Hk. rewrite lookup_insert in Ht.
      destruct (decide (t = k)) as [<-|Htk].
      - injection Hk as <-. simpl. destruct (decide (fr = t)) as [<-|Hft].
        + injection Ht as <-. simpl. rewrite decide_True by reflexivity. eauto.
        + rewrite decide_False by congruence. rewrite Ht. eauto.
      - rewrite lookup_insert in Hk. destruct (decide (fr = k)) as [<-|Hfk].
        + injection Hk as <-. simpl. rewrite decide_True by reflexivity. eauto.
        + rewrite decide_False by congruence. rewrite Hk. eauto. }
    destruct Hhead as [Hhead [nk Hnk]].
    destruct (Hwf k nk Hnk) as [l [Hl Hmem]].
    destruct (decide (k = fr)) as [->|Hkf].
    + rewrite Hf in Hnk. injection Hnk as <-.
      exists (length (edges g) :: l). split.
      * rewrite Hhead.
        replace (length (edges g) + 1)%nat with (S (length (edges g))) by lia.
        simpl. rewrite lookup_app_r, Nat.sub_diag by lia. simpl.
        rewrite (out_chain_app _ _ _ _ _ Hl). reflexivity.
      * intros j. rewrite elem_of_cons, Hmem. setoid_rewrite lookup_snoc_Some. split.
        -- intros [->|[e [He Hfe]]].
           ++ eexists. split; [right; split; reflexivity|reflexivity].
           ++ eexists. split; [left; exact He|exact Hfe].
        -- intros [e [[He|[-> ->]] Hfe]]; [right; eauto|left; reflexivity].
    + rewrite Hnk in Hhead. exists l. split.
      * rewrite Hhead. eapply out_chain_mono; [apply out_chain_app; exact Hl | lia].
      * intros j. rewrite Hmem. setoid_rewrite lookup_snoc_Some. split.
        -- intros [e [He Hfe]]. eauto.
        -- intros [e [[He|[-> ->]] Hfe]]; [eauto|simpl in Hfe; congruence].
Qed.

End SplitEdges.

Lemma self_loop_graph_wf : out_lists_wf self_loop_graph.
Proof.
  apply (out_lists_wf_add_edge (add_node graph_new 0 [1; 2]).2 self_loop_graph
           BranchKind.Loop 0 0 0).
  - apply out_lists_wf_add_node; [apply out_lists_wf_new | reflexivity].
  - reflexivity.
Qed.

Lemma split_node_edges_witness :
  exists g', split_node self_loop_graph 0 1 (block_split 1) = Ok (1, g') /\
    (forall i, edges g' !! i =
       (fun e => if decide (from e = 0) then set_from e 1 else e) <$> edges self_loop_graph !! i) /\
    nodes g' !! 0 = Some (mkNode [1] None (Some 0%nat)) /\
    nodes g' !! 1 = Some (mkNode [2] (Some 0%nat) None) /\
    (forall k, k <> 0 -> k <> 1 -> nodes g' !! k = nodes self_loop_graph !! k) /\
    (exists l, out_chain (length (edges g')) (edges g') (Some 0%nat) = Some l /\
       forall i, i ∈ l <-> exists e, edges self_loop_graph !! i = Some e /\ from e = 0).
Proof.
  apply (split_node_edges self_loop_graph 0 1 (block_split 1)
           (mkNode [1; 2] (Some 0%nat) (Some 0%nat)) [1] [2]).
  - exact self_loop_graph_wf.
  - reflexivity.
  - reflexivity.
  - reflexivity.
Defined.

(** Splitting the self-loop block at 1 rewrites the source of its edge,
    an incoming edge of the old node, from 0 to 1. *)
Lemma split_self_loop :
  edges self_loop_graph = [mkEdge BranchKind.Loop 0 0 None None] /\
  (fun r => match r with Ok (_, g) => Some (edges g) | _ => None end)
    (split_node self_loop_graph 0 1 (block_split 1)) =
  Some [mkEdge BranchKind.Loop 1 0 None None].
Proof. split; reflexivity. Qed.

(** * Further properties of the graph, reader and lifter *)

Section EdgeLists.
Context {N E : Type}.
Implicit Types g : Graph N E.

Lemma collect_edges_mono (sel : Edge E -> option nat) (f : nat) :
  forall es cur l f' es',
  collect_edges sel f es cur = Ok l -> (f <= f')%nat ->
  (forall j ed, es !! j = Some ed -> es' !! j = Some ed) ->
  collect_edges sel f' es' cur = Ok l.
Proof.
  induction f as [|f IH]; intros es cur l f' es' H Hf Hes;
    (destruct cur as [idx|]; [|simpl in H; injection H as <-; destruct f'; reflexivity]);
    simpl in H; [discriminate|].
  destruct f' as [|f']; [lia|]. simpl.
  apply bind_Ok_inv in H as [ed [Hu H]]. apply unwrap_Ok in Hu.
  apply bind_Ok_inv in H as [l' [Hc H]]. injection H as <-.
  rewrite (Hes _ _ Hu). simpl. erewrite IH; [reflexivity|exact Hc|lia|exact Hes].
Qed.

Lemma lookup_app_l_Some {A} (l : list A) (x : A) j a :
  l !! j = Some a -> (l ++ [x]) !! j = Some a.
Proof. intros H. rewrite lookup_app_l; [exact H|]. apply lookup_lt_Some in H. exact H. Qed.

Lemma collect_edges_step (sel : Edge E -> option nat) f es i :
  collect_edges sel (S f) es (Some i) =
  (ed ← unwrap (es !! i); l ← collect_edges sel f es (sel ed); Ok (i :: l)).
Proof. reflexivity. Qed.

Lemma add_node_outputs_new g index w :
  outputs (add_node g index w).2 index = Ok [] /\ inputs (add_node g index w).2 index = Ok [].
Proof. unfold outputs, inputs, add_node. simpl. rewrite lookup_insert_eq. split; reflexivity. Qed.

Lemma outputs_eq g k nd :
  nodes g !! k = Some nd ->
  outputs g k = collect_edges edge_next_outgoing (S (length (edges g))) (edges g)
                  (next_outgoing_edge nd).
Proof. intros H. unfold outputs. rewrite H. reflexivity. Qed.

Lemma inputs_eq g k nd :
  nodes g !! k = Some nd ->
  inputs g k = collect_edges edge_next_incoming (S (length (edges g))) (edges g)
                  (next_incoming_edge nd).
Proof. intros H. unfold inputs. rewrite H. reflexivity. Qed.

Lemma outputs_node g k l : outputs g k = Ok l -> exists nd, nodes g !! k = Some nd.
Proof.
  unfold outputs. destruct (nodes g !! k) as [nd|]; simpl; [eauto|discriminate].
Qed.

Lemma inputs_node g k l : inputs g k = Ok l -> exists nd, nodes g !! k = Some nd.
Proof.
  unfold inputs. destruct (nodes g !! k) as [nd|]; simpl; [eauto|discriminate].
Qed.

Lemma collect_edges_snoc (sel : Edge E -> option nat) f es e cur l :
  collect_edges sel f es cur = Ok l -> collect_edges sel (S f) (es ++ [e]) cur = Ok l.
Proof.
  intros H. eapply collect_edges_mono; [exact H|lia|]. intros. apply lookup_app_l_Some. assumption.
Qed.

Lemma collect_edges_push (sel : Edge E -> option nat) f es e cur l :
  collect_edges sel f es cur = Ok l -> sel e = cur ->
  collect_edges sel (S f) (es ++ [e]) (Some (length es)) = Ok (length es :: l).
Proof.
  intros H He. rewrite collect_edges_step, lookup_app_r, Nat.sub_diag by lia.
  cbn [unwrap mbind Res_bind lookup list_lookup]. rewrite He.
  erewrite collect_edges_mono; [reflexivity|exact H|lia|].
  intros. apply lookup_app_l_Some. assumption.
Qed.

(** X1: When add_edge(w, from, to) succeeds, the new edge gets index len(edges) and points to `to`. It becomes the first edge of `from`'s outputs list and of `to`'s inputs list, and the outputs of every other node and the inputs of every other node are unchanged. *)
Lemma add_edge_outputs_inputs g w fr t i g' lo li :
  add_edge g w fr t = Ok (i, g') ->
  outputs g fr = Ok lo -> inputs g t = Ok li ->
  i = length (edges g) /\ edge_to g' i = Ok t /\
  outputs g' fr = Ok (i :: lo) /\ inputs g' t = Ok (i :: li) /\
  (forall k l, k <> fr -> outputs g k = Ok l -> outputs g' k = Ok l) /\
  (forall k l, k <> t -> inputs g k = Ok l -> inputs g' k = Ok l).
Proof.
  unfold add_edge. intros H Ho Hi.
  apply bind_Ok_inv in H as [fn [Hf H]]. apply unwrap_Ok in Hf.
  apply bind_Ok_inv in H as [tn [Ht H]]. apply unwrap_Ok in Ht.
  injection H as <- <-.
  rewrite (outputs_eq _ _ _ Hf) in Ho.
  rewrite lookup_insert in Ht.
  split; [reflexivity|].
  split; [unfold edge_to; cbn [edges]; rewrite lookup_app_r, Nat.sub_diag by lia; reflexivity|].
  split; [|split; [|split]].
  - destruct (decide (fr = t)) as [<-|Hft].
    + injection Ht as <-.
      rewrite (outputs_eq _ fr (mkNode (weight fn) (Some (length (edges g))) (Some (length (edges g)))))
        by (cbn [nodes]; rewrite lookup_insert_eq; reflexivity).
      cbn [next_outgoing_edge edges]. rewrite length_app; cbn [length]. rewrite Nat.add_1_r.
      eapply collect_edges_push; [exact Ho|reflexivity].
    + rewrite (outputs_eq _ fr (mkNode (weight fn) (Some (length (edges g))) (next_incoming_edge fn)))
        by (cbn [nodes]; rewrite lookup_insert_ne, lookup_insert_eq by congruence; reflexivity).
      cbn [next_outgoing_edge edges]. rewrite length_app; cbn [length]. rewrite Nat.add_1_r.
      eapply collect_edges_push; [exact Ho|reflexivity].
  - rewrite (inputs_eq _ t (mkNode (weight tn) (next_outgoing_edge tn) (Some (length (edges g)))))
      by (cbn [nodes]; rewrite lookup_insert_eq; reflexivity).
    cbn [next_incoming_edge edges]. rewrite length_app; cbn [length]. rewrite Nat.add_1_r.
    destruct (inputs_node _ _ _ Hi) as [ti Hti]. rewrite (inputs_eq _ _ _ Hti) in Hi.
    eapply collect_edges_push; [exact Hi|]. cbn [edge_next_incoming].
    destruct (decide (fr = t)) as [<-|Hft].
    + injection Ht as <-. rewrite Hf in Hti. injection Hti as <-. reflexivity.
    + rewrite Ht in Hti. injection Hti as <-. reflexivity.
  - intros k l Hk Hok. destruct (outputs_node _ _ _ Hok) as [nk Hnk].
    rewrite (outputs_eq _ _ _ Hnk) in Hok.
    destruct (decide (t = k)) as [<-|Htk].
    + rewrite decide_False in Ht by congruence. rewrite Ht in Hnk. injection Hnk as <-.
      rewrite (outputs_eq _ t (mkNode (weight tn) (next_outgoing_edge tn) (Some (length (edges g)))))
        by (cbn [nodes]; rewrite lookup_insert_eq; reflexivity).
      cbn [next_outgoing_edge edges]. rewrite length_app; cbn [length]. rewrite Nat.add_1_r.
      apply collect_edges_snoc. exact Hok.
    + rewrite (outputs_eq _ k nk)
        by (cbn [nodes]; rewrite !lookup_insert_ne by congruence; exact Hnk).
      cbn [edges]. rewrite length_app; cbn [length]. rewrite Nat.add_1_r.
      apply collect_edges_snoc. exact Hok.
  - intros k l Hk Hok. destruct (inputs_node _ _ _ Hok) as [nk Hnk].
    rewrite (inputs_eq _ _ _ Hnk) in Hok.
    destruct (decide (fr = k)) as [<-|Hfk].
    + rewrite (inputs_eq _ fr (mkNode (weight fn) (Some (length (edges g))) (next_incoming_edge fn)))
        by (cbn [nodes]; rewrite lookup_insert_ne, lookup_insert_eq by congruence; reflexivity).
      cbn [next_incoming_edge edges]. rewrite length_app; cbn [length]. rewrite Nat.add_1_r.
      rewrite Hf in Hnk. injection Hnk as <-. apply collect_edges_snoc. exact Hok.
    + rewrite (inputs_eq _ k nk)
        by (cbn [nodes]; rewrite !lookup_insert_ne by congruence; exact Hnk).
      cbn [edges]. rewrite length_app; cbn [length]. rewrite Nat.add_1_r.
      apply collect_edges_snoc. exact Hok.
Qed.

End EdgeLists.


Section DfsFacts.
Context {N E : Type}.
Implicit Types g : Graph N E.

Lemma push_successors_app g disc es : forall stk stk',
  push_successors g disc es stk = Ok stk' ->
  exists ch, stk' = stk ++ ch /\ forall y, y ∈ ch -> y ∉ disc.
Proof.
  induction es as [|e es IH]; intros stk stk' H; simpl in H.
  - injection H as <-. exists []. split; [rewrite app_nil_r; reflexivity|]. intros y Hy. inversion Hy.
  - apply bind_Ok_inv in H as [nid [_ H]]. apply IH in H as [ch [-> Hch]].
    case_bool_decide.
    + exists ch. split; [reflexivity|exact Hch].
    + exists (nid :: ch). split; [rewrite <- app_assoc; reflexivity|].
      intros y Hy. apply elem_of_cons in Hy as [->|Hy]; auto.
Qed.

Lemma dfs_next_sets (fuel : nat) : forall g st o st',
  dfs_sets_ok g st -> dfs_next fuel g st = Ok (o, st') ->
  dfs_sets_ok g st' /\
  match o with
  | None => finished st' = finished st
  | Some x => (x ∉ finished st) /\ finished st' = {[x]} ∪ finished st /\ (x ∈ discovered st')
  end.
Proof.
  induction fuel as [|fuel IH]; intros g st o st' [Hd Hf] H; simpl in H; [discriminate|].
  destruct (last (stack st)) as [nx|] eqn:Hl.
  - case_bool_decide as Hnd.
    + case_bool_decide as Hnf.
      * apply IH in H as [Hok Ho]; [|split; assumption]. split; [exact Hok|].
        destruct o; exact Ho.
      * injection H as <- <-. split; [split|split; [|split]]; simpl; auto; set_solver.
    + apply bind_Ok_inv in H as [es [Hes H]]. apply bind_Ok_inv in H as [stk [_ H]].
      apply outputs_node in Hes as [nd Hnode].
      apply IH in H as [Hok Ho].
      * split; [exact Hok|]. destruct o; simpl in Ho; [|exact Ho].
        destruct Ho as (Hx & Hfin & Hxd). simpl in Hx. split; [exact Hx|split; assumption].
      * split; simpl.
        -- intros y Hy. apply elem_of_union in Hy as [Hy|Hy]; [|auto].
           apply elem_of_singleton in Hy as ->. eauto.
        -- set_solver.
  - injection H as <- <-. split; [split; assumption|reflexivity].
Qed.

Lemma last_cons_snoc (x y : Z) r : last (x :: r ++ [y]) = Some y.
Proof. rewrite app_comm_cons. apply last_snoc. Qed.

Lemma removelast_cons_snoc (x y : Z) r : removelast (x :: r ++ [y]) = x :: r.
Proof. rewrite app_comm_cons, removelast_app by discriminate. simpl. rewrite app_nil_r. reflexivity. Qed.

Lemma dfs_next_root (fuel : nat) : forall g start st o st',
  dfs_root_below start st -> dfs_next fuel g st = Ok (o, st') ->
  (exists x, o = Some x /\ x <> start /\ dfs_root_below start st') \/
  (o = Some start /\ stack st' = []).
Proof.
  induction fuel as [|fuel IH]; intros g start st o st' (Hsf & r & Hst & Hsr & Hrd) H;
    simpl in H; [discriminate|].
  rewrite Hst in H.
  destruct r as [|y r' _] using rev_ind.
  - simpl in H. case_bool_decide as Hnd.
    + rewrite bool_decide_false in H by exact Hsf. injection H as <- <-. right. split; reflexivity.
    + apply bind_Ok_inv in H as [es [_ H]]. apply bind_Ok_inv in H as [stk [Hp H]].
      apply push_successors_app in Hp as [ch [-> Hch]].
      eapply IH; [|exact H]. split; [exact Hsf|]. exists ch. simpl. split; [reflexivity|].
      split; [|right; set_solver]. intros Hin. apply (Hch _ Hin). set_solver.
  - rewrite last_cons_snoc in H.
    assert (Hys : y <> start) by (intros ->; apply Hsr; set_solver).
    assert (Hsr' : start ∉ r') by (intros Hin; apply Hsr; set_solver).
    assert (Hsd : start ∈ discovered st).
    { destruct Hrd as [Hrd|Hrd]; [|exact Hrd]. exfalso. destruct r'; discriminate. }
    case_bool_decide as Hnd.
    + rewrite removelast_cons_snoc in H. case_bool_decide as Hnf.
      * eapply IH; [|exact H]. split; [exact Hsf|]. exists r'. simpl. auto.
      * injection H as <- <-. left. exists y. split; [reflexivity|]. split; [exact Hys|].
        split; [simpl; set_solver|]. exists r'. simpl. auto.
    + apply bind_Ok_inv in H as [es [_ H]]. apply bind_Ok_inv in H as [stk [Hp H]].
      apply push_successors_app in Hp as [ch [-> Hch]].
      eapply IH; [|exact H]. split; [exact Hsf|]. exists ((r' ++ [y]) ++ ch). simpl.
      split; [reflexivity|]. split; [|right; set_solver].
      intros Hin. apply elem_of_app in Hin as [Hin|Hin]; [contradiction|].
      apply (Hch _ Hin). set_solver.
Qed.

Lemma dfs_next_empty (fuel : nat) g st :
  stack st = [] -> dfs_next (S fuel) g st = Ok (None, st).
Proof. intros H. simpl. rewrite H. reflexivity. Qed.

Lemma post_order_loop_spec (fuel : nat) : forall g start dfs post preds l p,
  dfs_sets_ok g dfs -> list_to_set post = finished dfs -> NoDup post ->
  ((dfs_root_below start dfs /\ (start ∉ post)) \/ (stack dfs = [] /\ last post = Some start)) ->
  post_order_loop fuel g dfs post preds = Ok (l, p) ->
  NoDup l /\ (forall x, x ∈ l -> is_Some (nodes g !! x)) /\ last l = Some start.
Proof.
  induction fuel as [|fuel IH]; intros g start dfs post preds l p Hok Hset Hnd Hph H;
    cbn [post_order_loop] in H; [discriminate|].
  apply bind_Ok_inv in H as [[o dfs'] [Hn H]].
  pose proof (dfs_next_sets _ _ _ _ _ Hok Hn) as [Hok' Ho].
  destruct Hph as [[Hroot Hsp]|[Hemp Hlast]].
  - pose proof (dfs_next_root _ _ _ _ _ _ Hroot Hn) as [[x [-> [Hxs Hr']]]|[-> Hemp']].
    + destruct Ho as (Hxf & Hfin & Hxd).
      apply bind_Ok_inv in H as [es [_ H]]. apply bind_Ok_inv in H as [preds' [_ H]].
      eapply IH; [exact Hok'| | | |exact H].
      * rewrite list_to_set_app_L, Hfin, Hset. simpl. set_solver.
      * apply NoDup_app. split; [exact Hnd|]. split; [|apply NoDup_singleton].
        intros y Hy Hy'. apply list_elem_of_singleton in Hy' as ->. apply Hxf.
        rewrite <- Hset. apply elem_of_list_to_set. exact Hy.
      * left. split; [exact Hr'|]. intros Hin. apply elem_of_app in Hin as [Hin|Hin]; [contradiction|].
        apply list_elem_of_singleton in Hin. congruence.
    + destruct Ho as (Hxf & Hfin & Hxd).
      apply bind_Ok_inv in H as [es [_ H]]. apply bind_Ok_inv in H as [preds' [_ H]].
      eapply IH; [exact Hok'| | | |exact H].
      * rewrite list_to_set_app_L, Hfin, Hset. simpl. set_solver.
      * apply NoDup_app. split; [exact Hnd|]. split; [|apply NoDup_singleton].
        intros y Hy Hy'. apply list_elem_of_singleton in Hy' as ->. contradiction.
      * right. split; [exact Hemp'|]. apply last_snoc.
  - rewrite (dfs_next_empty _ _ _ Hemp) in Hn. injection Hn as <- <-.
    injection H as <- <-. split; [exact Hnd|]. split; [|exact Hlast].
    intros x Hx. apply (proj1 Hok). apply (proj2 Hok). rewrite <- Hset.
    apply elem_of_list_to_set. exact Hx.
Qed.

End DfsFacts.


Lemma on_dom_chain_trans doms a b c :
  on_dom_chain doms a b -> on_dom_chain doms b c -> on_dom_chain doms a c.
Proof. induction 1; intros; [assumption|]. econstructor; eauto. Qed.

Lemma on_dom_chain_linear doms x a b :
  on_dom_chain doms x a -> on_dom_chain doms x b ->
  on_dom_chain doms a b \/ on_dom_chain doms b a.
Proof.
  intros Ha. revert b. induction Ha as [x|x d a Hd Ha IH]; intros b Hb; [left; exact Hb|].
  inversion Hb as [|x' d' b' Hd' Hb']; subst.
  - right. econstructor; eauto.
  - rewrite Hd in Hd'. injection Hd' as <-. apply IH. exact Hb'.
Qed.

Section Intersect.
Variables (dominators : list nat) (P : nat -> Prop) (root : nat).
Hypothesis Hroot : dominators !! root = Some root.
Hypothesis Hup : forall i, P i -> (i < root)%nat ->
  exists d, dominators !! i = Some d /\ (i < d)%nat /\ (d <= root)%nat /\ P d.

Lemma on_dom_chain_up x c :
  P x -> (x <= root)%nat -> on_dom_chain dominators x c ->
  (x <= c)%nat /\ (c <= root)%nat /\ P c.
Proof.
  intros Hx Hxr H. revert Hx Hxr. induction H as [x|x d y Hd H IH]; intros Hx Hxr; [auto|].
  destruct (decide (x < root)%nat) as [Hlt|Hge].
  - destruct (Hup x Hx Hlt) as [d' [Hd' [Hxd [Hdr HPd]]]]. rewrite Hd in Hd'. injection Hd' as <-.
    destruct (IH HPd Hdr) as (Hdy & Hyr & Py). split; [lia|]. auto.
  - assert (x = root) by lia. subst x. rewrite Hroot in Hd. injection Hd as <-.
    destruct (IH Hx Hxr) as (Hdy & Hyr & Py). auto.
Qed.

Lemma intersect_loop f1 f2 (fuel : nat) :
  P f1 -> P f2 -> (f1 <= root)%nat -> (f2 <= root)%nat -> forall x y,
  P x -> P y -> (x <= root)%nat -> (y <= root)%nat ->
  on_dom_chain dominators f1 x -> on_dom_chain dominators f2 y ->
  (forall c, on_dom_chain dominators f1 c -> on_dom_chain dominators f2 c ->
     (x <= c)%nat /\ (y <= c)%nat) ->
  ((root - x) + (root - y) < fuel)%nat ->
  exists r, intersect fuel dominators x y = Ok r /\
    on_dom_chain dominators f1 r /\ on_dom_chain dominators f2 r /\
    forall c, on_dom_chain dominators f1 c -> on_dom_chain dominators f2 c -> (r <= c)%nat.
Proof.
  intros Pf1 Pf2 Hf1 Hf2.
  (* one step of the smaller finger keeps every common element above it *)
  assert (Hstep : forall f o x d, P f -> (f <= root)%nat -> on_dom_chain dominators f x ->
            dominators !! x = Some d -> (x < o)%nat ->
            forall c, on_dom_chain dominators f c -> (o <= c)%nat -> (d <= c)%nat).
  { intros f o x d Pf Hf Hx Hd Hxo c Hc Hoc.
    destruct (on_dom_chain_linear _ _ _ _ Hx Hc) as [Hxc|Hcx].
    - inversion Hxc as [|x' d' c' Hd' Hdc]; subst; [lia|].
      rewrite Hd in Hd'. injection Hd' as <-.
      destruct (on_dom_chain_up f x Pf Hf Hx) as (_ & Hxr & Px).
      destruct (decide (x < root)%nat) as [Hlt|Hge].
      + destruct (Hup x Px Hlt) as [d' [Hd' [_ [Hdr Pd]]]]. rewrite Hd in Hd'. injection Hd' as <-.
        apply (on_dom_chain_up d c Pd Hdr Hdc).
      + assert (x = root) by lia. subst x. rewrite Hroot in Hd. injection Hd as <-.
        apply (on_dom_chain_up root c Px Hxr Hdc).
    - destruct (on_dom_chain_up f c Pf Hf Hc) as (_ & Hcr & Pc).
      destruct (on_dom_chain_up c x Pc Hcr Hcx). lia. }
  induction fuel as [|fuel IH]; intros x y Px Py Hx Hy Cx Cy Hmin Hfuel; [lia|].
  simpl. destruct (Nat.compare_spec x y) as [<-|Hlt|Hgt].
  - exists x. repeat split; auto. intros c H1 H2. apply (Hmin c H1 H2).
  - destruct (Hup x Px ltac:(lia)) as [d [Hd [Hxd [Hdr Pd]]]]. rewrite Hd. simpl.
    apply IH; auto; [| |lia].
    + eapply on_dom_chain_trans; [exact Cx|]. econstructor; [exact Hd|constructor].
    + intros c H1 H2. destruct (Hmin c H1 H2) as [_ Hyc]. split; [|exact Hyc].
      eapply (Hstep f1 y x d); eauto.
  - destruct (Hup y Py ltac:(lia)) as [d [Hd [Hyd [Hdr Pd]]]]. rewrite Hd. simpl.
    apply IH; auto; [| |lia].
    + eapply on_dom_chain_trans; [exact Cy|]. econstructor; [exact Hd|constructor].
    + intros c H1 H2. destruct (Hmin c H1 H2) as [Hxc _]. split; [exact Hxc|].
      eapply (Hstep f2 x y d); eauto.
Qed.

End Intersect.

Lemma lifter_step_refl l : lifter_step l l.
Proof. split; [|auto]. intros i vi H. exists vi. repeat split; auto; lia. Qed.

Lemma lifter_step_trans l1 l2 l3 : lifter_step l1 l2 -> lifter_step l2 l3 -> lifter_step l1 l3.
Proof.
  intros [K1 N1] [K2 N2]. split; [|auto].
  intros i vi H. destruct (K1 i vi H) as (v2 & H2 & E1 & T1 & U1 & C1).
  destruct (K2 i v2 H2) as (v3 & H3 & E2 & T2 & U2 & C2).
  exists v3. repeat split; congruence || lia.
Qed.

Lemma lifter_step_multres l m : lifter_step l (mkLifter (slots l) m).
Proof. split; [|auto]. intros i vi H. exists vi. repeat split; auto; lia. Qed.

Lemma var_for_slot_step l i t u v l' :
  var_for_slot l i t u = Ok (v, l') -> lifter_step l l' /\ is_Some (slots l' !! i).
Proof.
  unfold var_for_slot. destruct (slots l !! i) as [vi|] eqn:Hi.
  - destruct (decide _); [discriminate|]. intros [= <- <-]. cbn [slots].
    rewrite lookup_insert_eq. split; [|eauto]. split.
    + intros j vj Hj; cbn [slots] in *. destruct (decide (i = j)) as [<-|Hne].
      * rewrite Hi in Hj. injection Hj as <-.
        eexists. split; [apply lookup_insert_eq|]. repeat split; simpl; auto; lia.
      * rewrite lookup_insert_ne by exact Hne. exists vj. repeat split; auto; lia.
    + intros Hn j vj Hj; unfold slot_names_ok in *; cbn [slots] in *. destruct (decide (i = j)) as [<-|Hne].
      * rewrite lookup_insert_eq in Hj. injection Hj as <-. simpl. exact (Hn i vi Hi).
      * rewrite lookup_insert_ne in Hj by exact Hne. exact (Hn j vj Hj).
  - intros [= <- <-]. cbn [slots]. rewrite lookup_insert_eq. split; [|eauto]. split.
    + intros j vj Hj; cbn [slots] in *. destruct (decide (i = j)) as [<-|Hne]; [congruence|].
      rewrite lookup_insert_ne by exact Hne. exists vj. repeat split; auto; lia.
    + intros Hn j vj Hj; unfold slot_names_ok in *; cbn [slots] in *. destruct (decide (i = j)) as [<-|Hne].
      * rewrite lookup_insert_eq in Hj. injection Hj as <-. reflexivity.
      * rewrite lookup_insert_ne in Hj by exact Hne. exact (Hn j vj Hj).
Qed.

Lemma push_slots_step (n : nat) : forall idx l ret ret' l',
  push_slots n idx l ret = Ok (ret', l') ->
  lifter_step l l' /\ forall i, idx <= i < idx + Z.of_nat n -> is_Some (slots l' !! i).
Proof.
  induction n as [|n IH]; intros idx l ret ret' l' H; simpl in H.
  - injection H as <- <-. split; [apply lifter_step_refl|]. intros; lia.
  - apply bind_Ok_inv in H as [[v l1] [Hv H]]. cbv beta iota in H.
    apply var_for_slot_step in Hv as [S1 Hi1].
    apply IH in H as [S2 Hi2]. split; [eapply lifter_step_trans; eauto|].
    intros i Hi. destruct (decide (i = idx)) as [->|Hne]; [|apply Hi2; lia].
    destruct Hi1 as [vi Hvi]. destruct (proj1 S2 idx vi Hvi) as (vi' & Hvi' & _). eauto.
Qed.

Lemma call_args_step (n : nat) : forall idx b l ret args r l',
  call_args n idx b l ret args = Ok (r, l') -> lifter_step l l'.
Proof.
  induction n as [|n IH]; intros idx b l ret args r l' H; simpl in H.
  - injection H as <- <-. apply lifter_step_refl.
  - destruct (decide (b = 0)).
    + apply bind_Ok_inv in H as [[v l1] [Hv H]]. cbv beta iota in H.
      apply var_for_slot_step in Hv as [S1 _]. eapply lifter_step_trans; eauto.
    + eauto.
Qed.

Lemma analyze_call_step l a b c insn l' :
  analyze_call l a b c = Ok (insn, l') ->
  lifter_step l l' /\ multres l' = (if decide (b = 0 /\ c > 1) then c - 1 else multres l).
Proof.
  unfold analyze_call. intros H.
  apply bind_Ok_inv in H as [[ret l1] [H1 H]]. cbv beta iota in H.
  apply bind_Ok_inv in H as [[ra l2] [H2 H]]. destruct ra as [rets args].
  injection H as _ <-.
  assert (S1 : lifter_step l l1 /\ multres l1 = multres l).
  { destruct (decide (b <> 0)).
    - split; [eapply push_slots_step; eauto|]. eapply push_slots_ok; eauto.
    - injection H1 as _ <-. split; [apply lifter_step_refl|reflexivity]. }
  destruct S1 as [S1 M1].
  destruct (decide (c > 1)) as [Hc|Hc].
  - pose proof (call_args_ok _ _ _ _ _ _ _ _ _ H2) as (_ & _ & M2).
    apply call_args_step in H2.
    destruct (decide (b = 0)) as [Hb|Hb].
    + split.
      * eapply lifter_step_trans; [exact S1|]. eapply lifter_step_trans; [apply lifter_step_multres|exact H2].
      * rewrite M2. simpl. rewrite decide_True by lia. reflexivity.
    + split; [eapply lifter_step_trans; eauto|]. rewrite decide_False by lia. congruence.
  - injection H2 as <- <- <-. split; [exact S1|]. rewrite decide_False by lia. exact M1.
Qed.

Lemma set_var_step l a t u e ins l' :
  set_var l a t u e = Ok (ins, l') -> lifter_step l l' /\ multres l' = multres l.
Proof.
  unfold set_var. intros H. apply bind_Ok_inv in H as [[v l1] [Hv H]]. injection H as _ <-.
  pose proof (var_for_slot_ok _ _ _ _ _ _ Hv) as [_ Hm].
  apply var_for_slot_step in Hv as [S1 _]. auto.
Qed.

Ltac lift_inv :=
  repeat match goal with
  | H : Ok _ = Ok _ |- _ => injection H as H; subst
  | H : (_ ≫= _) = Ok _ |- _ =>
      let x := fresh "x" in let Hm := fresh "Hm" in
      apply bind_Ok_inv in H as [x [Hm H]]; cbv beta in H
  | H : context [match ?p with pair _ _ => _ end] |- _ =>
      is_var p; destruct p; cbv beta iota in H
  | H : (if decide ?P then _ else _) = Ok _ |- _ => destruct (decide P)
  | H : Panic = Ok _ |- _ => discriminate H
  | H : set_var _ _ _ _ _ = Ok _ |- _ => apply set_var_step in H as [? ?]
  | H : var_for_slot _ _ _ _ = Ok _ |- _ =>
      let H' := fresh in pose proof (var_for_slot_ok _ _ _ _ _ _ H) as [_ H'];
      apply var_for_slot_step in H as [? _]
  | H : push_slots _ _ _ _ = Ok _ |- _ =>
      let H' := fresh in pose proof (push_slots_ok _ _ _ _ _ _ H) as [_ H'];
      apply push_slots_step in H as [? _]
  end.

Lemma analyze_op_step str l op ins l' :
  analyze_op str l op = Ok (ins, l') ->
  lifter_step l l' /\
  multres l' = match op with
               | CALL _ b c => if decide (b = 0 /\ c > 1) then c - 1 else multres l
               | _ => multres l
               end.
Proof.
  intros H. destruct op; cbn [analyze_op] in H;
    try (apply analyze_call_step in H; exact H);
    lift_inv;
    try (split; [apply lifter_step_refl|reflexivity]);
    try (split; [assumption|assumption]);
    try (split; [eapply lifter_step_trans; eassumption|congruence]).
  all: match goal with H : analyze_call _ _ _ _ = Ok _ |- _ => exact (analyze_call_step _ _ _ _ _ _ H) end.
Qed.

Lemma analyze_block_step str (data : list Z) : forall l insns insns' l',
  analyze_block str l data insns = Ok (insns', l') ->
  lifter_step l l' /\ exists new, insns' = insns ++ new.
Proof.
  induction data as [|w data IH]; intros l insns insns' l' H; simpl in H.
  - injection H as <- <-. split; [apply lifter_step_refl|]. exists []. rewrite app_nil_r. reflexivity.
  - apply bind_Ok_inv in H as [op [_ H]].
    apply bind_Ok_inv in H as [[new l1] [Ho H]]. cbv beta iota in H.
    apply analyze_op_step in Ho as [S1 _].
    apply IH in H as [S2 [new' ->]]. split; [eapply lifter_step_trans; eauto|].
    exists (new ++ new'). rewrite app_assoc. reflexivity.
Qed.

(** X9: Lifting a block succeeds only in a state that keeps every recorded slot. Each slot keeps its name index, table and up_value flags, and its usage count never decreases. Slots named after their key stay so named, and the instructions already emitted are kept as a prefix of the new list. *)
Theorem analyze_block_keeps_slots str l data insns insns' l' :
  analyze_block str l data insns = Ok (insns', l') ->
  slots_kept l l' /\ (slot_names_ok l -> slot_names_ok l') /\ exists new, insns' = insns ++ new.
Proof. intros H. apply analyze_block_step in H as [[K Nm] P]. auto. Qed.

(** X10: The only instruction that changes multres is CALL(a, b, c) with b = 0 and c > 1, which sets it to c - 1. Every other successfully lifted instruction leaves multres unchanged. *)
Theorem analyze_op_multres str l op ins l' :
  analyze_op str l op = Ok (ins, l') ->
  multres l' = match op with
               | CALL _ b c => if decide (b = 0 /\ c > 1) then c - 1 else multres l
               | _ => multres l
               end.
Proof. intros H. apply analyze_op_step in H. apply H. Qed.

(** X11: KNIL(a, b) is lifted only when b > a, and it emits exactly SetVars([a..=b], Nil). Afterwards every slot a..=b is recorded in the lifter. *)
Theorem analyze_knil_spec str l a b ins l' :
  analyze_op str l (KNIL a b) = Ok (ins, l') ->
  b > a /\ ins = [Insn.SetVars (seqZ a (b - a + 1)) Expr.Nil] /\
  forall i, a <= i <= b -> is_Some (slots l' !! i).
Proof.
  cbn [analyze_op]. destruct (decide (b > a)) as [Hba|]; [|discriminate]. intros H.
  apply bind_Ok_inv in H as [[vars l1] [Hp H]]. injection H as <- <-.
  pose proof (push_slots_ok _ _ _ _ _ _ Hp) as [-> _].
  apply push_slots_step in Hp as [_ Hs].
  split; [exact Hba|]. split.
  - rewrite Z2Nat.id by lia. reflexivity.
  - intros i Hi. apply Hs. lia.
Qed.

(** X12: CAT(a, b, c) is lifted only when c > b, and it emits exactly Cat(a, [Var(b)..=Var(c)]). Afterwards slot a is recorded in the lifter. *)
Theorem analyze_cat_spec str l a b c ins l' :
  analyze_op str l (CAT a b c) = Ok (ins, l') ->
  c > b /\ ins = [Insn.Cat a (var_exprs b (c - b + 1))] /\ is_Some (slots l' !! a).
Proof.
  cbn [analyze_op]. destruct (decide (c > b)) as [Hcb|]; [|discriminate]. intros H.
  apply bind_Ok_inv in H as [[v l1] [Hv H]]. injection H as <- <-.
  pose proof (var_for_slot_ok _ _ _ _ _ _ Hv) as [-> _].
  apply var_for_slot_step in Hv as [_ Hs]. auto.
Qed.

(** X13: RET(a, b) panics when b < 2 and otherwise emits Return([Var(a)..=Var(b-2)]). RETM(a, b) panics when b = 0 or a + b < 2 and otherwise emits Return([Var(a)..=Var(b-1)]). Neither changes the lifter state. *)
Theorem analyze_ret_retm str l a b :
  0 <= a -> 0 <= b ->
  analyze_op str l (RET a b) =
    (if decide (b < 2) then Panic else Ok ([Insn.Return (var_exprs a (b - 1 - a))], l)) /\
  analyze_op str l (RETM a b) =
    (if decide (b = 0 \/ a + b < 2) then Panic else Ok ([Insn.Return (var_exprs a (b - a))], l)).
Proof.
  intros Ha Hb. cbn [analyze_op]. unfold sub_u16. split.
  - destruct (decide (b < 2)) as [Hlt|Hge].
    + destruct (decide (a + b - 2 < 0)); [reflexivity|]. simpl.
      rewrite decide_True by lia. reflexivity.
    + rewrite !decide_False by lia. simpl. do 5 f_equal. lia.
  - destruct (decide (b = 0 \/ a + b < 2)) as [Hlt|Hge].
    + destruct (decide (a + b - 2 < 0)); [reflexivity|]. simpl.
      rewrite decide_True by lia. reflexivity.
    + rewrite !decide_False by lia. simpl. do 5 f_equal. lia.
Qed.

(** X14: Let CALL(a, 0, c) with 1 < c be followed by CALLM(a', b', c') with 8-bit operands. The CALLM then emits Call(returns, args): returns are slots a'..a'+b'-2 (empty when b' = 0), and args are Var(a')..Var(a'+b'+c-2), so the multres c-1 set by the CALL is added to the argument count. *)
Theorem analyze_callm_after_call str l a c l1 ins1 a' b' c' l2 ins2 :
  1 < c <= 255 -> 0 <= a' <= 255 -> 0 <= b' <= 255 -> 0 <= c' <= 255 ->
  analyze_op str l (CALL a 0 c) = Ok (ins1, l1) ->
  analyze_op str l1 (CALLM a' b' c') = Ok (ins2, l2) ->
  ins2 = [Insn.Call (if decide (b' = 0) then [] else seqZ a' (b' - 1))
                    (var_exprs a' (b' + c - 1))].
Proof.
  intros Hc Ha' Hb' Hc' H1 H2.
  apply analyze_op_step in H1 as [_ Hm1]. rewrite decide_True in Hm1 by lia.
  cbn [analyze_op] in H2.
  apply bind_Ok_inv in H2 as [[rets l3] [Hr H2]]. cbv beta iota in H2.
  assert (Hrets : rets = (if decide (b' = 0) then [] else seqZ a' (b' - 1)) /\ multres l3 = multres l1).
  { destruct (decide (b' <> 0)) as [Hb|Hb].
    - apply push_slots_ok in Hr as [-> Hm]. rewrite decide_False by congruence.
      simpl. rewrite Z2Nat.id by lia. split; [f_equal; lia|exact Hm].
    - injection Hr as <- <-. rewrite decide_True by lia. auto. }
  destruct Hrets as [-> Hm3]. rewrite Hm3, Hm1 in H2. unfold add_u16 in H2.
  destruct (decide (c' + (c - 1) > 65535)); [lia|]. simpl in H2.
  destruct (decide (c' + (c - 1) > 0)); [|lia].
  destruct (decide (a' + b' + (c - 1) > 65535)); [lia|]. simpl in H2.
  injection H2 as <- _. replace (a' + b' + (c - 1) - a') with (b' + c - 1) by lia. reflexivity.
Qed.


Lemma lor_bound32 (x y : Z) : 0 <= x < 2 ^ 32 -> 0 <= y < 2 ^ 32 -> 0 <= Z.lor x y < 2 ^ 32.
Proof.
  intros Hx Hy. split; [apply Z.lor_nonneg; lia|].
  assert (E : Z.lor x y = Z.land (Z.lor x y) (Z.ones 32)).
  { rewrite Z.land_lor_distr_l, !Z.land_ones by lia. rewrite !Z.mod_small by lia. reflexivity. }
  rewrite E, Z.land_ones by lia. apply Z.mod_pos_bound. lia.
Qed.

Lemma shl32_bound (x s : Z) : 0 <= shl32 x s < 2 ^ 32.
Proof. unfold shl32. rewrite mask32_mod. apply Z.mod_pos_bound. lia. Qed.

Lemma read_uleb128_loop_shape (fuel : nat) : forall r sh s v s',
  0 <= r < 2 ^ 32 -> 0 <= sh ->
  read_uleb128_loop fuel r sh s = Ok (v, s') ->
  0 <= v < 2 ^ 32 /\ exists pre, s = pre ++ s' /\
    (1 <= length pre)%nat /\ (Z.of_nat (length pre) <= (35 - sh) / 7).
Proof.
  induction fuel as [|f IH]; intros r sh s v s' Hr Hsh H; simpl in H; [discriminate|].
  destruct (decide (sh > 28)); [discriminate|].
  apply bind_Ok_inv in H as [[b s1] [Hb H]]. apply read_byte_ok in Hb as ->.
  cbv beta iota in H.
  pose proof (lor_bound32 r (shl32 (Z.land b 127) sh) Hr (shl32_bound _ _)) as Hl.
  destruct (decide (Z.land b 128 = 0)).
  - injection H as <- <-. split; [exact Hl|]. exists [b]. split; [reflexivity|].
    simpl. split; [lia|]. apply Z.div_le_lower_bound; lia.
  - apply IH in H as [Hv [pre [-> [H1 H2]]]]; [|exact Hl|lia]. split; [exact Hv|].
    exists (b :: pre). split; [reflexivity|]. simpl length. split; [lia|].
    replace (35 - sh) with ((35 - (sh + 7)) + 1 * 7) by lia.
    rewrite Z.div_add by lia. lia.
Qed.

(** X15: A successful read_uleb128 returns a value in the 32-bit range [0, 2^32-1]. It consumes a non-empty prefix of at most 5 bytes and leaves the rest of the stream untouched. *)
Theorem read_uleb128_bounds (s s' : stream) (v : Z) :
  read_uleb128 s = Ok (v, s') ->
  0 <= v <= mask32 /\ exists pre, s = pre ++ s' /\ (1 <= length pre <= 5)%nat.
Proof.
  unfold read_uleb128. intros H.
  apply read_uleb128_loop_shape in H as [Hv [pre [-> [H1 H2]]]]; [|lia|lia].
  unfold mask32. split; [lia|]. exists pre. split; [reflexivity|].
  change ((35 - 0) / 7) with 5 in H2. lia.
Qed.

Lemma read_repeat_length {A} (rd : stream -> Res (A * stream)) (n : nat) :
  forall s xs s', read_repeat n rd s = Ok (xs, s') -> length xs = n.
Proof.
  induction n as [|n IH]; intros s xs s' H; simpl in H.
  - injection H as <- _. reflexivity.
  - apply bind_Ok_inv in H as [[x s1] [_ H]]. cbv beta iota in H.
    apply bind_Ok_inv in H as [[xs' s2] [H' H]]. injection H as <- _.
    simpl. f_equal. eapply IH; eauto.
Qed.

Lemma read_prototype_const_table_one s gcs gcs' s' :
  read_prototype_const_table s gcs = Ok (gcs', s') -> exists x, gcs' = gcs ++ [x].
Proof.
  unfold read_prototype_const_table. intros H.
  apply bind_Ok_inv in H as [[na s1] [_ H]]. cbv beta iota in H.
  apply bind_Ok_inv in H as [[nh s2] [_ H]]. cbv beta iota in H.
  apply bind_Ok_inv in H as [[arr s3] [_ H]]. cbv beta iota in H.
  apply bind_Ok_inv in H as [[hsh s4] [_ H]]. injection H as <- _. eauto.
Qed.

Lemma read_global_constant_one s gcs gcs' s' :
  read_global_constant s gcs = Ok (gcs', s') -> exists x, gcs' = gcs ++ [x].
Proof.
  unfold read_global_constant. intros H.
  apply bind_Ok_inv in H as [[tp s1] [_ H]]. cbv beta iota in H.
  repeat match goal with
  | H : (if decide ?P then _ else _) = Ok _ |- _ => destruct (decide P)
  | H : Ok _ = Ok _ |- _ => injection H as <- _; eauto
  | H : read_prototype_const_table _ _ = Ok _ |- _ => eapply read_prototype_const_table_one; exact H
  | H : (_ ≫= _) = Ok _ |- _ =>
      let x := fresh "x" in let Hm := fresh "Hm" in
      apply bind_Ok_inv in H as [x [Hm H]]; cbv beta in H
  | H : context [match ?p with pair _ _ => _ end] |- _ =>
      is_var p; destruct p; cbv beta iota in H
  end.
Qed.

Lemma global_constants_count (n : nat) (s : stream) (gcs gcs' : list GlobalConst.t) (s' : stream) :
  read_prototype_global_constants n s gcs = Ok (gcs', s') ->
  exists new, gcs' = gcs ++ new /\ length new = n.
Proof.
  revert s gcs. induction n as [|n IH]; intros s gcs H; simpl in H.
  - injection H as <- _. exists []. rewrite app_nil_r. auto.
  - apply bind_Ok_inv in H as [[gcs1 s1] [H1 H]]. cbv beta iota in H.
    apply read_global_constant_one in H1 as [x ->].
    apply IH in H as [new [-> Hl]]. exists (x :: new). rewrite <- app_assoc. simpl. auto.
Qed.

(** X16: When read_prototype_global_constants reads n constants successfully, it appends exactly n entries to the existing list and keeps the earlier entries. *)
Theorem read_global_constants_count (n : nat) (s : stream) (gcs gcs' : list GlobalConst.t) (s' : stream) :
  read_prototype_global_constants n s gcs = Ok (gcs', s') ->
  exists new, gcs' = gcs ++ new /\ length new = n.
Proof. exact (global_constants_count n s gcs gcs' s'). Qed.

(** X17: When read_prototype_const_table succeeds, it appends exactly one Table constant. Its array part has as many entries as the first ULEB128 read and its hash part has as many entries as the second. *)
Theorem read_const_table_sizes (s : stream) (gcs gcs' : list GlobalConst.t) (s' : stream) :
  read_prototype_const_table s gcs = Ok (gcs', s') ->
  exists na nh s1 s2 arr hsh,
    read_uleb128 s = Ok (na, s1) /\ read_uleb128 s1 = Ok (nh, s2) /\
    gcs' = gcs ++ [GlobalConst.Table (mkConstTable arr hsh)] /\
    length arr = Z.to_nat na /\ length hsh = Z.to_nat nh.
Proof.
  unfold read_prototype_const_table. intros H.
  apply bind_Ok_inv in H as [[na s1] [H1 H]]. cbv beta iota in H.
  apply bind_Ok_inv in H as [[nh s2] [H2 H]]. cbv beta iota in H.
  apply bind_Ok_inv in H as [[arr s3] [H3 H]]. cbv beta iota in H.
  apply bind_Ok_inv in H as [[hsh s4] [H4 H]]. injection H as <- _.
  exists na, nh, s1, s2, arr, hsh. repeat split; auto.
  - eapply read_repeat_length; eauto.
  - eapply read_repeat_length; eauto.
Qed.

Lemma le_words_length (k : nat) (n : nat) : forall bs,
  (0 < k)%nat -> length bs = (k * n)%nat -> length (le_words k n bs) = n.
Proof.
  induction n as [|n IH]; intros bs Hk Hl; [reflexivity|].
  simpl. destruct bs as [|b bs']; [simpl in Hl; lia|].
  simpl. f_equal. apply IH; [exact Hk|]. rewrite length_drop. rewrite Hl. lia.
Qed.

Lemma read_words_le_length (k n : nat) s ws s' :
  (0 < k)%nat -> read_words_le k n s = Ok (ws, s') -> length ws = n.
Proof.
  unfold read_words_le, read_exact. intros Hk H.
  destruct (decide _) as [Hle|]; [|discriminate]. simpl in H. injection H as <- _.
  apply le_words_length; [exact Hk|]. rewrite length_take. lia.
Qed.

(** X18: When read_prototype succeeds, the bytecode, up-value, global-constant and numeric-constant vectors have exactly the sizes recorded in the prototype header, and the flow graph is the one resolve_basic_blocks builds from the bytecode. *)
Theorem read_prototype_sizes (s s' : stream) (p : ByteCodeProto) :
  read_prototype s = Ok (p, s') ->
  length (bc_raw p) = Z.to_nat (size_bc p) /\
  length (up_values p) = Z.to_nat (size_up_values p) /\
  length (global_consts p) = Z.to_nat (size_global_consts p) /\
  length (num_consts p) = Z.to_nat (size_num_consts p) /\
  resolve_basic_blocks (bc_raw p) = Ok (flow_graph p).
Proof.
  unfold read_prototype. intros H.
  apply bind_Ok_inv in H as [[arr s1] [_ H]]. cbv beta iota zeta in H.
  apply bind_Ok_inv in H as [[sgc s2] [_ H]]. cbv beta iota in H.
  apply bind_Ok_inv in H as [[snc s3] [_ H]]. cbv beta iota in H.
  apply bind_Ok_inv in H as [[sbc s4] [_ H]]. cbv beta iota in H.
  apply bind_Ok_inv in H as [[bc s5] [Hbc H]]. cbv beta iota in H.
  apply bind_Ok_inv in H as [fg [Hfg H]].
  apply bind_Ok_inv in H as [[uvs s6] [Huv H]]. cbv beta iota in H.
  apply bind_Ok_inv in H as [[gcs s7] [Hg H]]. cbv beta iota in H.
  apply bind_Ok_inv in H as [[ncs s8] [Hn H]]. injection H as <- _. simpl.
  repeat split.
  - destruct (decide (sbc > 0)).
    + eapply read_words_le_length; [|exact Hbc]. lia.
    + injection Hbc as <- _. simpl. lia.
  - destruct (decide (nth 3 arr 0 > 0)).
    + eapply read_words_le_length; [|exact Huv]. lia.
    + injection Huv as <- _. simpl. lia.
  - apply global_constants_count in Hg as [new [-> Hl]]. exact Hl.
  - eapply read_repeat_length; exact Hn.
  - exact Hfg.
Qed.

(** X19: read_header fails with an IO error on fewer than 4 bytes. It fails with "Invalid byte code file magic." when the first three bytes are not the magic 0x1b 'L' 'J', and with "Invalid byte code version." when the magic is right but the fourth byte is not the version. *)
Theorem read_header_errors (d : ByteCodeDump) (s : stream) :
  ((length s < 4)%nat -> read_header s d = Err IO) /\
  (forall a0 a1 a2 a3 rest, s = [a0; a1; a2; a3] ++ rest ->
     (a0, a1, a2) <> (BC_HEAD1, BC_HEAD2, BC_HEAD3) ->
     read_header s d = Err (InvalidHeaderBytes "Invalid byte code file magic.")) /\
  (forall a3 rest, s = [BC_HEAD1; BC_HEAD2; BC_HEAD3; a3] ++ rest -> a3 <> BC_VERSION ->
     read_header s d = Err (InvalidHeaderBytes "Invalid byte code version.")).
Proof.
  split; [|split].
  - intros Hl. unfold read_header, read_exact. rewrite decide_False by lia. reflexivity.
  - intros a0 a1 a2 a3 rest -> Hm. unfold read_header.
    rewrite (read_exact_app [a0; a1; a2; a3] rest 4 eq_refl). cbn -[read_uleb128].
    rewrite decide_True; [reflexivity|].
    destruct (decide (a0 = BC_HEAD1)) as [->|]; [|auto].
    destruct (decide (a1 = BC_HEAD2)) as [->|]; [|auto].
    destruct (decide (a2 = BC_HEAD3)) as [->|]; [|auto]. contradiction.
  - intros a3 rest -> Hv. unfold read_header.
    rewrite (read_exact_app [BC_HEAD1; BC_HEAD2; BC_HEAD3; a3] rest 4 eq_refl). cbn -[read_uleb128].
    rewrite decide_False by (unfold BC_HEAD1, BC_HEAD2, BC_HEAD3; lia).
    rewrite decide_True by exact Hv. reflexivity.
Qed.

(** X20: When the first prototype length after the header is non-zero and larger than the number of bytes that remain, read_bytecode_dump fails with an IO error. *)
Theorem read_bytecode_dump_truncated (s : stream) (d : ByteCodeDump) (len : Z) (data : stream) :
  read_header s ByteCodeDump_new = Ok (d, encode_uleb128 len ++ data) ->
  0 < len < 2 ^ 32 -> (Z.of_nat (length data) < len) ->
  read_bytecode_dump s = Err IO.
Proof.
  intros Hh Hlen Hd. unfold read_bytecode_dump. rewrite Hh. cbn [mbind Res_bind].
  cbv beta iota. cbn [read_prototypes]. rewrite read_uleb128_encode by lia.
  rewrite decide_False by lia. unfold read_exact. rewrite decide_False by lia. reflexivity.
Qed.

(** X21: When the bytes after the header start with five bytes that all have the continuation bit set, the length read fails and the loop breaks. read_bytecode_dump then returns the header-only dump with no prototypes and does not report an error. *)
Theorem read_bytecode_dump_bad_length_stops (s : stream) (d : ByteCodeDump) (b1 b2 b3 b4 b5 : Z) (rest : stream) :
  read_header s ByteCodeDump_new = Ok (d, b1 :: b2 :: b3 :: b4 :: b5 :: rest) ->
  Z.land b1 128 <> 0 -> Z.land b2 128 <> 0 -> Z.land b3 128 <> 0 ->
  Z.land b4 128 <> 0 -> Z.land b5 128 <> 0 ->
  read_bytecode_dump s = Ok d.
Proof.
  intros Hh H1 H2 H3 H4 H5. unfold read_bytecode_dump. rewrite Hh. cbn [mbind Res_bind].
  cbv beta iota. cbn [read_prototypes]. rewrite read_uleb128_too_long by assumption. reflexivity.
Qed.


Lemma uleb33_loop_encode (n : Z) (rest : stream) :
  0 <= n < 2 ^ 32 ->
  forall f : nat, (1 <= f <= 4)%nat ->
  forall fuel : nat,
  let s := 6 + 7 * Z.of_nat (4 - f) in
  (length (encode_uleb128_aux f (n / 2 ^ s)) <= fuel)%nat ->
  read_uleb128_33_loop fuel (n mod 2 ^ s) s (encode_uleb128_aux f (n / 2 ^ s) ++ rest)
  = Ok (n, rest).
Proof.
  intros Hn f. induction f as [|f IH]; intros Hf fuel; [lia|]. cbv zeta.
  remember (6 + 7 * Z.of_nat (4 - S f)) as s eqn:Es.
  assert (Hs0 : 0 <= s) by lia.
  assert (Hp : 0 < 2 ^ s) by (apply Z.pow_pos_nonneg; lia).
  pose proof (Z.mod_pos_bound n (2 ^ s) Hp) as Hr.
  pose proof (Z.mul_div_le n (2 ^ s) Hp) as Hq.
  assert (Hm0 : 0 <= n / 2 ^ s) by (apply Z.div_pos; lia).
  pose proof (Z.div_mod n (2 ^ s)) as Hdm.
  cbn [encode_uleb128_aux].
  destruct (decide (n / 2 ^ s < 128)) as [Hlt|Hge].
  - intros Hfu. destruct fuel as [|fuel]; [simpl in Hfu; lia|].
    cbn [read_uleb128_33_loop app read_byte mbind Res_bind]. unfold shl32_checked.
    destruct (decide (s >= 32)); [lia|]. cbn [mbind Res_bind].
    rewrite land127, (Z.mod_small (n / 2 ^ s) 128) by lia.
    rewrite shl32_mul by nia. rewrite lor_low_high by lia.
    destruct (decide (n / 2 ^ s < 128)); [|lia]. f_equal. f_equal. lia.
  - intros Hfu. destruct fuel as [|fuel]; [simpl in Hfu; lia|].
    cbn [length] in Hfu.
    cbn [read_uleb128_33_loop app read_byte mbind Res_bind]. unfold shl32_checked.
    destruct (decide (s >= 32)); [lia|]. cbn [mbind Res_bind].
    pose proof (encode_byte_bounds (n / 2 ^ s)).
    rewrite land127, encode_byte_low.
    pose proof (Z.mod_pos_bound (n / 2 ^ s) 128 ltac:(lia)).
    assert (Hsb : (n / 2 ^ s) mod 128 * 2 ^ s <= n).
    { pose proof (Z.mod_le (n / 2 ^ s) 128 Hm0 ltac:(lia)). nia. }
    rewrite shl32_mul by nia. rewrite lor_low_high by lia.
    destruct (decide ((n / 2 ^ s) mod 128 + 128 < 128)); [lia|].
    destruct (decide (s + 7 > mask32)); [unfold mask32 in *; lia|].
    destruct f as [|f].
    + exfalso. simpl in Es. subst s.
      assert (n / 2 ^ 27 < 32); [|lia].
      apply Z.div_lt_upper_bound; lia.
    + specialize (IH ltac:(lia) fuel). cbv zeta in IH.
      replace (6 + 7 * Z.of_nat (4 - S f)) with (s + 7) in IH by lia.
      replace (n mod 2 ^ s + (n / 2 ^ s) mod 128 * 2 ^ s) with (n mod 2 ^ (s + 7)).
      * replace (n / 2 ^ s / 128) with (n / 2 ^ (s + 7)) in *.
        -- apply IH. lia.
        -- rewrite Z.div_div, Z.pow_add_r by lia. reflexivity.
      * rewrite Z.pow_add_r by lia. change (2 ^ 7) with 128. rewrite Z.rem_mul_r by lia. lia.
Qed.

Lemma read_uleb128_33_encode (n : Z) (isnum : bool) (rest : stream) :
  0 <= n < 2 ^ 32 ->
  exists first, read_uleb128_33 (encode_uleb128_33 n isnum ++ rest) = Ok ((n, first), rest)
    /\ Z.land first 1 = (if isnum then 1 else 0).
Proof.
  intros Hn. unfold encode_uleb128_33, read_uleb128_33.
  pose proof (Z.mod_pos_bound n 64 ltac:(lia)) as Hm.
  set (fl := if isnum then 1 else 0).
  assert (Hfl : 0 <= fl <= 1) by (unfold fl; destruct isnum; lia).
  assert (Hodd : forall c, Z.land (n mod 64 * 2 + fl + c * 2) 1 = fl).
  { intros c. change 1 with (Z.ones 1). rewrite Z.land_ones by lia.
    change (2 ^ 1) with 2.
    replace (n mod 64 * 2 + fl + c * 2) with (fl + (n mod 64 + c) * 2) by lia.
    rewrite Z_mod_plus_full. apply Z.mod_small. lia. }
  destruct (decide (n < 64)) as [Hlt|Hge].
  - cbn [app read_byte mbind Res_bind]. rewrite Z.shiftr_div_pow2 by lia.
    change (2 ^ 1) with 2.
    replace ((n mod 64 * 2 + fl) / 2) with (n mod 64) by
      (replace (n mod 64 * 2 + fl) with (fl + n mod 64 * 2) by lia;
       rewrite Z.div_add by lia; rewrite Z.div_small by lia; lia).
    destruct (decide (n mod 64 >= 64)); [lia|].
    rewrite Z.mod_small by lia. eexists; split; [reflexivity|].
    pose proof (Hodd 0) as H0. rewrite Z.mul_0_l, Z.add_0_r in H0.
    rewrite Z.mod_small in H0 by lia. exact H0.
  - cbn [app read_byte mbind Res_bind]. rewrite Z.shiftr_div_pow2 by lia.
    change (2 ^ 1) with 2.
    replace ((n mod 64 * 2 + fl + 128) / 2) with (n mod 64 + 64) by
      (replace (n mod 64 * 2 + fl + 128) with (fl + (n mod 64 + 64) * 2) by lia;
       rewrite Z.div_add by lia; rewrite Z.div_small by lia; lia).
    destruct (decide (n mod 64 + 64 >= 64)); [|lia].
    replace (Z.land (n mod 64 + 64) 63) with (n mod 2 ^ 6).
    2:{ change 63 with (Z.ones 6). rewrite Z.land_ones by lia.
        change (2 ^ 6) with (1 * 64).
        rewrite Z.mul_1_l. rewrite Z.add_mod, Z.mod_same, Z.add_0_r, !Z.mod_mod by lia.
        reflexivity. }
    pose proof (uleb33_loop_encode n rest Hn 4 ltac:(lia) (S (length (encode_uleb128_aux 4 (n / 64) ++ rest)))) as HL.
    cbv zeta in HL. change (6 + 7 * Z.of_nat (4 - 4)) with 6 in HL.
    change (2 ^ 6) with 64 in HL |- *. rewrite HL by (rewrite length_app; lia).
    cbn [mbind Res_bind]. eexists; split; [reflexivity|].
    exact (Hodd 64).
Qed.

(** X22: For n and hi below 2^32, reading the 33-bit ULEB encoding of n with the number flag clear gives NumConst::Int(n). With the flag set and followed by the ULEB128 encoding of hi, it gives NumConst::Num(n, hi). In both cases the rest of the stream is left untouched. *)
Theorem read_num_constant_roundtrip (n hi : Z) (rest : stream) :
  0 <= n < 2 ^ 32 -> 0 <= hi < 2 ^ 32 ->
  read_num_constant (encode_uleb128_33 n false ++ rest) = Ok (NumConst.Int n, rest) /\
  read_num_constant (encode_uleb128_33 n true ++ encode_uleb128 hi ++ rest)
    = Ok (NumConst.Num n hi, rest).
Proof.
  intros Hn Hhi. split.
  - destruct (read_uleb128_33_encode n false rest Hn) as [fst [E L]].
    unfold read_num_constant. rewrite E. cbn [mbind Res_bind].
    destruct (decide (Z.land fst 1 = 1)); [lia|]. reflexivity.
  - destruct (read_uleb128_33_encode n true (encode_uleb128 hi ++ rest) Hn) as [fst [E L]].
    unfold read_num_constant. rewrite E. cbn [mbind Res_bind].
    destruct (decide (Z.land fst 1 = 1)); [|lia].
    rewrite read_uleb128_encode by exact Hhi. reflexivity.
Qed.


Section ResolveInv.
Variable bc : list Z.
Variable Inv : CFG -> Prop.
Hypothesis inv_add : forall g start hi blk,
  Inv g -> slice bc start hi = Ok blk -> Inv (add_node g start blk).2.
Hypothesis inv_edge : forall g w fr t i g',
  Inv g -> add_edge g w fr t = Ok (i, g') -> Inv g'.
Hypothesis inv_split : forall g p idx b r g1,
  Inv g -> node_weight g p = Some b -> 0 < idx - p < Z.of_nat (length b) ->
  split_node g p idx (block_split (Z.to_nat (idx - p))) = Ok (r, g1) -> Inv g1.

Section ScanInv.
Variable recurse : CFG -> Z -> Res CFG.
Hypothesis rec_pres : forall g g' i, Inv g -> recurse g i = Ok g' -> Inv g'.
Variables (start : Z) (nb : option Z).

Lemma close_block_inv g idx g1 : Inv g -> close_block bc start g idx = Ok g1 -> Inv g1.
Proof.
  unfold close_block. intros D H.
  apply bind_Ok_inv in H as [blk [Hs H]]. injection H as <-. eapply inv_add; eassumption.
Qed.

Lemma branch_to_inv g1 g2 idx dest k :
  Inv g1 -> branch_to recurse g1 idx dest k = Ok g2 -> Inv g2.
Proof.
  unfold branch_to. intros D H.
  apply bind_Ok_inv in H as [g3 [Hr H]].
  apply bind_Ok_inv in H as [cur [_ H]].
  apply bind_Ok_inv in H as [[i g4] [He H]]. injection H as <-.
  eapply inv_edge; [|exact He]. eapply rec_pres; eassumption.
Qed.

Ltac inv_res_rb :=
  repeat match goal with
  | H : Ok _ = Ok _ |- _ => injection H as H; subst
  | H : (_ ≫= _) = Ok _ |- _ =>
      let x := fresh "x" in let Hm := fresh "Hm" in
      apply bind_Ok_inv in H as [x [Hm H]]; cbv beta in H
  | H : context [match ?p with pair _ _ => _ end] |- _ =>
      is_var p; destruct p; cbv beta iota in H
  | H : (if decide ?P then _ else _) = Ok _ |- _ => destruct (decide P)
  end.

Ltac propagate_rb :=
  repeat match goal with
  | H : close_block _ _ ?g1 _ = Ok _, D : Inv ?g1 |- _ =>
      apply (close_block_inv _ _ _ D) in H
  | H : recurse ?g1 _ = Ok _, D : Inv ?g1 |- _ =>
      apply (rec_pres _ _ _ D) in H
  | H : add_edge ?g1 _ _ _ = Ok (_, _), D : Inv ?g1 |- _ =>
      apply (inv_edge _ _ _ _ _ _ D) in H
  | H : branch_to recurse ?g1 _ _ _ = Ok _, D : Inv ?g1 |- _ =>
      apply (branch_to_inv _ _ _ _ _ D) in H
  end.

Lemma scan_inv (rest : list Z) : forall g pc idx g',
  Inv g -> scan recurse bc start nb pc idx rest g = Ok g' -> Inv g'.
Proof.
  induction rest as [|ins rest' IH]; intros g pc idx g' D H; simpl in H.
  - apply bind_Ok_inv in H as [blk [Hsl H]]. injection H as <-. eapply inv_add; eassumption.
  - destruct (decide (nb = Some idx)) as [Heq|Hneq].
    + apply bind_Ok_inv in H as [blk [Hsl H]].
      apply bind_Ok_inv in H as [[i g2] [He H]]. injection H as <-.
      eapply inv_edge; [|exact He]. eapply inv_add; eassumption.
    + apply bind_Ok_inv in H as [op [_ H]]. cbv beta in H.
      destruct op; cbv iota in H; inv_res_rb; propagate_rb;
        try assumption; try (eapply IH; [exact D | eassumption]).
      all: try discriminate.
      all: match goal with
           | o : Op, H : _ = Ok _ |- _ =>
               destruct o; cbv iota in H; propagate_rb;
               try assumption; eapply IH; [exact D | eassumption]
           end.
Qed.

End ScanInv.

Lemma recurse_block_inv (fuel : nat) : forall (g g' : CFG) idx,
  Inv g -> recurse_block fuel g bc idx = Ok g' -> Inv g'.
Proof.
  induction fuel as [|fuel IH]; intros g g' idx D H; simpl in H; [discriminate|].
  assert (Hscan : scan (fun g' i => recurse_block fuel g' bc i) bc idx (try_next_node g idx)
              None idx (drop (Z.to_nat idx) bc) g = Ok g' -> Inv g').
  { intros Hs. eapply scan_inv; [|exact D|exact Hs]. intros g1 g2 i D1 H1. exact (IH _ _ _ D1 H1). }
  destruct (try_prev_node g idx) as [p|] eqn:Hp; [|exact (Hscan H)].
  destruct (decide (idx = p)) as [<-|Hne]; [injection H as <-; exact D|].
  apply bind_Ok_inv in H as [b [Hw H]]. apply unwrap_Ok in Hw.
  destruct (decide (idx - p < Z.of_nat (length b))) as [Hlt|Hge]; [|exact (Hscan H)].
  apply try_prev_node_Some in Hp as (_ & Hple & _).
  apply bind_Ok_inv in H as [[r g1] [Hsp H]].
  apply bind_Ok_inv in H as [[i g2] [He H]]. injection H as <-.
  eapply inv_edge; [|exact He]. eapply inv_split; [exact D|exact Hw| |exact Hsp]. lia.
Qed.

Lemma resolve_basic_blocks_inv (g : CFG) :
  Inv graph_new -> resolve_basic_blocks bc = Ok g -> Inv g.
Proof. unfold resolve_basic_blocks. intros D. apply recurse_block_inv. exact D. Qed.

End ResolveInv.

(** Blocks are slices of the byte code. *)

Lemma in_bc_add bc (g : CFG) start hi blk :
  blocks_in_bc bc g -> slice bc start hi = Ok blk -> blocks_in_bc bc (add_node g start blk).2.
Proof.
  intros D Hs k b. rewrite node_weight_add_node.
  destruct (decide (start = k)) as [<-|]; [|apply D].
  intros [= <-]. pose proof (slice_Ok _ _ _ _ Hs) as (H0 & H1 & H2 & Hl).
  unfold slice in Hs. rewrite decide_True in Hs by lia. injection Hs as <-.
  split; [lia|split; [lia|]].
  rewrite length_take, length_drop. f_equal. lia.
Qed.

Lemma in_bc_edge bc (g : CFG) w fr t i g' :
  blocks_in_bc bc g -> add_edge g w fr t = Ok (i, g') -> blocks_in_bc bc g'.
Proof.
  intros D H. apply add_edge_nodes in H as [Hw _]. intros k b. rewrite Hw. apply D.
Qed.

Lemma in_bc_split bc (g g1 : CFG) p idx b r :
  blocks_in_bc bc g -> node_weight g p = Some b -> 0 < idx - p < Z.of_nat (length b) ->
  split_node g p idx (block_split (Z.to_nat (idx - p))) = Ok (r, g1) -> blocks_in_bc bc g1.
Proof.
  intros D Hb Hd Hs.
  pose proof (split_node_weights g g1 p idx b _ r Hb ltac:(lia) Hs) as Hw.
  destruct (D p b Hb) as (Hp0 & Hpl & Hpb).
  intros k bk. rewrite Hw.
  destruct (decide (k = idx)) as [->|Hki].
  - intros [= <-]. rewrite length_drop. split; [lia|split; [lia|]].
    set (n := length b) in Hpb |- *. rewrite Hpb at 1.
    rewrite skipn_firstn_comm, drop_drop.
    replace (Z.to_nat p + Z.to_nat (idx - p))%nat with (Z.to_nat idx) by lia. reflexivity.
  - destruct (decide (k = p)) as [->|Hkp]; [|apply D].
    intros [= <-]. rewrite length_take_le by lia. split; [lia|split; [lia|]].
    set (n := length b) in Hpb |- *. rewrite Hpb at 1. rewrite take_take. f_equal. lia.
Qed.

Lemma in_bc_new bc : blocks_in_bc bc graph_new.
Proof. intros k b. unfold node_weight. simpl. rewrite lookup_empty. discriminate. Qed.

(** X23: In the graph returned by resolve_basic_blocks(bc), every block at key k is the slice bc[k..k+len] of the instruction array and lies within its bounds. *)
Theorem resolve_blocks_in_bc (bc : list Z) (g : CFG) :
  resolve_basic_blocks bc = Ok g -> blocks_in_bc bc g.
Proof.
  apply (resolve_basic_blocks_inv bc (blocks_in_bc bc)).
  - intros g0 start hi blk. apply in_bc_add.
  - intros g0 w fr t i g'. apply in_bc_edge.
  - intros g0 p idx b r g1. apply in_bc_split.
  - apply in_bc_new.
Qed.

(** Edges join nodes. *)

Section JoinNodes.
Context {N E : Type}.
Implicit Types g : Graph N E.

Lemma add_edge_ends g w fr t i g' :
  add_edge g w fr t = Ok (i, g') ->
  is_Some (nodes g !! fr) /\ is_Some (nodes g !! t) /\
  exists no ni, edges g' = edges g ++ [mkEdge w fr t no ni].
Proof.
  unfold add_edge. intros H.
  apply bind_Ok_inv in H as [fn [Hf H]]. apply unwrap_Ok in Hf.
  apply bind_Ok_inv in H as [tn [Ht H]]. apply unwrap_Ok in Ht.
  injection H as <- <-. split; [eauto|split; [|simpl; eauto]].
  rewrite lookup_insert in Ht. destruct (decide (fr = t)) as [<-|]; eauto.
Qed.

Lemma elem_of_list_insert_inv (l : list (Edge E)) i x e :
  e ∈ <[i := x]> l -> e = x \/ e ∈ l.
Proof.
  intros He. apply list_elem_of_lookup_1 in He as [j Hj].
  destruct (decide (i = j)) as [<-|Hij].
  - apply list_lookup_insert_Some in Hj as [[_ [-> _]]|[Hne _]]; [left; reflexivity|contradiction].
  - rewrite list_lookup_insert_ne in Hj by exact Hij. right. eapply list_elem_of_lookup_2. exact Hj.
Qed.

Lemma relink_outgoing_pres (P : Edge E -> Prop) n (fuel : nat) : forall es cur es',
  (forall e, e ∈ es -> P e) -> (forall e, P e -> P (set_from e n)) ->
  relink_outgoing fuel es cur n = Ok es' -> forall e, e ∈ es' -> P e.
Proof.
  induction fuel as [|fuel IH]; intros es cur es' Hes Hset H;
    (destruct cur as [idx|]; [|simpl in H; injection H as <-; exact Hes]); simpl in H;
    [discriminate|].
  apply bind_Ok_inv in H as [ed [Hed H]]. apply unwrap_Ok in Hed.
  eapply IH; [|exact Hset|exact H].
  intros e He. apply elem_of_list_insert_inv in He as [->|He]; [|auto].
  apply Hset, Hes. eapply list_elem_of_lookup_2. exact Hed.
Qed.

End JoinNodes.

Lemma exists_node_true {N E} (g : Graph N E) k : exists_node g k = true <-> is_Some (nodes g !! k).
Proof. unfold exists_node. apply bool_decide_eq_true. Qed.

Lemma join_add bc (g : CFG) start hi blk :
  edges_join_nodes g -> slice bc start hi = Ok blk -> edges_join_nodes (add_node g start blk).2.
Proof.
  intros D _ e He. simpl in He. rewrite !exists_node_true. simpl.
  destruct (D e He) as [Hf Ht]. rewrite exists_node_true in Hf, Ht.
  rewrite !lookup_insert. split; destruct (decide _); eauto.
Qed.

Lemma join_edge (g : CFG) w fr t i g' :
  edges_join_nodes g -> add_edge g w fr t = Ok (i, g') -> edges_join_nodes g'.
Proof.
  intros D H. pose proof (add_edge_nodes _ _ _ _ _ _ H) as [_ Hdom].
  apply add_edge_ends in H as (Hf & Ht & no & ni & Hes).
  intros e. rewrite Hes, elem_of_app, list_elem_of_singleton, !exists_node_true, !Hdom.
  intros [He| ->]; [|simpl; auto].
  destruct (D e He) as [H1 H2]. rewrite exists_node_true in H1, H2. auto.
Qed.

Lemma join_split (g g1 : CFG) p idx b r :
  edges_join_nodes g -> node_weight g p = Some b -> 0 < idx - p < Z.of_nat (length b) ->
  split_node g p idx (block_split (Z.to_nat (idx - p))) = Ok (r, g1) -> edges_join_nodes g1.
Proof.
  intros D _ _ H. unfold split_node in H.
  apply bind_Ok_inv in H as [nd [Hnd H]]. apply unwrap_Ok in Hnd.
  apply bind_Ok_inv in H as [[ow nw] [_ H]]. unfold add_node in H. cbv beta iota in H.
  apply bind_Ok_inv in H as [u [_ H]].
  apply bind_Ok_inv in H as [nn [_ H]].
  apply bind_Ok_inv in H as [es [Hr H]]. injection H as <- <-.
  cbn [edges] in Hr.
  assert (Hgrow : forall k, is_Some (nodes g !! k) ->
    is_Some ((<[idx:=mkNode (weight nn) (next_outgoing_edge nd) (next_incoming_edge nn)]>
      (<[idx:=mkNode nw None None]>
         (<[p:=mkNode ow None (next_incoming_edge nd)]> (nodes g)))) !! k)).
  { intros k Hk. rewrite !lookup_insert. repeat case_decide; eauto. }
  intros e He. simpl. rewrite !exists_node_true.
  revert e He.
  apply (relink_outgoing_pres
    (fun e => is_Some ((<[idx:=mkNode (weight nn) (next_outgoing_edge nd) (next_incoming_edge nn)]>
      (<[idx:=mkNode nw None None]>
         (<[p:=mkNode ow None (next_incoming_edge nd)]> (nodes g)))) !! from e) /\
      is_Some ((<[idx:=mkNode (weight nn) (next_outgoing_edge nd) (next_incoming_edge nn)]>
      (<[idx:=mkNode nw None None]>
         (<[p:=mkNode ow None (next_incoming_edge nd)]> (nodes g)))) !! to e)) idx (S (length (edges g))) (edges g) (next_outgoing_edge nd) es); [| |exact Hr].
  - intros e He. destruct (D e He) as [H1 H2]. rewrite exists_node_true in H1, H2.
    split; apply Hgrow; assumption.
  - intros e [_ H2]. split; [|exact H2]. simpl. rewrite lookup_insert_eq. eauto.
Qed.

Lemma join_new : edges_join_nodes (@graph_new Block BranchKind.t).
Proof. intros e He. simpl in He. inversion He. Qed.

(** X24: In the graph returned by resolve_basic_blocks, both the source and the target of every edge are nodes of the graph, including after split_node has moved outgoing edges to a new node. *)
Theorem resolve_edges_join_nodes (bc : list Z) (g : CFG) :
  resolve_basic_blocks bc = Ok g -> edges_join_nodes g.
Proof.
  apply (resolve_basic_blocks_inv bc edges_join_nodes).
  - intros g0 start hi blk. apply join_add.
  - intros g0 w fr t i g'. apply join_edge.
  - intros g0 p idx b r g1. apply join_split.
  - apply join_new.
Qed.


Lemma pri_cases (v : Z) :
  (exists p, pri_of_u16 v = Ok p /\ Z.land v 255 <= 2) \/
  (pri_of_u16 v = Panic /\ 2 < Z.land v 255).
Proof.
  assert (0 <= Z.land v 255) by (apply Z.land_nonneg; lia).
  unfold pri_of_u16. cbv zeta. repeat case_decide; [left; eexists; split; [reflexivity|lia] ..|].
  right. split; [reflexivity|lia].
Qed.

Lemma jump_cases (v : Z) : 0 <= v <= 65535 ->
  (exists j, jump_of_u16 v = Ok j /\ v <> 0) \/ (jump_of_u16 v = Panic /\ v = 0).
Proof.
  intros Hv. unfold jump_of_u16, wrap_i16. cbv zeta.
  case_decide as Hge; [left; eexists; split; [reflexivity|lia]|].
  destruct (decide (v = 0)) as [->|Hv0]; [right; split; reflexivity|].
  rewrite (Z.mod_small (32768 - v + 32768) 65536) by lia.
  case_decide as Hx; [lia|]. left. eexists. split; [reflexivity|lia].
Qed.

Lemma get_d_bound (ins : Z) : 0 <= get_d ins <= 65535.
Proof.
  unfold get_d. change 65535 with (Z.ones 16). rewrite Z.land_ones by lia.
  pose proof (Z.mod_pos_bound (Z.shiftr ins 16) (2 ^ 16) ltac:(lia)).
  change (Z.ones 16) with 65535. change (2 ^ 16) with 65536 in *. lia.
Qed.

(** X25: disasm(ins) never returns an error. It panics exactly when the opcode byte is above 96, or when the opcode takes a primitive operand (ISEQP, ISNEP, KPRI, USETP) and the low byte of D is above 2, or when the opcode is a jump (UCLO, ISNEXT, FORI, ..., JMP) and D is 0. Otherwise it returns Ok. *)
Theorem disasm_outcome (ins : Z) :
  let o := get_op ins in
  let bad := 96 < o \/
    ((o = 10 \/ o = 11 \/ o = 43 \/ o = 49) /\ 2 < Z.land (get_d ins) 255) \/
    ((o = 50 \/ o = 72 \/ o = 77 \/ o = 78 \/ o = 79 \/ o = 80 \/ o = 82 \/
      o = 83 \/ o = 85 \/ o = 86 \/ o = 88) /\ get_d ins = 0) in
  match disasm ins with
  | Ok _ => ~ bad
  | Panic => bad
  | _ => False
  end.
Proof.
  cbv zeta.
  assert (H0 : 0 <= get_op ins) by (apply Z.land_nonneg; lia).
  pose proof (get_d_bound ins) as Hd.
  pose proof (pri_cases (get_d ins)) as Hp.
  pose proof (jump_cases (get_d ins) Hd) as Hj.
  unfold disasm. remember (Z.to_nat (get_op ins)) as n eqn:En.
  assert (Hn : get_op ins = Z.of_nat n) by lia. rewrite Hn. clear En Hn H0.
  do 97 (destruct n as [|n];
    [cbv iota;
     first [ destruct Hp as [[p [-> Hp]]|[-> Hp]]; cbn; lia
           | destruct Hj as [[j [-> Hj]]|[-> Hj]]; cbn; lia
           | lia ]|]).
  lia.
Qed.

Section GraphExtras.
Context {N E : Type}.
Implicit Types g : Graph N E.

(** X5: try_prev_node(idx) returns Some(p) exactly when p is the greatest node key that is <= idx. It returns None exactly when every node key is > idx. *)
Theorem try_prev_node_spec_iff g idx :
  (forall p, try_prev_node g idx = Some p <->
     is_Some (nodes g !! p) /\ p <= idx /\
     forall k, is_Some (nodes g !! k) -> k <= idx -> k <= p) /\
  (try_prev_node g idx = None <-> forall k, is_Some (nodes g !! k) -> idx < k).
Proof.
  split.
  - intros p. split; [apply try_prev_node_Some|].
    intros (Hp & Hle & Hmax). destruct (try_prev_node g idx) as [p'|] eqn:Eq.
    + apply try_prev_node_Some in Eq as (Hp' & Hle' & Hmax'). f_equal.
      specialize (Hmax p' Hp' Hle'). specialize (Hmax' p Hp Hle). lia.
    + pose proof (try_prev_node_None g idx Eq p Hp). lia.
  - split; [apply try_prev_node_None|]. intros Hall.
    destruct (try_prev_node g idx) as [p|] eqn:Eq; [|reflexivity].
    apply try_prev_node_Some in Eq as (Hp & Hle & _). specialize (Hall p Hp). lia.
Qed.

Lemma try_next_node_Some g idx n :
  try_next_node g idx = Some n ->
  is_Some (nodes g !! n) /\ idx <= n /\ forall k, is_Some (nodes g !! k) -> idx <= k -> n <= k.
Proof.
  unfold try_next_node. intros H. apply min_opt_spec in H as [Hin Hmin].
  apply list_elem_of_filter in Hin as [Hle Hin]. apply elem_of_node_keys in Hin.
  split; [exact Hin|split; [exact Hle|]]. intros k Hk Hik. apply Hmin.
  apply list_elem_of_filter. split; [exact Hik|]. apply elem_of_node_keys. exact Hk.
Qed.

(** X6: try_next_node(idx) returns Some(n) exactly when n is the least node key that is >= idx. It returns None exactly when every node key is < idx. *)
Theorem try_next_node_spec_iff g idx :
  (forall n, try_next_node g idx = Some n <->
     is_Some (nodes g !! n) /\ idx <= n /\
     forall k, is_Some (nodes g !! k) -> idx <= k -> n <= k) /\
  (try_next_node g idx = None <-> forall k, is_Some (nodes g !! k) -> k < idx).
Proof.
  split.
  - intros n. split; [apply try_next_node_Some|].
    intros (Hn & Hle & Hmin). destruct (try_next_node_spec g idx n Hn Hle) as [n' [Eq Hn'n]].
    rewrite Eq. apply try_next_node_Some in Eq as (Hn' & Hle' & _).
    specialize (Hmin n' Hn' Hle'). f_equal. lia.
  - split.
    + intros Eq k Hk. destruct (Z.lt_ge_cases k idx) as [|Hge]; [assumption|].
      destruct (try_next_node_spec g idx k Hk Hge) as [n' [E' _]]. congruence.
    + intros Hall. destruct (try_next_node g idx) as [n|] eqn:Eq; [|reflexivity].
      apply try_next_node_Some in Eq as (Hn & Hle & _). specialize (Hall n Hn). lia.
Qed.

(** X2: add_node(index, w) returns None exactly when a node already existed at index and Some(index) otherwise. It sets the weight at index to w, leaves all other weights and the edge vector unchanged, and leaves the node with empty outputs and inputs lists. *)
Theorem add_node_spec g index w r g' :
  add_node g index w = (r, g') ->
  (r = None <-> is_Some (nodes g !! index)) /\ (r = None \/ r = Some index) /\
  (forall k, node_weight g' k = if decide (k = index) then Some w else node_weight g k) /\
  edges g' = edges g /\ outputs g' index = Ok [] /\ inputs g' index = Ok [].
Proof.
  intros H. pose proof (add_node_outputs_new g index w) as [Ho Hi].
  rewrite H in Ho, Hi. cbn [snd] in Ho, Hi.
  pose proof (node_weight_add_node g index w) as Hw. rewrite H in Hw. cbn [snd] in Hw.
  unfold add_node in H. injection H as <- <-.
  split; [|split; [|split; [|split; [reflexivity|split; assumption]]]].
  - destruct (nodes g !! index); split; intros; eauto; [discriminate|]. destruct H as [? ?]; discriminate.
  - destruct (nodes g !! index); auto.
  - intros k. rewrite Hw. destruct (decide (index = k)), (decide (k = index)); congruence.
Qed.

(** X3: add_edge(w, from, to) panics when there is no node at `from`, and also when from != to and there is no node at `to`. *)
Theorem add_edge_missing_panics g w fr t :
  (nodes g !! fr = None -> add_edge g w fr t = Panic) /\
  (fr <> t -> nodes g !! t = None -> add_edge g w fr t = Panic).
Proof.
  unfold add_edge. split.
  - intros H. rewrite H. reflexivity.
  - intros Hne H. destruct (nodes g !! fr) as [fn|]; [|reflexivity]. cbn [unwrap mbind Res_bind].
    rewrite lookup_insert_ne by exact Hne. rewrite H. reflexivity.
Qed.

(** X4: split_node(index, new_index, splitter) panics when there is no node at index. It also panics when the splitter succeeds but new_index is index itself or a key that is already in the graph, because add_node(...).unwrap() fails. *)
Theorem split_node_panics g index new_index (splitter : N -> Res (N * N)) :
  (nodes g !! index = None -> split_node g index new_index splitter = Panic) /\
  (forall nd a b, nodes g !! index = Some nd -> splitter (weight nd) = Ok (a, b) ->
     is_Some (nodes g !! new_index) \/ new_index = index ->
     split_node g index new_index splitter = Panic).
Proof.
  unfold split_node. split.
  - intros H. rewrite H. reflexivity.
  - intros nd a b Hnd Hs Hnew. rewrite Hnd. cbn [unwrap mbind Res_bind]. rewrite Hs.
    cbn [mbind Res_bind]. unfold add_node. cbn [nodes].
    destruct (decide (new_index = index)) as [->|Hne].
    + rewrite (lookup_insert_eq (nodes g)). cbn [unwrap mbind Res_bind]. reflexivity.
    + rewrite (lookup_insert_ne (nodes g) index new_index) by congruence. destruct Hnew as [[x Hx]|]; [|contradiction].
      rewrite Hx. cbn [unwrap mbind Res_bind]. reflexivity.
Qed.

End GraphExtras.



(** X7: When the post-order loop of dominator_tree, which drives DfsPostOrder from the root, finishes with Ok, the post order has no duplicates and contains only node keys. The root is its last element, which is what the debug_assert after the loop checks. *)
Theorem dominator_post_order_spec {N E} (fuel : nat) (g : Graph N E) (root : Z) po preds :
  dominator_post_order fuel g root = Ok (po, preds) ->
  NoDup po /\ (forall x, x ∈ po -> exists_node g x = true) /\ last po = Some root.
Proof.
  unfold dominator_post_order. intros H.
  apply (post_order_loop_spec fuel g root) in H as (Hnd & Hin & Hl).
  - split; [exact Hnd|split; [|exact Hl]]. intros x Hx. apply exists_node_true. auto.
  - split; simpl; set_solver.
  - reflexivity.
  - constructor.
  - left. split; [|set_solver]. split; [simpl; set_solver|]. exists []. simpl. 
    split; [reflexivity|]. split; [set_solver|left; reflexivity].
Qed.

(** X8: Assume dominators[root] = root, and every index i < root in a set P has an entry d with i < d <= root that is also in P. Then intersect(f1, f2) on two fingers in P that are at most root succeeds with Ok(r). r lies on the dominator chains of both f1 and f2, and it is the smallest index that lies on both chains. *)
Theorem intersect_nearest_common (dominators : list nat) (P : nat -> Prop) (root f1 f2 fuel : nat) :
  dominators !! root = Some root ->
  (forall i, P i -> (i < root)%nat ->
     exists d, dominators !! i = Some d /\ (i < d)%nat /\ (d <= root)%nat /\ P d) ->
  P f1 -> P f2 -> (f1 <= root)%nat -> (f2 <= root)%nat -> (2 * root < fuel)%nat ->
  exists r, intersect fuel dominators f1 f2 = Ok r /\
    on_dom_chain dominators f1 r /\ on_dom_chain dominators f2 r /\
    forall c, on_dom_chain dominators f1 c -> on_dom_chain dominators f2 c -> (r <= c)%nat.
Proof.
  intros Hroot Hup P1 P2 H1 H2 Hf.
  apply (intersect_loop dominators P root Hroot Hup f1 f2 fuel P1 P2 H1 H2); auto;
    [constructor|constructor| |lia].
  intros c C1 C2. split.
  - apply (on_dom_chain_up dominators P root Hroot Hup f1 c P1 H1 C1).
  - apply (on_dom_chain_up dominators P root Hroot Hup f2 c P2 H2 C2).
Qed.

Lemma add_edge_outputs_inputs_witness :
  exists g', add_edge two_nodes BranchKind.True 0 1 = Ok (0%nat, g') /\
    (0%nat = length (edges two_nodes) /\ edge_to g' 0 = Ok 1 /\
    outputs g' 0 = Ok [0%nat] /\ inputs g' 1 = Ok [0%nat] /\
    (forall k l, k <> 0 -> outputs two_nodes k = Ok l -> outputs g' k = Ok l) /\
    (forall k l, k <> 1 -> inputs two_nodes k = Ok l -> inputs g' k = Ok l)).
Proof.
  eexists. split; [vm_compute; reflexivity|].
  apply (add_edge_outputs_inputs two_nodes BranchKind.True 0 1); vm_compute; reflexivity.
Defined.

Lemma dominator_post_order_spec_witness :
  exists g po preds, resolve_basic_blocks [75 + 65536; 88 + 32767 * 65536] = Ok g /\
    dominator_post_order 10 g 0 = Ok (po, preds) /\
    NoDup po /\ (forall x, x ∈ po -> exists_node g x = true) /\ last po = Some 0.
Proof.
  do 3 eexists. split; [vm_compute; reflexivity|]. split; [vm_compute; reflexivity|].
  eapply (dominator_post_order_spec 10 _ 0). vm_compute. reflexivity.
Defined.

Lemma intersect_nearest_common_witness :
  exists r, intersect 5 [1; 2; 2]%nat 0 1 = Ok r /\
    on_dom_chain [1; 2; 2]%nat 0 r /\ on_dom_chain [1; 2; 2]%nat 1 r /\
    forall c, on_dom_chain [1; 2; 2]%nat 0 c -> on_dom_chain [1; 2; 2]%nat 1 c -> (r <= c)%nat.
Proof.
  apply (intersect_nearest_common [1; 2; 2]%nat (fun _ => True) 2 0 1 5);
    [reflexivity| |exact I|exact I|lia|lia|lia].
  intros i _ Hi. destruct i as [|[|]]; [exists 1%nat|exists 2%nat|lia]; repeat split; lia.
Defined.

Lemma analyze_block_keeps_slots_witness :
  exists insns' l', analyze_block (fun _ => None) Lifter_new
      [18 + 2 * 256 + 1 * 65536; 44 + 1 * 256 + 3 * 65536] [] = Ok (insns', l') /\
    slots_kept Lifter_new l' /\ (slot_names_ok Lifter_new -> slot_names_ok l') /\
    exists new, insns' = [] ++ new.
Proof.
  do 2 eexists. split; [vm_compute; reflexivity|].
  eapply (analyze_block_keeps_slots (fun _ => None) Lifter_new
    [18 + 2 * 256 + 1 * 65536; 44 + 1 * 256 + 3 * 65536] []). vm_compute. reflexivity.
Defined.

Lemma analyze_op_multres_witness :
  exists ins l', analyze_op (fun _ => None) Lifter_new (CALL 0 0 3) = Ok (ins, l') /\
    multres l' = (if decide (0 = 0 /\ 3 > 1) then 3 - 1 else multres Lifter_new).
Proof.
  do 2 eexists. split; [vm_compute; reflexivity|].
  eapply (analyze_op_multres (fun _ => None) Lifter_new (CALL 0 0 3) _ _). vm_compute. reflexivity.
Defined.

Lemma analyze_knil_spec_witness :
  exists ins l', analyze_op (fun _ => None) Lifter_new (KNIL 1 3) = Ok (ins, l') /\
    3 > 1 /\ ins = [Insn.SetVars (seqZ 1 (3 - 1 + 1)) Expr.Nil] /\
    forall i, 1 <= i <= 3 -> is_Some (slots l' !! i).
Proof.
  do 2 eexists. split; [vm_compute; reflexivity|].
  eapply (analyze_knil_spec (fun _ => None) Lifter_new 1 3 _ _). vm_compute. reflexivity.
Defined.

Lemma analyze_cat_spec_witness :
  exists ins l', analyze_op (fun _ => None) Lifter_new (CAT 0 1 3) = Ok (ins, l') /\
    3 > 1 /\ ins = [Insn.Cat 0 (var_exprs 1 (3 - 1 + 1))] /\ is_Some (slots l' !! 0).
Proof.
  do 2 eexists. split; [vm_compute; reflexivity|].
  eapply (analyze_cat_spec (fun _ => None) Lifter_new 0 1 3 _ _). vm_compute. reflexivity.
Defined.

Lemma analyze_ret_retm_witness :
  analyze_op (fun _ => None) Lifter_new (RET 1 4) =
    (if decide (4 < 2) then Panic else Ok ([Insn.Return (var_exprs 1 (4 - 1 - 1))], Lifter_new)) /\
  analyze_op (fun _ => None) Lifter_new (RETM 1 4) =
    (if decide (4 = 0 \/ 1 + 4 < 2) then Panic else Ok ([Insn.Return (var_exprs 1 (4 - 1))], Lifter_new)).
Proof. apply analyze_ret_retm; lia. Defined.

Lemma analyze_callm_after_call_witness :
  exists ins1 l1 ins2 l2,
    analyze_op (fun _ => None) Lifter_new (CALL 0 0 3) = Ok (ins1, l1) /\
    analyze_op (fun _ => None) l1 (CALLM 0 2 1) = Ok (ins2, l2) /\
    ins2 = [Insn.Call (if decide (2 = 0) then [] else seqZ 0 (2 - 1)) (var_exprs 0 (2 + 3 - 1))].
Proof.
  do 4 eexists. split; [vm_compute; reflexivity|]. split; [vm_compute; reflexivity|].
  eapply (analyze_callm_after_call (fun _ => None) Lifter_new 0 3 _ _ 0 2 1); try lia;
    vm_compute; reflexivity.
Defined.

Lemma read_uleb128_bounds_witness :
  0 <= 300 <= mask32 /\ exists pre, [172; 2; 9] = pre ++ [9] /\ (1 <= length pre <= 5)%nat.
Proof. apply (read_uleb128_bounds [172; 2; 9] [9] 300). vm_compute. reflexivity. Defined.

Lemma read_global_constants_count_witness :
  exists gcs' s', read_prototype_global_constants 2 [0; 7; 104; 105] [] = Ok (gcs', s') /\
    exists new, gcs' = [] ++ new /\ length new = 2%nat.
Proof.
  do 2 eexists. split; [vm_compute; reflexivity|].
  eapply (read_global_constants_count 2 [0; 7; 104; 105] []  _ _). vm_compute. reflexivity.
Defined.

Lemma read_const_table_sizes_witness :
  exists gcs' s', read_prototype_const_table [1; 1; 1; 0; 2] [] = Ok (gcs', s') /\
  exists na nh s1 s2 arr hsh,
    read_uleb128 [1; 1; 1; 0; 2] = Ok (na, s1) /\ read_uleb128 s1 = Ok (nh, s2) /\
    gcs' = [] ++ [GlobalConst.Table (mkConstTable arr hsh)] /\
    length arr = Z.to_nat na /\ length hsh = Z.to_nat nh.
Proof.
  do 2 eexists. split; [vm_compute; reflexivity|].
  eapply (read_const_table_sizes [1; 1; 1; 0; 2] []  _ _). vm_compute. reflexivity.
Defined.

Lemma read_prototype_sizes_witness :
  exists p s', read_prototype [0; 0; 1; 0; 0; 0; 1; 75; 0; 1; 0] = Ok (p, s') /\
  length (bc_raw p) = Z.to_nat (size_bc p) /\
  length (up_values p) = Z.to_nat (size_up_values p) /\
  length (global_consts p) = Z.to_nat (size_global_consts p) /\
  length (num_consts p) = Z.to_nat (size_num_consts p) /\
  resolve_basic_blocks (bc_raw p) = Ok (flow_graph p).
Proof.
  do 2 eexists. split; [vm_compute; reflexivity|].
  eapply (read_prototype_sizes [0; 0; 1; 0; 0; 0; 1; 75; 0; 1; 0]). vm_compute. reflexivity.
Defined.

Lemma read_header_errors_witness :
  read_header [27; 76] ByteCodeDump_new = Err IO /\
  read_header [27; 77; 74; 2; 0] ByteCodeDump_new =
    Err (InvalidHeaderBytes "Invalid byte code file magic.") /\
  read_header [27; 76; 74; 1; 0] ByteCodeDump_new =
    Err (InvalidHeaderBytes "Invalid byte code version.").
Proof.
  split; [|split].
  - apply (proj1 (read_header_errors ByteCodeDump_new [27; 76])). simpl. lia.
  - apply (proj1 (proj2 (read_header_errors ByteCodeDump_new [27; 77; 74; 2; 0])) 27 77 74 2 [0]);
      [reflexivity|unfold BC_HEAD1, BC_HEAD2, BC_HEAD3; congruence].
  - apply (proj2 (proj2 (read_header_errors ByteCodeDump_new [27; 76; 74; 1; 0])) 1 [0]);
      [reflexivity|unfold BC_VERSION; lia].
Defined.

Lemma read_bytecode_dump_truncated_witness :
  exists d, read_header [27; 76; 74; 2; 0; 10; 1; 2; 3] ByteCodeDump_new =
      Ok (d, encode_uleb128 10 ++ [1; 2; 3]) /\
    read_bytecode_dump [27; 76; 74; 2; 0; 10; 1; 2; 3] = Err IO.
Proof.
  eexists. split; [vm_compute; reflexivity|].
  eapply (read_bytecode_dump_truncated _ _ 10 [1; 2; 3]); [vm_compute; reflexivity|lia|simpl; lia].
Defined.

Lemma read_bytecode_dump_bad_length_stops_witness :
  exists d, read_header [27; 76; 74; 2; 0; 128; 129; 130; 131; 132; 5] ByteCodeDump_new =
      Ok (d, [128; 129; 130; 131; 132; 5]) /\
    read_bytecode_dump [27; 76; 74; 2; 0; 128; 129; 130; 131; 132; 5] = Ok d.
Proof.
  eexists. split; [vm_compute; reflexivity|].
  eapply (read_bytecode_dump_bad_length_stops _ _ 128 129 130 131 132 [5]);
    [vm_compute; reflexivity|vm_compute; discriminate ..].
Defined.

Lemma read_num_constant_roundtrip_witness :
  read_num_constant (encode_uleb128_33 300 false ++ [9]) = Ok (NumConst.Int 300, [9]) /\
  read_num_constant (encode_uleb128_33 300 true ++ encode_uleb128 7 ++ [9])
    = Ok (NumConst.Num 300 7, [9]).
Proof. apply read_num_constant_roundtrip; lia. Defined.

Lemma resolve_blocks_in_bc_witness :
  exists g, resolve_basic_blocks [75 + 65536; 88 + 32767 * 65536] = Ok g /\
    blocks_in_bc [75 + 65536; 88 + 32767 * 65536] g.
Proof.
  eexists. split; [vm_compute; reflexivity|].
  apply (resolve_blocks_in_bc [75 + 65536; 88 + 32767 * 65536]). vm_compute. reflexivity.
Defined.

Lemma resolve_edges_join_nodes_witness :
  exists g, resolve_basic_blocks [75 + 65536; 88 + 32767 * 65536] = Ok g /\ edges_join_nodes g.
Proof.
  eexists. split; [vm_compute; reflexivity|].
  apply (resolve_edges_join_nodes [75 + 65536; 88 + 32767 * 65536]). vm_compute. reflexivity.
Defined.


Lemma add_node_spec_witness :
  add_node two_nodes 0 [5] = (None, (add_node two_nodes 0 [5]).2) /\
  ((None : option Z) = None <-> is_Some (nodes two_nodes !! 0)) /\ ((None : option Z) = None \/ None = Some 0) /\
  (forall k, node_weight (add_node two_nodes 0 [5]).2 k =
     if decide (k = 0) then Some [5] else node_weight two_nodes k) /\
  edges (add_node two_nodes 0 [5]).2 = edges two_nodes /\
  outputs (add_node two_nodes 0 [5]).2 0 = Ok [] /\ inputs (add_node two_nodes 0 [5]).2 0 = Ok [].
Proof.
  split; [reflexivity|].
  apply (add_node_spec two_nodes 0 [5] None (add_node two_nodes 0 [5]).2). reflexivity.
Defined.

Lemma add_edge_missing_panics_witness :
  nodes two_nodes !! 7 = None /\ add_edge two_nodes BranchKind.True 7 0 = Panic /\
  add_edge two_nodes BranchKind.True 0 7 = Panic.
Proof.
  split; [reflexivity|]. split.
  - apply (proj1 (add_edge_missing_panics two_nodes BranchKind.True 7 0)). reflexivity.
  - apply (proj2 (add_edge_missing_panics two_nodes BranchKind.True 0 7)); [lia|reflexivity].
Defined.

Lemma split_node_panics_witness :
  nodes two_nodes !! 4 = None /\ split_node two_nodes 4 9 (block_split 1) = Panic /\
  split_node two_nodes 0 1 (fun b => Ok (b, b)) = Panic.
Proof.
  split; [reflexivity|]. split.
  - apply (proj1 (split_node_panics two_nodes 4 9 (block_split 1))). reflexivity.
  - apply (proj2 (split_node_panics two_nodes 0 1 (fun b => Ok (b, b))) {| weight := [1]; next_outgoing_edge := None; next_incoming_edge := None |} [1] [1]).
    + reflexivity.
    + reflexivity.
    + left. eexists. reflexivity.
Defined.
